(** * BM25 search index of mcp-docs-server (src/utils/indexer.ts)

    A shallow embedding of the tokenizer, the Markdown field extraction,
    the inverted index ([IndexSearch.add]) and the ranked search
    ([IndexSearch.search], [IndexSearch.calculateBM25Score]).

    Conventions of the embedding.
    - A JavaScript string is a [string] of 8-bit characters read as code
      units 0..255 (ISO-8859-1); [toLowerCase] and the regular
      expression character classes are those of JavaScript on that range.
    - Counts, positions and lengths are [nat]; the slice bound [k] is a [Z].
    - The average document length and the rational part of the BM25
      formula are exact rationals ([Q]); the score, which needs a
      logarithm, is a real number ([R]).  Rounding of IEEE doubles is not
      modelled.
    - [Map<string, _>] is a [gmap string _]; the score accumulator of
      [search], whose iteration order is observable, is an association
      list in insertion order.
    - Methods of [IndexSearch] run in a state monad over the fields of the
      class, with [None] standing for a call that does not return (an
      exception or a loop that never ends). *)

From Stdlib Require Import Reals QArith Qreals Qminmax Lra Lqa Lia ZArith.
From Stdlib Require Import Ascii String List Bool Arith Sorted Permutation.
From stdpp Require Import gmap strings list fin_maps.
Import ListNotations.

Local Open Scope string_scope.
Local Open Scope list_scope.
Local Open Scope nat_scope.

#[local] Arguments String.append : simpl nomatch.

(** ** Characters and strings *)

Definition code (c : ascii) : nat := nat_of_ascii c.

Definition in_range (lo hi : nat) (c : ascii) : bool :=
  (lo <=? code c) && (code c <=? hi).

Definition is_upper (c : ascii) : bool := in_range 65 90 c.
Definition is_lower (c : ascii) : bool := in_range 97 122 c.
Definition is_digit (c : ascii) : bool := in_range 48 57 c.

(** [[A-Za-z0-9_]] *)
Definition is_word (c : ascii) : bool :=
  is_upper c || is_lower c || is_digit c || (code c =? 95).

(** [\s] on code units below 256 *)
Definition is_space (c : ascii) : bool :=
  in_range 9 13 c || (code c =? 32) || (code c =? 160).

(** the characters [.] does not match *)
Definition is_line_terminator (c : ascii) : bool :=
  (code c =? 10) || (code c =? 13).

Definition lower_char (c : ascii) : ascii :=
  if is_upper c || (in_range 192 222 c && negb (code c =? 215))
  then ascii_of_nat (code c + 32)
  else c.

(** [String.prototype.toLowerCase] *)
Fixpoint toLowerCase (s : string) : string :=
  match s with
  | EmptyString => EmptyString
  | String c s' => String (lower_char c) (toLowerCase s')
  end.

(** longest prefix whose characters satisfy [p], and the rest *)
Fixpoint span (p : ascii -> bool) (s : string) : string * string :=
  match s with
  | EmptyString => (EmptyString, EmptyString)
  | String c s' =>
      if p c then let '(a, b) := span p s' in (String c a, b)
      else (EmptyString, s)
  end.

(** [s.startsWith(t)] *)
Fixpoint starts_with (t s : string) : bool :=
  match t, s with
  | EmptyString, _ => true
  | String a t', String b s' => Ascii.eqb a b && starts_with t' s'
  | String _ _, EmptyString => false
  end.

Fixpoint drop (n : nat) (s : string) : string :=
  match n, s with
  | S n', String _ s' => drop n' s'
  | _, _ => s
  end.

(** [Array.prototype.includes] and [Set.prototype.has] on strings *)
Definition includes (l : list string) (x : string) : bool :=
  existsb (String.eqb x) l.

(** [Array.prototype.join] *)
Fixpoint join (sep : string) (l : list string) : string :=
  match l with
  | [] => EmptyString
  | [x] => x
  | x :: rest => x +:+ sep +:+ join sep rest
  end.

(** [s.split(c)] for a one-character separator *)
Fixpoint split_char (sep : ascii) (s : string) : list string :=
  match s with
  | EmptyString => [EmptyString]
  | String c s' =>
      if Ascii.eqb c sep then EmptyString :: split_char sep s'
      else match split_char sep s' with
           | p :: ps => String c p :: ps
           | [] => [String c EmptyString]
           end
  end.

Fixpoint contains_char (x : ascii) (s : string) : bool :=
  match s with
  | EmptyString => false
  | String c s' => Ascii.eqb c x || contains_char x s'
  end.

(** ** Regular expressions

    A regular expression is given by its matcher at one position:
    [match_at prev s] tries to match at the position whose preceding
    character is [prev] and whose remaining input is [s], and returns the
    whole match and capture group 1. *)

Record RegExpMatch := { m0 : string; m1 : option string }.

Record RegExp := { match_at : option ascii -> string -> option RegExpMatch }.

(** All matches of a global regular expression, left to right, the next
    search starting where the previous match ended ([lastIndex]).  [skip]
    counts the characters of the previous match still to pass.  A match of
    length zero would stall a [while (regex.exec(text))] loop; none of the
    expressions below has one ([TOKEN_RE_never_empty], [MD_HEADER_RE_never_empty]
    and so on). *)
Fixpoint scan (re : RegExp) (prev : option ascii) (s : string) (skip : nat)
  : list RegExpMatch :=
  match skip with
  | S k =>
      match s with
      | EmptyString => []
      | String c s' => scan re (Some c) s' k
      end
  | O =>
      match match_at re prev s with
      | Some m =>
          m :: match s with
               | EmptyString => []
               | String c s' => scan re (Some c) s' (String.length (m0 m) - 1)
               end
      | None =>
          match s with
          | EmptyString => []
          | String c s' => scan re (Some c) s' 0
          end
      end
  end.

(** [[A-Za-z0-9_]*(?:-[A-Za-z0-9_]+)*], greedy *)
Fixpoint token_rest (s : string) : string :=
  match s with
  | EmptyString => EmptyString
  | String c s' =>
      if is_word c then String c (token_rest s')
      else if Ascii.eqb c "-" then
        match s' with
        | String d _ => if is_word d then String c (token_rest s') else EmptyString
        | EmptyString => EmptyString
        end
      else EmptyString
  end.

(** [TOKEN_RE = /[A-Za-z0-9_]+(?:-[A-Za-z0-9_]+)*/g] *)
Definition TOKEN_RE : RegExp :=
  {| match_at := fun _ s =>
       match s with
       | String c s' =>
           if is_word c then Some {| m0 := String c (token_rest s'); m1 := None |}
           else None
       | EmptyString => None
       end |}.

(** the last character of [s] that is not a line terminator, with the
    text before it *)
Fixpoint last_non_lt (s : string) : option (string * ascii) :=
  match s with
  | EmptyString => None
  | String c s' =>
      match last_non_lt s' with
      | Some (pre, x) => Some (String c pre, x)
      | None => if is_line_terminator c then None else Some (EmptyString, c)
      end
  end.

Definition at_line_start (prev : option ascii) : bool :=
  match prev with
  | None => true
  | Some c => is_line_terminator c
  end.

(** [MD_HEADER_RE = /^#{1,6}\s+(.+)$/gm].  After the run of [#] (which
    must be the whole run, of length 1 to 6, since [\s] does not match
    [#]), [\s+] takes the whole run of white space and [(.+)] the rest of
    the line.  When the white space reaches the end of the input, [\s+]
    gives characters back until [(.+)] can take one that is not a line
    terminator. *)
Definition MD_HEADER_RE : RegExp :=
  {| match_at := fun prev s =>
       if at_line_start prev then
         let '(hs, r) := span (Ascii.eqb "#") s in
         if (1 <=? String.length hs) && (String.length hs <=? 6) then
           let '(w, r2) := span is_space r in
           match w with
           | EmptyString => None
           | String w0 wt =>
               let '(d, _) := span (fun c => negb (is_line_terminator c)) r2 in
               match d with
               | String _ _ => Some {| m0 := hs +:+ w +:+ d; m1 := Some d |}
               | EmptyString =>
                   match last_non_lt wt with
                   | Some (pre, x) =>
                       Some {| m0 := hs +:+ String w0 pre +:+ String x EmptyString;
                               m1 := Some (String x EmptyString) |}
                   | None => None
                   end
               end
           end
         else None
       else None |}.

(** the text before the first occurrence of [pat] in [s] *)
Fixpoint before_first (pat s : string) : option string :=
  if starts_with pat s then Some EmptyString
  else match s with
       | EmptyString => None
       | String c s' =>
           match before_first pat s' with
           | Some b => Some (String c b)
           | None => None
           end
       end.

Definition fence : string := "```".
Definition newline : ascii := ascii_of_nat 10.

(** [MD_CODE_BLOCK_RE = /```[\w]*\n([\s\S]*?)```/g] *)
Definition MD_CODE_BLOCK_RE : RegExp :=
  {| match_at := fun _ s =>
       if starts_with fence s then
         let '(lang, r) := span is_word (drop 3 s) in
         match r with
         | String c body =>
             if Ascii.eqb c newline then
               match before_first fence body with
               | Some cap =>
                   Some {| m0 := fence +:+ lang +:+ String newline cap +:+ fence;
                           m1 := Some cap |}
               | None => None
               end
             else None
         | EmptyString => None
         end
       else None |}.

(** [MD_INLINE_CODE_RE = /`([^`]+)`/g] *)
Definition MD_INLINE_CODE_RE : RegExp :=
  {| match_at := fun _ s =>
       match s with
       | String "`" r =>
           let '(cap, r2) := span (fun c => negb (Ascii.eqb c "`")) r in
           match cap, r2 with
           | String _ _, String "`" _ =>
               Some {| m0 := String "`" (cap +:+ "`"); m1 := Some cap |}
           | _, _ => None
           end
       | _ => None
       end |}.

(** [MD_LINK_TEXT_RE = /\[([^\]]+)\]\([^)]+\)/g] *)
Definition MD_LINK_TEXT_RE : RegExp :=
  {| match_at := fun _ s =>
       match s with
       | String "[" r =>
           let '(cap, r2) := span (fun c => negb (Ascii.eqb c "]")) r in
           match cap, r2 with
           | String _ _, String "]" (String "(" r3) =>
               let '(target, r4) := span (fun c => negb (Ascii.eqb c ")")) r3 in
               match target, r4 with
               | String _ _, String ")" _ =>
                   Some {| m0 := String "[" (cap +:+ "](" +:+ target +:+ ")");
                           m1 := Some cap |}
               | _, _ => None
               end
           | _, _ => None
           end
       | _ => None
       end |}.

(** no match of the expression is the empty string *)
Definition never_empty (re : RegExp) : Prop :=
  forall prev s m, match_at re prev s = Some m -> m0 m <> EmptyString.

(** [text.match(re) || []] for a global [re] *)
Definition match_all (re : RegExp) (text : string) : list string :=
  map m0 (scan re None text 0).

(** [match[1] || match[0]]: an empty capture is falsy *)
Definition capture_or_whole (m : RegExpMatch) : string :=
  match m1 m with
  | Some (String c g) => String c g
  | _ => m0 m
  end.

(** [extractMatches(text, regex)] *)
Definition extractMatches (text : string) (regex : RegExp) : string :=
  join " " (map capture_or_whole (scan regex None text 0)).

(** ** Vocabulary (src/utils/stopwords.ts) *)

Definition STOP_WORDS : list string :=
  ["a"; "about"; "above"; "after"; "again"; "against"; "all"; "am"; "an";
   "and"; "any"; "are"; "as"; "at"; "be"; "because"; "been"; "before";
   "being"; "below"; "between"; "both"; "but"; "by"; "can"; "could"; "did";
   "do"; "does"; "doing"; "down"; "during"; "each"; "few"; "for"; "from";
   "further"; "had"; "has"; "have"; "having"; "he"; "her"; "here"; "hers";
   "herself"; "him"; "himself"; "his"; "how"; "i"; "if"; "in"; "into"; "is";
   "it"; "its"; "itself"; "just"; "me"; "more"; "most"; "my"; "myself"; "no";
   "nor"; "not"; "now"; "of"; "off"; "on"; "once"; "only"; "or"; "other";
   "our"; "ours"; "ourselves"; "out"; "over"; "own"; "same"; "she"; "should";
   "so"; "some"; "such"; "than"; "that"; "the"; "their"; "theirs"; "them";
   "themselves"; "then"; "there"; "these"; "they"; "this"; "those";
   "through"; "to"; "too"; "under"; "until"; "up"; "very"; "was"; "we";
   "were"; "what"; "when"; "where"; "which"; "while"; "who"; "whom"; "why";
   "will"; "with"; "would"; "you"; "your"; "yours"; "yourself"; "yourselves";
   "also"; "come"; "even"; "get"; "got"; "go"; "going"; "gone"; "know";
   "like"; "make"; "made"; "may"; "might"; "much"; "must"; "need"; "new";
   "one"; "see"; "take"; "thing"; "think"; "use"; "used"; "using"; "want";
   "way"; "well"; "work"; "year"; "first"; "last"; "long"; "great"; "little";
   "old"; "right"; "big"; "high"; "small"; "large"; "next"; "early"; "young";
   "important"; "public"; "bad"; "good"].

Definition PRESERVE_TERMS : list string :=
  ["mcp"; "json"; "rpc"; "sse"; "stdio"; "http"; "https"; "uri"; "url";
   "api"; "sdk"; "cli"; "llm"; "ai"; "ml"; "aws"; "pydantic"; "zod";
   "typescript"; "ts"].

(** [Set.prototype.has] *)
Definition has (set : list string) (x : string) : bool := includes set x.

Arguments has : simpl never.
Arguments includes : simpl never.

(** ** Tokenizer *)

(** [generateBigrams(tokens)] *)
Fixpoint generateBigrams (tokens : list string) : list string :=
  match tokens with
  | a :: (b :: _) as rest => (a +:+ "_" +:+ b) :: generateBigrams rest
  | _ => []
  end.

(** [/[a-z][A-Z]/.test(part)] *)
Fixpoint test_camel (s : string) : bool :=
  match s with
  | String c (String d _ as s') => (is_lower c && is_upper d) || test_camel s'
  | _ => false
  end.

(** [part.split(CAMELCASE_RE)] with
    [CAMELCASE_RE = /(?<=[a-z])(?=[A-Z])/]: cut between a lower-case and an
    upper-case letter *)
Fixpoint split_camel (s : string) : list string :=
  match s with
  | EmptyString => [EmptyString]
  | String c s' =>
      match s' with
      | EmptyString => [String c EmptyString]
      | String d _ =>
          if is_lower c && is_upper d then String c EmptyString :: split_camel s'
          else match split_camel s' with
               | p :: ps => String c p :: ps
               | [] => [String c EmptyString]
               end
      end
  end.

Definition is_empty (s : string) : bool :=
  match s with EmptyString => true | _ => false end.

Section Tokenizer.

(** [PorterStemmer.stem] of the [natural] package, which is not part of
    the repository: the tokenizer is parametric in it. *)
Variable stem : string -> string.

(** body of the loop over [camelParts] (indexer.ts, lines 79-91) *)
Definition camel_step (tokens : list string) (camelPart : string) : list string :=
  let camelLower := toLowerCase camelPart in
  if negb (is_empty camelLower) && negb (has STOP_WORDS camelLower) then
    if has PRESERVE_TERMS camelLower then tokens ++ [camelLower]
    else
      let stemmed := stem camelLower in
      if negb (has STOP_WORDS stemmed) then tokens ++ [stemmed] else tokens
  else tokens.

(** body of the loop over [parts] (lines 64-103); [tokens] is the output
    array of the whole [tokenize] call *)
Definition tokenize_part (tokens : list string) (part : string) : list string :=
  let partLower := toLowerCase part in
  if is_empty partLower || has STOP_WORDS partLower then tokens
  else if has PRESERVE_TERMS partLower then tokens ++ [partLower]
  else if test_camel part then
    let tokens1 := fold_left camel_step (split_camel part) tokens in
    let stemmedOriginal := stem partLower in
    if negb (has STOP_WORDS stemmedOriginal) && negb (includes tokens1 stemmedOriginal)
    then tokens1 ++ [stemmedOriginal]
    else tokens1
  else
    let stemmed := stem partLower in
    if negb (has STOP_WORDS stemmed) then tokens ++ [stemmed] else tokens.

(** body of the loop over [matches] (lines 60-104) *)
Definition tokenize_match (tokens : list string) (token : string) : list string :=
  let parts := if contains_char "-" token then split_char "-" token else [token] in
  fold_left tokenize_part parts tokens.

(** [tokenize(text)] *)
Definition tokenize (text : string) : list string :=
  fold_left tokenize_match (match_all TOKEN_RE text) [].

End Tokenizer.

(** ** The stemmer *)

Fixpoint take (n : nat) (s : string) : string :=
  match n, s with
  | S n', String c s' => String c (take n' s')
  | _, _ => EmptyString
  end.

(** [Some stem] when [s = stem +:+ suf] *)
Definition strip_suffix (suf s : string) : option string :=
  let n := String.length s - String.length suf in
  if (String.length suf <=? String.length s) && String.eqb (drop n s) suf
  then Some (take n s)
  else None.

Module PorterStemmer.

(** The tokenizer is parametric in the stemmer; this module gives the one
    the specification names, for the closed statements further down: the
    published Porter algorithm (M. F. Porter, An algorithm for suffix
    stripping, 1980), steps 1a to 5b. *)

Definition is_aeiou (c : ascii) : bool :=
  Ascii.eqb c "a" || Ascii.eqb c "e" || Ascii.eqb c "i" || Ascii.eqb c "o"
  || Ascii.eqb c "u".

(** one flag per character, [true] for a vowel; [y] is a vowel exactly
    when it follows a consonant *)
Fixpoint vowels_from (prev_cons : bool) (s : string) : list bool :=
  match s with
  | EmptyString => []
  | String c s' =>
      let v := is_aeiou c || (Ascii.eqb c "y" && prev_cons) in
      v :: vowels_from (negb v) s'
  end.

Definition pattern (s : string) : list bool := vowels_from false s.

(** the number of vowel-consonant sequences in [[C](VC)^m[V]] *)
Fixpoint count_vc (l : list bool) : nat :=
  match l with
  | [] => 0
  | v :: r =>
      match r with
      | false :: _ => if v then S (count_vc r) else count_vc r
      | _ => count_vc r
      end
  end.

Definition measure (s : string) : nat := count_vc (pattern s).

(** [*v*] *)
Definition has_vowel (s : string) : bool := existsb (fun v => v) (pattern s).

Definition last_char (s : string) : option ascii :=
  match drop (String.length s - 1) s with
  | String c _ => Some c
  | EmptyString => None
  end.

Definition ends_in (x : ascii) (s : string) : bool :=
  match last_char s with
  | Some c => Ascii.eqb c x
  | None => false
  end.

(** [*d]: the stem ends with a double consonant *)
Definition double_consonant (s : string) : bool :=
  match rev (pattern s), drop (String.length s - 2) s with
  | false :: _, String a (String b EmptyString) => Ascii.eqb a b
  | _, _ => false
  end.

(** [*o]: the stem ends consonant-vowel-consonant, the last consonant
    not being w, x or y *)
Definition cvc (s : string) : bool :=
  match rev (pattern s) with
  | false :: true :: false :: _ =>
      negb (ends_in "w" s || ends_in "x" s || ends_in "y" s)
  | _ => false
  end.

Record rule := { suffix : string; repl : string; cond : string -> bool }.

(** The first rule whose suffix the word has decides: the suffix is
    replaced when the condition holds of the stem, and the word is left
    alone otherwise.  The flag tells whether a replacement was made. *)
Fixpoint apply_rules (rules : list rule) (s : string) : bool * string :=
  match rules with
  | [] => (false, s)
  | r :: rest =>
      match strip_suffix (suffix r) s with
      | Some st => if cond r st then (true, st +:+ repl r) else (false, s)
      | None => apply_rules rest s
      end
  end.

Definition always (_ : string) : bool := true.
Definition m_gt0 (st : string) : bool := 0 <? measure st.
Definition m_gt1 (st : string) : bool := 1 <? measure st.

Definition rules1a : list rule :=
  [ {| suffix := "sses"; repl := "ss"; cond := always |};
    {| suffix := "ies"; repl := "i"; cond := always |};
    {| suffix := "ss"; repl := "ss"; cond := always |};
    {| suffix := "s"; repl := ""; cond := always |} ].

Definition rules1b : list rule :=
  [ {| suffix := "ed"; repl := ""; cond := has_vowel |};
    {| suffix := "ing"; repl := ""; cond := has_vowel |} ].

Definition rules1b_fix : list rule :=
  [ {| suffix := "at"; repl := "ate"; cond := always |};
    {| suffix := "bl"; repl := "ble"; cond := always |};
    {| suffix := "iz"; repl := "ize"; cond := always |} ].

Definition rules1c : list rule :=
  [ {| suffix := "y"; repl := "i"; cond := has_vowel |} ].

Definition mk0 (p : string * string) : rule :=
  {| suffix := fst p; repl := snd p; cond := m_gt0 |}.

Definition rules2 : list rule :=
  map mk0
    [ ("ational", "ate"); ("tional", "tion"); ("enci", "ence");
      ("anci", "ance"); ("izer", "ize"); ("abli", "able"); ("alli", "al");
      ("entli", "ent"); ("eli", "e"); ("ousli", "ous"); ("ization", "ize");
      ("ation", "ate"); ("ator", "ate"); ("alism", "al");
      ("iveness", "ive"); ("fulness", "ful"); ("ousness", "ous");
      ("aliti", "al"); ("iviti", "ive"); ("biliti", "ble") ].

Definition rules3 : list rule :=
  map mk0
    [ ("icate", "ic"); ("ative", ""); ("alize", "al"); ("iciti", "ic");
      ("ical", "ic"); ("ful", ""); ("ness", "") ].

Definition mk1 (suf : string) : rule :=
  {| suffix := suf; repl := ""; cond := m_gt1 |}.

Definition rules4 : list rule :=
  map mk1 ["al"; "ance"; "ence"; "er"; "ic"; "able"; "ible"; "ant";
           "ement"; "ment"; "ent"]
  ++ [ {| suffix := "ion"; repl := "";
          cond := fun st => m_gt1 st && (ends_in "s" st || ends_in "t" st) |} ]
  ++ map mk1 ["ou"; "ism"; "ate"; "iti"; "ous"; "ive"; "ize"].

Definition rules5a : list rule :=
  [ {| suffix := "e"; repl := "";
       cond := fun st => m_gt1 st || ((measure st =? 1) && negb (cvc st)) |} ].

Definition chop (s : string) : string := take (String.length s - 1) s.

(** what follows a successful removal of [ed] or [ing] *)
Definition step1b_fix (s1 : string) : string :=
  match apply_rules rules1b_fix s1 with
  | (true, s2) => s2
  | (false, _) =>
      if double_consonant s1
         && negb (ends_in "l" s1 || ends_in "s" s1 || ends_in "z" s1)
      then chop s1
      else if (measure s1 =? 1) && cvc s1 then s1 +:+ "e"
      else s1
  end.

Definition step1b (s : string) : string :=
  match strip_suffix "eed" s with
  | Some st => if m_gt0 st then st +:+ "ee" else s
  | None =>
      match apply_rules rules1b s with
      | (true, s1) => step1b_fix s1
      | (false, _) => s
      end
  end.

Definition step5b (s : string) : string :=
  if m_gt1 s && double_consonant s && ends_in "l" s then chop s else s.

(** Modelled from the spec: [PorterStemmer.stem] belongs to the [natural]
    package and is not in the repository.  Section 4.1 step 6 of the
    specification asks for the published Porter algorithm; words of fewer
    than three characters are returned unchanged. *)
Definition stem (token : string) : string :=
  if String.length token <? 3 then token
  else
    let s1 := snd (apply_rules rules1a token) in
    let s2 := step1b s1 in
    let s3 := snd (apply_rules rules1c s2) in
    let s4 := snd (apply_rules rules2 s3) in
    let s5 := snd (apply_rules rules3 s4) in
    let s6 := snd (apply_rules rules4 s5) in
    let s7 := snd (apply_rules rules5a s6) in
    step5b s7.

End PorterStemmer.

(** ** Occurrence counting *)

Fixpoint index_from (t s : string) (i : nat) : option nat :=
  if starts_with t s then Some i
  else match s with
       | EmptyString => None
       | String _ s' => index_from t s' (S i)
       end.

(** [s.indexOf(t, pos)], [None] for [-1] *)
Definition indexOf (s t : string) (pos : nat) : option nat :=
  index_from t (drop pos s) (Nat.min pos (String.length s)).

(** the [while] loop of [countOccurrences]; [None] when the fuel runs out *)
Fixpoint count_loop (fuel : nat) (lower token : string) (pos count : nat)
  : option nat :=
  match fuel with
  | O => None
  | S fuel' =>
      match indexOf lower token pos with
      | None => Some count
      | Some p => count_loop fuel' lower token (p + String.length token) (S count)
      end
  end.

(** [countOccurrences(text, token)].  Each turn of the loop but the last
    finds an occurrence, so [S (length lower)] turns are enough for a
    non-empty token ([countOccurrences_total]); on the empty token the
    loop never ends and the result is [None] ([countOccurrences_empty]). *)
Definition countOccurrences (text token : string) : option nat :=
  let lower := toLowerCase text in
  count_loop (S (String.length lower)) lower token 0 0.

(** ** Documents and the index *)

Record Doc := {
  uri : string;
  displayTitle : string;
  content : string;
  indexTitle : string
}.

Record SearchResult := { score : R; doc : Doc }.

Record IndexSearch := {
  docs : list Doc;
  docFrequency : gmap string nat;
  docIndices : gmap string (list nat);
  docLengths : list nat;
  avgDocLength : Q
}.

(** [new IndexSearch()] *)
Definition empty_index : IndexSearch :=
  {| docs := []; docFrequency := ∅; docIndices := ∅; docLengths := [];
     avgDocLength := 0 |}.

Definition set_docs (v : list Doc) (st : IndexSearch) : IndexSearch :=
  {| docs := v; docFrequency := docFrequency st; docIndices := docIndices st;
     docLengths := docLengths st; avgDocLength := avgDocLength st |}.

Definition set_docFrequency (v : gmap string nat) (st : IndexSearch) : IndexSearch :=
  {| docs := docs st; docFrequency := v; docIndices := docIndices st;
     docLengths := docLengths st; avgDocLength := avgDocLength st |}.

Definition set_docIndices (v : gmap string (list nat)) (st : IndexSearch) : IndexSearch :=
  {| docs := docs st; docFrequency := docFrequency st; docIndices := v;
     docLengths := docLengths st; avgDocLength := avgDocLength st |}.

Definition set_docLengths (v : list nat) (st : IndexSearch) : IndexSearch :=
  {| docs := docs st; docFrequency := docFrequency st; docIndices := docIndices st;
     docLengths := v; avgDocLength := avgDocLength st |}.

Definition set_avgDocLength (v : Q) (st : IndexSearch) : IndexSearch :=
  {| docs := docs st; docFrequency := docFrequency st; docIndices := docIndices st;
     docLengths := docLengths st; avgDocLength := v |}.

(** *** The monad of the methods *)

Definition M (A : Type) : Type := IndexSearch -> option (A * IndexSearch).

#[global] Instance M_ret : MRet M := fun A x st => Some (x, st).

#[global] Instance M_bind : MBind M := fun A B f m st =>
  match m st with
  | Some (a, st') => f a st'
  | None => None
  end.

(** read a field of [this] *)
Definition gets {A} (f : IndexSearch -> A) : M A := fun st => Some (f st, st).

(** assign a field of [this] *)
Definition modify (f : IndexSearch -> IndexSearch) : M unit :=
  fun st => Some (tt, f st).

(** a computation without access to [this]; [None] does not return *)
Definition liftO {A} (o : option A) : M A := fun st =>
  match o with
  | Some a => Some (a, st)
  | None => None
  end.

(** [for (const x of l) { acc = body(acc, x) }] *)
Fixpoint for_each {A S} (l : list A) (body : S -> A -> M S) (acc : S) : M S :=
  match l with
  | [] => mret acc
  | x :: rest => acc' ← body acc x; for_each rest body acc'
  end.

(** *** Scoring constants *)

Definition K1 : Q := 1.5.
Definition B : Q := 0.75.

Definition TITLE_BOOST_EMPTY : nat := 8.
Definition TITLE_BOOST_SHORT : nat := 5.
Definition TITLE_BOOST_LONG : nat := 3.
Definition SHORT_PAGE_THRESHOLD : nat := 800.

(** [getTitleBoost(doc)] *)
Definition getTitleBoost (doc : Doc) : nat :=
  let n := String.length (content doc) in
  if n =? 0 then TITLE_BOOST_EMPTY
  else if n <? SHORT_PAGE_THRESHOLD then TITLE_BOOST_SHORT
  else TITLE_BOOST_LONG.

(** a count or length as a JavaScript number *)
Definition num (n : nat) : Q := inject_Z (Z.of_nat n).

(** the combined weighted term frequency (calculateBM25Score, lines 247-272) *)
Definition weightedTf (doc : Doc) (token : string) : option nat :=
  let contentLower := toLowerCase (content doc) in
  let titleLower := toLowerCase (indexTitle doc) in
  contentTf ← countOccurrences contentLower token;
  titleTf ← countOccurrences titleLower token;
  let headers := extractMatches (content doc) MD_HEADER_RE in
  headerTf ← countOccurrences (toLowerCase headers) token;
  let codeBlocks := extractMatches (content doc) MD_CODE_BLOCK_RE in
  codeTf ← countOccurrences (toLowerCase codeBlocks) token;
  let linkText := extractMatches (content doc) MD_LINK_TEXT_RE in
  linkTf ← countOccurrences (toLowerCase linkText) token;
  Some (contentTf + titleTf * getTitleBoost doc + headerTf * 4 + codeTf * 2
        + linkTf * 2).

(** the argument of the logarithm of the IDF (line 281) *)
Definition idf_arg (nDocs df : nat) : Q :=
  ((num nDocs - num df + 0.5) / (num df + 0.5) + 1.0)%Q.

(** the denominator of the TF component (line 286) *)
Definition tf_denominator (w docLength : nat) (avgLen : Q) : Q :=
  (num w + K1 * (1 - B + B * (num docLength / avgLen)))%Q.

(** the TF component with length normalization (lines 284-286) *)
Definition tf_component (w docLength : nat) (avgLen : Q) : Q :=
  ((num w * (K1 + 1)) / tf_denominator w docLength avgLen)%Q.

(** [this.docLengths[docIdx] || 1] (line 275) *)
Definition docLength_of (st : IndexSearch) (docIdx : nat) : nat :=
  match docLengths st !! docIdx with
  | Some (S n) => S n
  | _ => 1
  end.

(** [Math.max(this.avgDocLength, 1)] (line 276) *)
Definition avgLen_of (st : IndexSearch) : Q := Qmax (avgDocLength st) 1.

(** [Math.max(this.docs.length, 1)] (line 279) *)
Definition nDocs_of (st : IndexSearch) : nat := Nat.max (length (docs st)) 1.

(** [this.docFrequency.get(token) || 0] (line 280) *)
Definition df_of (st : IndexSearch) (token : string) : nat :=
  default 0 (docFrequency st !! token).

(** [calculateBM25Score(doc, token, docIdx)] *)
Definition calculateBM25Score (doc : Doc) (token : string) (docIdx : nat) : M R :=
  w ← liftO (weightedTf doc token);
  docLength ← gets (fun st => docLength_of st docIdx);
  avgLen ← gets avgLen_of;
  nDocs ← gets nDocs_of;
  df ← gets (fun st => df_of st token);
  let idf := ln (Q2R (idf_arg nDocs df)) in
  let tfComponent := tf_component w docLength avgLen in
  mret (idf * Q2R tfComponent)%R.

(** *** The score accumulator of [search]: a [Map<number, number>], whose
    entries are listed in the order in which their keys were first set *)

Definition scores_get (scores : list (nat * R)) (idx : nat) : option R :=
  snd <$> find (fun e => fst e =? idx) scores.

Fixpoint scores_set (scores : list (nat * R)) (idx : nat) (v : R) : list (nat * R) :=
  match scores with
  | [] => [(idx, v)]
  | (i, x) :: rest =>
      if i =? idx then (i, v) :: rest else (i, x) :: scores_set rest idx v
  end.

(** [Array.prototype.sort] with the comparator [(a, b) => b.score - a.score]:
    the stable sort by descending score, written as an insertion sort *)
Fixpoint insert_desc (x : SearchResult) (l : list SearchResult) : list SearchResult :=
  match l with
  | [] => [x]
  | y :: rest =>
      if Rlt_dec (score x) (score y) then y :: insert_desc x rest
      else x :: y :: rest
  end.

Definition sort_desc (l : list SearchResult) : list SearchResult :=
  fold_right insert_desc [] l.

(** [l.slice(0, k)] for an integer [k] *)
Definition slice0 {A} (l : list A) (k : Z) : list A :=
  if (k <? 0)%Z then firstn (Z.to_nat (Z.of_nat (length l) + k)) l
  else firstn (Z.to_nat k) l.

Section Index.

Variable stem : string -> string.

(** the weighted haystack of a document (add, lines 166-184) *)
Definition haystack (doc : Doc) : string :=
  let content' := toLowerCase (content doc) in
  let titleText := toLowerCase (indexTitle doc) in
  let headers := extractMatches (content doc) MD_HEADER_RE in
  let codeBlocks := extractMatches (content doc) MD_CODE_BLOCK_RE in
  let inlineCode := extractMatches (content doc) MD_INLINE_CODE_RE in
  let linkText := extractMatches (content doc) MD_LINK_TEXT_RE in
  join " "
    (List.filter (fun s => negb (is_empty s))
       [titleText; toLowerCase headers; toLowerCase linkText;
        toLowerCase codeBlocks; toLowerCase inlineCode; content']).

(** [allTokens] of a document (lines 187-189) *)
Definition allTokens (doc : Doc) : list string :=
  let unigrams := tokenize stem (haystack doc) in
  let bigrams := generateBigrams unigrams in
  unigrams ++ bigrams.

(** body of the loop over [allTokens] (lines 191-201); the loop carries
    the local [seen] and [docTokens] *)
Definition add_token (idx : nat) (acc : gset string * list string) (tok : string)
  : M (gset string * list string) :=
  let '(seen, docTokens) := acc in
  indices ← gets (fun st => default [] (docIndices st !! tok));
  modify (fun st => set_docIndices (<[tok := indices ++ [idx]]> (docIndices st)) st);;
  seen' ← (if decide (tok ∈ seen) then mret seen
           else
             df ← gets (fun st => default 0 (docFrequency st !! tok));
             modify (fun st => set_docFrequency (<[tok := df + 1]> (docFrequency st)) st);;
             mret (seen ∪ {[tok]}));
  mret (seen', docTokens ++ [tok]).

(** [add(doc)] *)
Definition add (doc : Doc) : M unit :=
  idx ← gets (fun st => length (docs st));
  modify (fun st => set_docs (docs st ++ [doc]) st);;
  '(seen, docTokens) ← for_each (allTokens doc) (add_token idx) (∅, []);
  modify (fun st => set_docLengths (docLengths st ++ [length docTokens]) st);;
  totalLength ← gets (fun st => fold_left Nat.add (docLengths st) 0);
  n ← gets (fun st => length (docLengths st));
  modify (set_avgDocLength (num totalLength / num n)).

(** body of the loop over the posting list of [qt] (lines 228-232); when
    [this.docs[idx]] is undefined, [calculateBM25Score] throws on
    [doc.content] *)
Definition search_posting (qt : string) (scores : list (nat * R)) (idx : nat)
  : M (list (nat * R)) :=
  d ← gets (fun st => docs st !! idx);
  doc ← liftO d;
  score ← calculateBM25Score doc qt idx;
  mret (scores_set scores idx (default 0%R (scores_get scores idx) + score)%R).

(** body of the loop over [qTokens] (lines 226-233) *)
Definition search_token (scores : list (nat * R)) (qt : string)
  : M (list (nat * R)) :=
  indices ← gets (fun st => default [] (docIndices st !! qt));
  for_each indices (search_posting qt) scores.

(** [{ score, doc: this.docs[idx] }] for one entry of the accumulator.
    Every key of the accumulator has gone through [search_posting], so
    [this.docs[idx]] is a document here. *)
Definition to_result (entry : nat * R) : M SearchResult :=
  d ← gets (fun st => docs st !! fst entry);
  doc ← liftO d;
  mret {| score := snd entry; doc := doc |}.

(** [search(query, k)] *)
Definition search (query : string) (k : Z) : M (list SearchResult) :=
  n ← gets (fun st => length (docs st));
  if n =? 0 then mret []
  else
    let qUnigrams := tokenize stem query in
    let qBigrams := generateBigrams qUnigrams in
    let qTokens := qUnigrams ++ qBigrams in
    scores ← for_each qTokens search_token [];
    results ← for_each scores (fun acc e => r ← to_result e; mret (acc ++ [r])) [];
    let ranked := sort_desc results in
    mret (slice0 ranked k).

End Index.

(** ** Statements compared with the code *)

Section TokenizerSpec.

Variable stem : string -> string.

(** the tokens a camel-case part emits for its sub-parts *)
Definition camel_tokens (part : string) : list string :=
  fold_left (camel_step stem) (split_camel part) [].

(** a part that reaches the camel-case branch of [tokenize_part] *)
Definition camel_part (part : string) : Prop :=
  is_empty (toLowerCase part) = false
  /\ has STOP_WORDS (toLowerCase part) = false
  /\ has PRESERVE_TERMS (toLowerCase part) = false
  /\ test_camel part = true.

(** The camel-case branch as section 4.1 step 5 of the specification
    words it: the stem of the whole part is compared with the tokens of
    this part only. *)
Definition tokenize_part_scoped (tokens : list string) (part : string) : list string :=
  let own := camel_tokens part in
  let stemmedOriginal := stem (toLowerCase part) in
  if negb (has STOP_WORDS stemmedOriginal) && negb (includes own stemmedOriginal)
  then tokens ++ own ++ [stemmedOriginal]
  else tokens ++ own.

(** no unigram of any text contains the separator of bigrams *)
Definition separator_free_unigrams : Prop :=
  forall text tok, In tok (tokenize stem text) -> contains_char "_" tok = false.

End TokenizerSpec.

(** The occurrences of [token] in [s], counted from the left without
    overlap, as section 4.4 step 1 of the specification words it: at each
    position, an occurrence that starts there is counted and stepped
    over.  [skip] is the number of characters of the last counted
    occurrence still to step over. *)
Fixpoint occurrences_from (token s : string) (skip : nat) : nat :=
  match s with
  | EmptyString => 0
  | String _ s' =>
      match skip with
      | S k => occurrences_from token s' k
      | O =>
          if starts_with token s
          then S (occurrences_from token s' (String.length token - 1))
          else occurrences_from token s' 0
      end
  end.

Definition occurrences (token text : string) : nat := occurrences_from token text 0.

(** the string does not contain the separator of bigrams *)
Definition no_sep (s : string) : Prop := contains_char "_" s = false.

Section Emitted.

(** a property of tokens, to be shown of every token emitted *)
Variable P : string -> Prop.

Definition lower_ok (w : string) : Prop :=
  toLowerCase w <> EmptyString -> P (toLowerCase w).

Definition part_ok (part : string) : Prop :=
  lower_ok part /\ Forall lower_ok (split_camel part).

Definition match_ok (token : string) : Prop :=
  part_ok token /\ Forall part_ok (split_char "-" token).

End Emitted.

Module PorterTables.
Import PorterStemmer.

(** no rule of the table writes a separator *)
Definition clean (rules : list rule) : Prop :=
  forall r, In r rules -> no_sep (repl r).

(** a rule of the table fires only on a non-empty stem or puts something
    in place of the suffix *)
Definition careful (rules : list rule) : Prop :=
  forall r st, In r rules -> cond r st = true ->
               st <> EmptyString \/ repl r <> EmptyString.

End PorterTables.

(** a method call that leaves every field of [this] as it was *)
Definition read_only {A} (m : M A) : Prop :=
  forall st a st', m st = Some (a, st') -> st' = st.

(** the posting list of a token, [this.docIndices.get(tok) || []] *)
Definition postings (st : IndexSearch) (tok : string) : list nat :=
  default [] (docIndices st !! tok).

(** the arithmetic mean of the recorded lengths *)
Definition mean (l : list nat) : Q :=
  (num (fold_left Nat.add l 0%nat) / num (length l))%Q.

Section Reachable.

Variable stem : string -> string.

(** the states that a sequence of [add] calls builds from a fresh index *)
Inductive reachable : IndexSearch -> Prop :=
| reach_empty : reachable empty_index
| reach_add st doc st' :
    reachable st -> add stem doc st = Some (tt, st') -> reachable st'.

(** the number of documents, in order of insertion, whose indexed
    tokens contain [tok] *)
Definition docs_containing (tok : string) (ds : list Doc) : nat :=
  length (List.filter (fun d => includes (allTokens stem d) tok) ds).

End Reachable.

(** ** The order of the results *)

(** [note acc i]: the keys of the accumulator after [i] is set *)
Definition note (acc : list nat) (i : nat) : list nat :=
  if existsb (Nat.eqb i) acc then acc else acc ++ [i].

(** the distinct elements of [l], each at its first occurrence *)
Definition first_occurrences (l : list nat) : list nat := fold_left note l [].

Section QueryTokens.

Variable stem : string -> string.

(** [qTokens] of a query (search, lines 220-222) *)
Definition query_tokens (query : string) : list string :=
  let qUnigrams := tokenize stem query in
  qUnigrams ++ generateBigrams qUnigrams.

(** the positions that enter the accumulator of [search], in the order
    in which they enter it *)
Definition accumulator_order (st : IndexSearch) (query : string) : list nat :=
  first_occurrences (flat_map (postings st) (query_tokens query)).

(** every word of the query is a stop word *)
Definition only_stopwords (query : string) : Prop :=
  forall token part,
    In token (match_all TOKEN_RE query) ->
    In part (if contains_char "-" token then split_char "-" token else [token]) ->
    has STOP_WORDS (toLowerCase part) = true.

End QueryTokens.

Definition has_score (s : R) (r : SearchResult) : bool :=
  if Req_dec_T (score r) s then true else false.

Definition ge_score (a b : SearchResult) : Prop := (score b <= score a)%R.

(** scores do not increase along the list *)
Definition descending (l : list SearchResult) : Prop :=
  forall i j ri rj,
    i < j -> l !! i = Some ri -> l !! j = Some rj -> (score rj <= score ri)%R.

(** the result shows the document stored at position [i] *)
Definition at_position (st : IndexSearch) (r : SearchResult) (i : nat) : Prop :=
  docs st !! i = Some (doc r).

(** the result is the accumulator entry [e] *)
Definition of_entry (st : IndexSearch) (r : SearchResult) (e : nat * R) : Prop :=
  score r = snd e /\ at_position st r (fst e).

(** equal scores are listed by ascending position in the index *)
Definition ties_by_position (st : IndexSearch) (l : list SearchResult) : Prop :=
  forall i j ri rj pi pj,
    i < j -> l !! i = Some ri -> l !! j = Some rj -> score ri = score rj ->
    at_position st ri pi -> at_position st rj pj -> pi < pj.

Section Building.

Variable stem : string -> string.

(** the state of [this] after [add(doc)] *)
Definition after_add (st : IndexSearch) (doc : Doc) : IndexSearch :=
  match add stem doc st with
  | Some (_, st') => st'
  | None => st
  end.

(** [new IndexSearch().add(d1).add(d2)...] *)
Definition index_of (ds : list Doc) : IndexSearch :=
  fold_left after_add ds empty_index.

(** The statement of section 4.4 step 4 read with the recorded length
    as it is, a recorded length of zero included. *)
Definition tf_uses_recorded_length : Prop :=
  forall st i d token w n,
    reachable stem st -> docs st !! i = Some d ->
    docLengths st !! i = Some n -> weightedTf d token = Some w ->
    calculateBM25Score d token i st
    = Some ((ln (Q2R (idf_arg (nDocs_of st) (df_of st token)))
             * Q2R (tf_component w n (avgLen_of st)))%R, st).

(** The contract of section 4.5 with ties listed by position in the
    index. *)
Definition ranked_with_ties_by_position : Prop :=
  forall st query k results st',
    reachable stem st -> (0 <= k)%Z ->
    search stem query k st = Some (results, st') ->
    length results <= Z.to_nat k /\ descending results
    /\ ties_by_position st results.

End Building.

(** ** Documents used in the examples *)

Module Examples.

Definition doc_rpc : Doc :=
  {| uri := "https://example.org/rpc"; displayTitle := "RPC";
     content := "rpc"; indexTitle := "" |}.

Definition doc_json : Doc :=
  {| uri := "https://example.org/json"; displayTitle := "JSON";
     content := "json"; indexTitle := "" |}.

(** a document whose only word is a stop word: no token is indexed *)
Definition doc_the : Doc :=
  {| uri := "https://example.org/the"; displayTitle := "The";
     content := "the"; indexTitle := "" |}.

Definition doc_tools : Doc :=
  {| uri := "https://modelcontextprotocol.io/docs/tools"; displayTitle := "Tools";
     content := "# Tools" +:+ String newline (String newline
                "Tools allow servers to expose executable functions.");
     indexTitle := "Tools MCP" |}.

Definition two_docs : IndexSearch := index_of PorterStemmer.stem [doc_rpc; doc_json].

Definition one_empty : IndexSearch := index_of PorterStemmer.stem [doc_the].

Definition tools_index : IndexSearch :=
  index_of PorterStemmer.stem [doc_tools; doc_rpc; doc_tools].

End Examples.

(** * The rest of the code

    ** The rest of IndexSearch *)

Module Accessors.

(** [getDocs()] *)
Definition getDocs : M (list Doc) := gets docs.

(** [get size()] *)
Definition size : M nat := gets (fun st => length (docs st)).

End Accessors.

(** how often [tok] is in the list [toks] *)
Definition occurrences_in (tok : string) (toks : list string) : nat :=
  length (List.filter (String.eqb tok) toks).

(** every character of [s] satisfies [p] *)
Fixpoint all_chars (p : ascii -> bool) (s : string) : bool :=
  match s with
  | EmptyString => true
  | String c s' => p c && all_chars p s'
  end.

Section PostingLists.

Variable stem : string -> string.

(** the posting list of [tok] for the documents [ds], the first of them at
    position [i]: every position, in ascending order, as often as its
    document has the token *)
Fixpoint postings_from (tok : string) (i : nat) (ds : list Doc) : list nat :=
  match ds with
  | [] => []
  | d :: ds' =>
      repeat i (occurrences_in tok (allTokens stem d)) ++ postings_from tok (S i) ds'
  end.

(** the document at position [i] has one of the tokens of the query *)
Definition matches (st : IndexSearch) (query : string) (i : nat) : Prop :=
  exists d qt,
    docs st !! i = Some d /\ In qt (query_tokens stem query)
    /\ In qt (allTokens stem d).

End PostingLists.

(** no character of [s] is in [[A-Z]] *)
Definition no_upper (s : string) : bool := all_chars (fun c => negb (is_upper c)) s.

Section PlainTokenizer.

Variable stem : string -> string.

(** [tokenize_part] without its CamelCase branch (lines 76-96) *)
Definition tokenize_part_plain (tokens : list string) (part : string) : list string :=
  let partLower := toLowerCase part in
  if is_empty partLower || has STOP_WORDS partLower then tokens
  else if has PRESERVE_TERMS partLower then tokens ++ [partLower]
  else
    let stemmed := stem partLower in
    if negb (has STOP_WORDS stemmed) then tokens ++ [stemmed] else tokens.

(** [tokenize_match] and [tokenize] over [tokenize_part_plain] *)
Definition tokenize_match_plain (tokens : list string) (token : string) : list string :=
  let parts := if contains_char "-" token then split_char "-" token else [token] in
  fold_left tokenize_part_plain parts tokens.

Definition tokenize_plain (text : string) : list string :=
  fold_left tokenize_match_plain (match_all TOKEN_RE text) [].

End PlainTokenizer.

(** the maximal runs of [[A-Za-z0-9_]] characters of [s] *)
Fixpoint word_runs (s : string) : list string :=
  match s with
  | EmptyString => []
  | String c s' =>
      if is_word c then
        match s' with
        | EmptyString => [String c EmptyString]
        | String d _ =>
            if is_word d then
              match word_runs s' with
              | w :: ws => String c w :: ws
              | [] => [String c EmptyString]
              end
            else String c EmptyString :: word_runs s'
        end
      else word_runs s'
  end.

(** [token.includes("-") ? token.split("-") : [token]] (line 62) *)
Definition parts_of (token : string) : list string :=
  if contains_char "-" token then split_char "-" token else [token].

(** [match[1] || match[0]] is group 1, which is not empty *)
Definition takes_group (m : RegExpMatch) : Prop :=
  exists g, m1 m = Some g /\ g <> EmptyString /\ capture_or_whole m = g.

(** [match[1]] is empty and [match[1] || match[0]] is the whole match: a
    code fence with nothing between the line of the opening fence and the
    closing fence *)
Definition takes_whole_fence (m : RegExpMatch) : Prop :=
  m1 m = Some EmptyString /\ capture_or_whole m = m0 m
  /\ exists lang, m0 m = fence +:+ lang +:+ String newline fence.

(** ** What [search] adds up *)

(** [scores.get(idx) || 0] *)
Definition acc_value (scores : list (nat * R)) (idx : nat) : R :=
  default 0%R (scores_get scores idx).

(** the sum of a list of reals *)
Definition Rsum (l : list R) : R := fold_right Rplus 0%R l.

(** what [calculateBM25Score] returns for the document at position [idx]
    and the token [qt] *)
Definition score_of (st : IndexSearch) (qt : string) (idx : nat) : R :=
  match docs st !! idx with
  | Some d =>
      match calculateBM25Score d qt idx st with
      | Some (v, _) => v
      | None => 0%R
      end
  | None => 0%R
  end.

Section TotalScore.

Variable stem : string -> string.

(** the sum, over the tokens of the query, of the token's score for the
    document at position [idx], counted once for each time the position
    is in the token's posting list *)
Definition total_score (st : IndexSearch) (query : string) (idx : nat) : R :=
  Rsum (map (fun qt => (INR (count_occ Nat.eq_dec (postings st qt) idx)
                        * score_of st qt idx)%R)
          (query_tokens stem query)).

End TotalScore.

(** ** url-validator.ts *)

Module UrlValidator.

Definition ALLOWED_DOMAINS : list string := ["https://modelcontextprotocol.io/"].

(** the exception of [validateUrl], with its message *)
Record URLValidationError := { message : string }.

(** [isUrlAllowed(url)]; [!url] holds of the empty string *)
Definition isUrlAllowed (url : string) : bool :=
  if is_empty url then false
  else existsb (fun prefix => starts_with prefix url) ALLOWED_DOMAINS.

(** [validateUrl(url)]: [inl] for the exception thrown *)
Definition validateUrl (url : string) : URLValidationError + string :=
  let processedUrl :=
    if negb (starts_with "http://" url) && negb (starts_with "https://" url)
    then "https://modelcontextprotocol.io"
         +:+ (if starts_with "/" url then "" else "/") +:+ url
    else url in
  if negb (isUrlAllowed processedUrl)
  then inl {| message := "URL not allowed: " +:+ url +:+ ". Allowed domains: "
                         +:+ join ", " ALLOWED_DOMAINS |}
  else inr processedUrl.

(** [validateUrls(urls)]: [urls.map(validateUrl)], which the first
    exception ends *)
Fixpoint validateUrls (urls : list string) : URLValidationError + list string :=
  match urls with
  | [] => inr []
  | url :: rest =>
      match validateUrl url with
      | inl e => inl e
      | inr u =>
          match validateUrls rest with
          | inl e => inl e
          | inr us => inr (u :: us)
          end
      end
  end.

(** the URL names a scheme the validator knows *)
Definition is_absolute (url : string) : bool :=
  starts_with "http://" url || starts_with "https://" url.

End UrlValidator.

(** ** String methods that trim

    White space is what [\s] matches, on code units below 256. *)

(** [String.prototype.trimStart] *)
Fixpoint trimStart (s : string) : string :=
  match s with
  | EmptyString => EmptyString
  | String c s' => if is_space c then trimStart s' else s
  end.

(** [String.prototype.trimEnd] *)
Fixpoint trimEnd (s : string) : string :=
  match s with
  | EmptyString => EmptyString
  | String c s' =>
      match trimEnd s' with
      | EmptyString => if is_space c then EmptyString else String c EmptyString
      | t => String c t
      end
  end.

(** [String.prototype.trim] *)
Definition trim (s : string) : string := trimEnd (trimStart s).

(** ** text-processor.ts *)

Module TextProcessor.

(** [s.replace(WHITESPACE_RE, " ")] with [WHITESPACE_RE = /\s+/g]: every
    maximal run of white space becomes one space.  [in_run] says that the
    character before was white space. *)
Fixpoint collapse (in_run : bool) (s : string) : string :=
  match s with
  | EmptyString => EmptyString
  | String c s' =>
      if is_space c then
        if in_run then collapse true s' else String " " (collapse true s')
      else String c (collapse false s')
  end.

(** [normalize(s)] *)
Definition normalize (s : string) : string := trim (collapse false s).

(** the words of [s]: its maximal runs of characters that are not white
    space *)
Fixpoint words (s : string) : list string :=
  match s with
  | EmptyString => []
  | String c s' =>
      if is_space c then words s'
      else
        match s' with
        | EmptyString => [String c EmptyString]
        | String d _ =>
            if is_space d then String c EmptyString :: words s'
            else
              match words s' with
              | w :: ws => String c w :: ws
              | [] => [String c EmptyString]
              end
        end
  end.

(** a non-empty string without white space *)
Definition is_word_of (w : string) : Prop :=
  w <> EmptyString /\ all_chars (fun c => negb (is_space c)) w = true.

(** [s.includes(t)] *)
Definition includes_str (s t : string) : bool :=
  match index_from t s 0 with
  | Some _ => true
  | None => false
  end.

(** [s.split(sep)[1]] for a non-empty [sep]: what is between the first
    occurrence of [sep] and the next one; [None] for [undefined] *)
Definition split_second (sep s : string) : option string :=
  match index_from sep s 0 with
  | Some p =>
      let rest := drop (p + String.length sep) s in
      Some (match index_from sep rest 0 with
            | Some q => take q rest
            | None => rest
            end)
  | None => None
  end.

(** [slug.replace(/[-_]/g, " ")] *)
Fixpoint dashes_to_spaces (s : string) : string :=
  match s with
  | EmptyString => EmptyString
  | String c s' =>
      String (if Ascii.eqb c "-" || Ascii.eqb c "_" then " "%char else c)
        (dashes_to_spaces s')
  end.

(** [base.replace(/(\w)2(\w)/gi, "$1 to $2")]: the search goes on after
    the three characters of a match *)
Fixpoint two_to_word (s : string) : string :=
  match s with
  | EmptyString => EmptyString
  | String c s' =>
      match s' with
      | String "2" (String d rest) =>
          if is_word c && is_word d
          then String c (" to " +:+ String d (two_to_word rest))
          else String c (two_to_word s')
      | _ => String c (two_to_word s')
      end
  end.

Section Titles.

(** [String.prototype.toUpperCase] does not stay below code unit 256
    (it maps one letter above it and another to two letters): the title
    functions are parametric in it. *)
Variable toUpperCase : string -> string.

(** [word.charAt(0).toUpperCase() + word.slice(1)] *)
Definition capitalize (word : string) : string :=
  match word with
  | EmptyString => toUpperCase EmptyString +:+ EmptyString
  | String c rest => toUpperCase (String c EmptyString) +:+ rest
  end.

(** [titleFromUrl(url)] *)
Definition titleFromUrl (url : string) : string :=
  let path :=
    if includes_str url "://" then default url (split_second "://" url) else url in
  let parts := List.filter (fun p => negb (is_empty p)) (split_char "/" path) in
  let parts :=
    match last parts with
    | Some l => if starts_with "index." l then removelast parts else parts
    | None => parts
    end in
  let slug :=
    match last parts with
    | Some l => if is_empty l then path else l
    | None => path
    end in
  let title := trim (dashes_to_spaces slug) in
  let titled := join " " (map capitalize (split_char " " title)) in
  if is_empty titled then "Documentation" else titled.

(** body of the loop over [[base, variant, slug]] (lines 80-85) *)
Definition variant_step (variants : list string) (v : string) : list string :=
  let normalized := normalize v in
  if negb (is_empty normalized)
     && negb (existsb (fun x => String.eqb (toLowerCase x) (toLowerCase normalized))
                variants)
  then variants ++ [normalized]
  else variants.

(** the array [variants] of [indexTitleVariants] when its loop ends *)
Definition title_variants (displayTitle url : string) : list string :=
  let base := displayTitle in
  let slug := titleFromUrl url in
  let variant := two_to_word base in
  fold_left variant_step [base; variant; slug] [].

(** [indexTitleVariants(displayTitle, url)] *)
Definition indexTitleVariants (displayTitle url : string) : string :=
  join " " (title_variants displayTitle url).

End Titles.

(** the invariant of the loop of [indexTitleVariants]: the variants kept
    are non-empty and normalized, and differ two by two when case is
    ignored *)
Definition kept (vs : list string) : Prop :=
  List.Forall (fun v => v <> EmptyString /\ normalize v = v) vs
  /\ NoDup (toLowerCase <$> vs).

End TextProcessor.

(** ** doc-fetcher.ts: the links of llms.txt *)

Module DocFetcher.

(** a match of [MD_LINK_RE], with its two groups *)
Record LinkMatch := { whole : string; group1 : string; group2 : string }.

(** [MD_LINK_RE = /\[([^\]]+)\]\(([^)]+)\)/g] at the start of [s]: the
    expression of [MD_LINK_TEXT_RE], with the target captured as well *)
Definition MD_LINK_RE (s : string) : option LinkMatch :=
  match s with
  | String "[" r =>
      let '(g1, r2) := span (fun c => negb (Ascii.eqb c "]")) r in
      match g1, r2 with
      | String _ _, String "]" (String "(" r3) =>
          let '(g2, r4) := span (fun c => negb (Ascii.eqb c ")")) r3 in
          match g2, r4 with
          | String _ _, String ")" _ =>
              Some {| whole := String "[" (g1 +:+ "](" +:+ g2 +:+ ")");
                      group1 := g1; group2 := g2 |}
          | _, _ => None
          end
      | _, _ => None
      end
  | _ => None
  end.

(** the matches that [while ((match = MD_LINK_RE.exec(txt)) !== null)]
    goes through, as [scan] finds them: [skip] counts the characters of
    the previous match still to pass *)
Fixpoint exec_all (s : string) (skip : nat) : list LinkMatch :=
  match skip with
  | S k =>
      match s with
      | EmptyString => []
      | String _ s' => exec_all s' k
      end
  | O =>
      match MD_LINK_RE s with
      | Some m =>
          m :: match s with
               | EmptyString => []
               | String _ s' => exec_all s' (String.length (whole m) - 1)
               end
      | None =>
          match s with
          | EmptyString => []
          | String _ s' => exec_all s' 0
          end
      end
  end.

(** body of the loop of [parseLlmsTxt] (lines 62-70): the link is pushed
    unless [validateUrl] throws *)
Definition parse_step (links : list (string * string)) (m : LinkMatch)
  : list (string * string) :=
  let title := if is_empty (trim (group1 m)) then trim (group2 m)
               else trim (group1 m) in
  let docUrl := trim (group2 m) in
  match UrlValidator.validateUrl docUrl with
  | inr validated => links ++ [(title, validated)]
  | inl _ => links
  end.

(** [parseLlmsTxt(url)], once [fetchUrl(url)] has given the text [txt] *)
Definition parseLlmsTxt (txt : string) : list (string * string) :=
  fold_left parse_step (exec_all txt 0) [].

(** the interface [Page] *)
Record Page := { url : string; title : string; content : string }.

End DocFetcher.

(** ** cache.ts

    The variables of the module are the fields of [State]; a function of
    the module is a function of the state, for one call at a time.  What
    [fetchUrl] resolves to is an argument. *)

Module Cache.

Record State := {
  index : option IndexSearch;
  urlCache : gmap string (option DocFetcher.Page);
  urlTitles : gmap string string;
  linksLoaded : bool
}.


(** how a promise settles *)
Inductive Outcome := Resolved | Rejected.

Section Loading.

Variable stem : string -> string.
Variable toUpperCase : string -> string.

(** the document that [loadLinksOnly] indexes for a link (lines 39-49) *)
Definition link_doc (link : string * string) : Doc :=
  let '(title, url) := link in
  let displayTitle' := TextProcessor.normalize title in
  let indexTitle' := TextProcessor.indexTitleVariants toUpperCase displayTitle' url in
  {| uri := url; displayTitle := displayTitle'; content := EmptyString;
     indexTitle := indexTitle' |}.

(** body of the loop over [links] (lines 32-50); [index] is not [null]
    there *)
Definition load_link (st : State) (link : string * string) : State :=
  {| index := (fun ix => after_add stem ix (link_doc link)) <$> index st;
     urlCache := if decide (is_Some (urlCache st !! link.2)) then urlCache st
                 else <[link.2 := None]> (urlCache st);
     urlTitles := <[link.2 := link.1]> (urlTitles st);
     linksLoaded := linksLoaded st |}.

(** [loadLinksOnly()]; [fetched] is the text that
    [fetchUrl(LLMS_TXT_URL)] resolves to, [None] when it rejects *)
Definition loadLinksOnly (fetched : option string) (st : State) : Outcome * State :=
  let st1 :=
    match index st with
    | None => {| index := Some empty_index; urlCache := urlCache st;
                 urlTitles := urlTitles st; linksLoaded := linksLoaded st |}
    | Some _ => st
    end in
  match fetched with
  | None => (Rejected, st1)
  | Some txt =>
      let links := DocFetcher.parseLlmsTxt txt in
      let st2 := fold_left load_link links st1 in
      (Resolved, {| index := index st2; urlCache := urlCache st2;
                    urlTitles := urlTitles st2; linksLoaded := true |})
  end.


End Loading.


End Cache.

(** ** Sanity checks of the embedding on concrete inputs *)

Example header_ex :
  extractMatches ("# Tools" +:+ String newline ("## Sub  x" +:+ String newline "text"))
    MD_HEADER_RE = "Tools Sub  x".
Proof. reflexivity. Qed.

Example header_ws_only : extractMatches "#   " MD_HEADER_RE = " ".
Proof. reflexivity. Qed.

Example code_ex :
  extractMatches ("a ```ts" +:+ String newline ("x = 1" +:+ String newline "``` b"))
    MD_CODE_BLOCK_RE = "x = 1" +:+ String newline "".
Proof. reflexivity. Qed.

Example link_ex :
  extractMatches "see [the docs](http://x) and [b](c)" MD_LINK_TEXT_RE = "the docs b".
Proof. reflexivity. Qed.

Example token_ex :
  match_all TOKEN_RE "json-rpc, version_2 a- -b" = ["json-rpc"; "version_2"; "a"; "b"].
Proof. reflexivity. Qed.

Example tokenize_without_stemming :
  tokenize (fun s => s) "The MCP json-rpc FastMCP fooBar"
  = ["mcp"; "json"; "rpc"; "fast"; "mcp"; "fastmcp"; "foo"; "bar"; "foobar"].
Proof. vm_compute. reflexivity. Qed.

Example porter_examples :
  map PorterStemmer.stem
    ["running"; "functions"; "calculations"; "calculate"; "streaming"; "tools";
     "servers"; "communication"; "caresses"; "ponies"; "agreed"; "feed";
     "plastered"; "hopping"; "filing"; "happy"; "sky"; "relational";
     "electrical"; "adjustment"; "adoption"; "probate"; "rate"; "cease";
     "controll"; "roll"; "foobar"; "b_c"; "is"; "conflated"; "sized"; "falling"]
  = ["run"; "function"; "calcul"; "calcul"; "stream"; "tool";
     "server"; "commun"; "caress"; "poni"; "agre"; "feed";
     "plaster"; "hop"; "file"; "happi"; "sky"; "relat";
     "electr"; "adjust"; "adopt"; "probat"; "rate"; "ceas";
     "control"; "roll"; "foobar"; "b_c"; "is"; "conflat"; "size"; "fall"].
Proof. vm_compute. reflexivity. Qed.

(** the cases of tests/tokenizer.test.ts *)
Example tokenizer_tests :
  map (tokenize PorterStemmer.stem)
    ["hello world"; "the quick brown fox"; "mcp json rpc stdio http"; "running";
     "FastMCP"; "json-rpc"; "The MCP protocol uses stdio transport"; "";
     "version_2 test123"; "the and or"]
  = [ ["hello"; "world"]; ["quick"; "brown"; "fox"];
      ["mcp"; "json"; "rpc"; "stdio"; "http"]; ["run"];
      ["fast"; "mcp"; "fastmcp"]; ["json"; "rpc"];
      ["mcp"; "protocol"; "us"; "stdio"; "transport"]; [];
      ["version_2"; "test123"]; [] ].
Proof. vm_compute. reflexivity. Qed.

Example code_block_empty_capture :
  extractMatches ("```js" +:+ String newline "```") MD_CODE_BLOCK_RE
  = "```js" +:+ String newline "```".
Proof. reflexivity. Qed.

Example inline_code_ex :
  extractMatches "use `add` and ``x`` or `unclosed" MD_INLINE_CODE_RE = "add x  or ".
Proof. reflexivity. Qed.

Example header_seven_hashes : extractMatches "####### no" MD_HEADER_RE = "".
Proof. reflexivity. Qed.

Example count_examples :
  (countOccurrences "aaaa" "aa", countOccurrences "Tools and TOOLS" "tool",
   countOccurrences "abc" "", countOccurrences "" "x")
  = (Some 2, Some 2, None, Some 0).
Proof. vm_compute. reflexivity. Qed.

Example index_size :
  length (docs Examples.tools_index) = 3
  /\ docLengths Examples.tools_index = [19; 1; 19].
Proof. vm_compute. auto. Qed.

(** ** No regular expression of the module matches the empty string *)

Lemma TOKEN_RE_never_empty : never_empty TOKEN_RE.
Proof.
  intros prev s m. simpl. destruct s as [|c s]; [discriminate|].
  destruct (is_word c); [|discriminate]. intros [= <-]. discriminate.
Qed.

Lemma MD_HEADER_RE_never_empty : never_empty MD_HEADER_RE.
Proof.
  intros prev s m. unfold MD_HEADER_RE. cbn [match_at].
  destruct (at_line_start prev); [|discriminate].
  destruct (span (Ascii.eqb "#") s) as [hs r].
  destruct hs as [|h hs]; [discriminate|].
  destruct (_ && _); [|discriminate].
  destruct (span is_space r) as [w r2].
  destruct w as [|w0 wt]; [discriminate|].
  destruct (span _ r2) as [d r3].
  destruct d.
  - destruct (last_non_lt wt) as [[pre x]|]; [|discriminate].
    intros [= <-]. discriminate.
  - intros [= <-]. discriminate.
Qed.

Lemma MD_CODE_BLOCK_RE_never_empty : never_empty MD_CODE_BLOCK_RE.
Proof.
  intros prev s m. unfold MD_CODE_BLOCK_RE. cbn [match_at].
  destruct (starts_with fence s); [|discriminate].
  destruct (span is_word (drop 3 s)) as [lang r].
  destruct r as [|c body]; [discriminate|].
  destruct (Ascii.eqb c newline); [|discriminate].
  destruct (before_first fence body); [|discriminate].
  intros [= <-]. discriminate.
Qed.

Lemma MD_INLINE_CODE_RE_never_empty : never_empty MD_INLINE_CODE_RE.
Proof.
  intros prev s m H. unfold MD_INLINE_CODE_RE in H. cbn [match_at] in H.
  destruct s as [|c r]; [discriminate|].
  destruct (span (fun c0 => negb (Ascii.eqb c0 "`")) r) as [cap r2] eqn:E.
  repeat match type of H with
         | match ?x with _ => _ end = _ => destruct x; try discriminate
         end.
  injection H as <-. discriminate.
Qed.

Lemma MD_LINK_TEXT_RE_never_empty : never_empty MD_LINK_TEXT_RE.
Proof.
  intros prev s m H. unfold MD_LINK_TEXT_RE in H. cbn [match_at] in H.
  destruct s as [|c r]; [discriminate|].
  destruct (span (fun c0 => negb (Ascii.eqb c0 "]")) r) as [cap r2] eqn:E.
  repeat match type of H with
         | match ?x with _ => _ end = _ => destruct x; try discriminate
         | (let '(_, _) := ?x in _) = _ => destruct x
         end.
  injection H as <-. discriminate.
Qed.

(** ** Strings *)

Lemma is_empty_true s : is_empty s = true <-> s = EmptyString.
Proof. destruct s; simpl; split; congruence. Qed.

Lemma is_empty_false s : is_empty s = false <-> s <> EmptyString.
Proof. destruct s; simpl; split; congruence. Qed.

Lemma includes_In l x : includes l x = true <-> In x l.
Proof.
  unfold includes. rewrite existsb_exists. split.
  - intros (y & Hy & He). apply String.eqb_eq in He. now subst.
  - intros H. exists x. split; [assumption | apply String.eqb_refl].
Qed.

Lemma includes_app l1 l2 x : includes (l1 ++ l2) x = includes l1 x || includes l2 x.
Proof. unfold includes. apply existsb_app. Qed.

Lemma append_nil_r (s : string) : s +:+ "" = s.
Proof. induction s; simpl; congruence. Qed.

Lemma append_assoc (a b c : string) : (a +:+ b) +:+ c = a +:+ (b +:+ c).
Proof. induction a; simpl; congruence. Qed.

Lemma length_append (a b : string) :
  String.length (a +:+ b) = String.length a + String.length b.
Proof. induction a; simpl; congruence. Qed.

Lemma contains_char_append x (a b : string) :
  contains_char x (a +:+ b) = contains_char x a || contains_char x b.
Proof. induction a; simpl; [reflexivity|]. rewrite IHa. apply orb_assoc. Qed.

Lemma take_drop n s : take n s +:+ drop n s = s.
Proof.
  revert s. induction n; intros s; simpl; [reflexivity|].
  destruct s; simpl; [reflexivity|]. now rewrite IHn.
Qed.

Lemma length_drop n s : String.length (drop n s) = String.length s - n.
Proof.
  revert s. induction n; intros s; simpl; [lia|].
  destruct s; simpl; [reflexivity | apply IHn].
Qed.

Lemma strip_suffix_Some suf s st : strip_suffix suf s = Some st -> s = st +:+ suf.
Proof.
  unfold strip_suffix. intros H.
  destruct (String.length suf <=? String.length s) eqn:Hl; simpl in H; [|discriminate].
  destruct (String.eqb _ suf) eqn:He; [|discriminate].
  apply String.eqb_eq in He. injection H as <-.
  rewrite <- He at 2. symmetry. apply take_drop.
Qed.

(** ** The tokenizer only appends *)

Section TokenizerFacts.

Variable stem : string -> string.

Lemma camel_step_app tokens p :
  camel_step stem tokens p = tokens ++ camel_step stem [] p.
Proof.
  unfold camel_step.
  repeat match goal with |- context [if ?b then _ else _] => destruct b end;
    simpl; now rewrite ?app_nil_r.
Qed.

Lemma fold_camel_step_app ps tokens :
  fold_left (camel_step stem) ps tokens
  = tokens ++ fold_left (camel_step stem) ps [].
Proof.
  revert tokens. induction ps as [|p ps IH]; intros tokens; simpl.
  - now rewrite app_nil_r.
  - rewrite IH, (IH (camel_step stem [] p)), camel_step_app.
    now rewrite app_assoc.
Qed.

(** what the camel-case branch of [tokenize_part] returns *)
Lemma tokenize_part_camel tokens part :
  camel_part part ->
  tokenize_part stem tokens part
  = let own := camel_tokens stem part in
    let stemmedOriginal := stem (toLowerCase part) in
    if negb (has STOP_WORDS stemmedOriginal)
       && negb (includes (tokens ++ own) stemmedOriginal)
    then tokens ++ own ++ [stemmedOriginal]
    else tokens ++ own.
Proof.
  intros (He & Hs & Hp & Hc). unfold tokenize_part, camel_tokens.
  rewrite He, Hs, Hp, Hc. simpl.
  rewrite fold_camel_step_app.
  match goal with |- context [if ?b then _ else _] => destruct b end;
    [now rewrite app_assoc | reflexivity].
Qed.

(** ** Properties of all emitted tokens *)

Section Emitted.

(** [P] holds of every lower-cased word the tokenizer looks at and is
    kept by the stemmer *)
Variable P : string -> Prop.
Hypothesis P_stem : forall s, s <> EmptyString -> P s -> P (stem s).

Lemma camel_step_Forall tokens p :
  lower_ok P p -> Forall P tokens -> Forall P (camel_step stem tokens p).
Proof.
  intros Hp Ht. unfold camel_step.
  destruct (is_empty (toLowerCase p)) eqn:He; simpl; [assumption|].
  apply is_empty_false in He. specialize (Hp He).
  destruct (has STOP_WORDS (toLowerCase p)); simpl; [assumption|].
  destruct (has PRESERVE_TERMS (toLowerCase p)).
  - apply Forall_app. split; [assumption | repeat constructor; assumption].
  - destruct (has STOP_WORDS (stem (toLowerCase p))); simpl; [assumption|].
    apply Forall_app. split; [assumption | repeat constructor; auto].
Qed.

Lemma fold_camel_step_Forall ps tokens :
  Forall (lower_ok P) ps -> Forall P tokens ->
  Forall P (fold_left (camel_step stem) ps tokens).
Proof.
  revert tokens. induction ps as [|p ps IH]; intros tokens Hps Ht; simpl.
  - assumption.
  - inversion Hps; subst. apply IH; [assumption|].
    now apply camel_step_Forall.
Qed.

Lemma tokenize_part_Forall tokens part :
  part_ok P part -> Forall P tokens -> Forall P (tokenize_part stem tokens part).
Proof.
  intros [Hp Hc] Ht. unfold tokenize_part.
  destruct (is_empty (toLowerCase part)) eqn:He; simpl; [assumption|].
  apply is_empty_false in He. specialize (Hp He).
  destruct (has STOP_WORDS (toLowerCase part)); [assumption|].
  destruct (has PRESERVE_TERMS (toLowerCase part)).
  { apply Forall_app. split; [assumption | repeat constructor; assumption]. }
  destruct (test_camel part).
  - match goal with |- context [if ?b then _ else _] => destruct b end.
    + apply Forall_app. split.
      * now apply fold_camel_step_Forall.
      * repeat constructor. auto.
    + now apply fold_camel_step_Forall.
  - match goal with |- context [if ?b then _ else _] => destruct b end;
      [|assumption].
    apply Forall_app. split; [assumption | repeat constructor; auto].
Qed.

Lemma fold_tokenize_part_Forall parts tokens :
  Forall (part_ok P) parts -> Forall P tokens ->
  Forall P (fold_left (tokenize_part stem) parts tokens).
Proof.
  revert tokens. induction parts as [|p ps IH]; intros tokens Hps Ht; simpl.
  - assumption.
  - inversion Hps; subst. apply IH; [assumption|].
    now apply tokenize_part_Forall.
Qed.

Lemma tokenize_match_Forall tokens token :
  match_ok P token -> Forall P tokens -> Forall P (tokenize_match stem tokens token).
Proof.
  intros [H1 H2] Ht. unfold tokenize_match.
  destruct (contains_char "-" token).
  - now apply fold_tokenize_part_Forall.
  - apply fold_tokenize_part_Forall; [|assumption].
    constructor; [assumption | constructor].
Qed.

Lemma tokenize_Forall text :
  Forall (match_ok P) (match_all TOKEN_RE text) -> Forall P (tokenize stem text).
Proof.
  unfold tokenize. generalize (match_all TOKEN_RE text).
  assert (G : forall ms tokens, Forall (match_ok P) ms -> Forall P tokens ->
              Forall P (fold_left (tokenize_match stem) ms tokens)).
  { induction ms as [|m ms IH]; intros tokens Hms Ht; simpl; [assumption|].
    inversion Hms; subst. apply IH; [assumption|].
    now apply tokenize_match_Forall. }
  intros ms Hms. apply G; [assumption | constructor].
Qed.

End Emitted.

(** every token is a non-empty string when stems are *)
Lemma tokenize_nonempty text :
  (forall s, s <> EmptyString -> stem s <> EmptyString) ->
  Forall (fun tok => tok <> EmptyString) (tokenize stem text).
Proof.
  intros Hstem. apply tokenize_Forall.
  - intros s Hs _. now apply Hstem.
  - assert (L : forall w, lower_ok (fun tok => tok <> EmptyString) w)
      by (intros w Hw; exact Hw).
    assert (Pk : forall w, part_ok (fun tok => tok <> EmptyString) w).
    { intros w. split; [apply L | apply Forall_forall; intros; apply L]. }
    apply Forall_forall. intros m _. split; [apply Pk|].
    apply Forall_forall. intros; apply Pk.
Qed.

End TokenizerFacts.

(** ** The separator of bigrams *)

Lemma lower_char_sep c : Ascii.eqb (lower_char c) "_" = Ascii.eqb c "_".
Proof.
  destruct c as [[] [] [] [] [] [] [] []]; vm_compute; reflexivity.
Qed.

Lemma no_sep_toLowerCase s : no_sep s -> no_sep (toLowerCase s).
Proof.
  unfold no_sep. induction s as [|c s IH]; simpl; [trivial|].
  rewrite lower_char_sep. intros H. apply orb_false_iff in H as [-> H].
  simpl. auto.
Qed.

Lemma no_sep_String c s : no_sep (String c s) <-> Ascii.eqb c "_" = false /\ no_sep s.
Proof. unfold no_sep. simpl. apply orb_false_iff. Qed.

Lemma no_sep_token_rest s : no_sep s -> no_sep (token_rest s).
Proof.
  induction s as [|c s IH]; simpl; [trivial|].
  intros H. apply no_sep_String in H as [Hc Hs].
  destruct (is_word c).
  - apply no_sep_String. auto.
  - destruct (Ascii.eqb c "-"); [|reflexivity].
    destruct s as [|d s']; [reflexivity|].
    destruct (is_word d); [|reflexivity].
    apply no_sep_String. auto.
Qed.

Lemma no_sep_scan_token prev s skip :
  no_sep s -> Forall (fun m => no_sep (m0 m)) (scan TOKEN_RE prev s skip).
Proof.
  revert prev skip. induction s as [|c s IH]; intros prev skip H.
  - destruct skip; simpl; constructor.
  - pose proof H as H'. apply no_sep_String in H' as [Hc Hs].
    destruct skip; simpl.
    + destruct (is_word c).
      * constructor; [|now apply IH]. simpl.
        apply no_sep_String. split; [assumption | now apply no_sep_token_rest].
      * now apply IH.
    + now apply IH.
Qed.

Lemma no_sep_split_char sep s :
  no_sep s -> Forall no_sep (split_char sep s).
Proof.
  induction s as [|c s IH]; simpl; intros H.
  - repeat constructor.
  - apply no_sep_String in H as [Hc Hs]. specialize (IH Hs).
    destruct (Ascii.eqb c sep).
    + constructor; [reflexivity | assumption].
    + assert (Hone : no_sep (String c ""))
        by (apply no_sep_String; split; [assumption | reflexivity]).
      destruct (split_char sep s) as [|p ps]; [constructor; [exact Hone | constructor]|].
      inversion IH; subst. constructor; [|assumption].
      apply no_sep_String. auto.
Qed.

Lemma no_sep_split_camel s : no_sep s -> Forall no_sep (split_camel s).
Proof.
  induction s as [|c s IH]; intros H.
  - repeat constructor.
  - apply no_sep_String in H as [Hc Hs]. specialize (IH Hs).
    assert (Hone : no_sep (String c ""))
      by (apply no_sep_String; split; [assumption | reflexivity]).
    simpl. destruct s as [|d s'].
    + repeat constructor; assumption.
    + destruct (is_lower c && is_upper d).
      * constructor; assumption.
      * destruct (split_camel (String d s')) as [|p ps];
          [repeat constructor; assumption|].
        inversion IH; subst. constructor; [|assumption].
        apply no_sep_String. auto.
Qed.

Lemma generateBigrams_sep tokens b :
  In b (generateBigrams tokens) -> contains_char "_" b = true.
Proof.
  revert b. induction tokens as [|a tokens IH]; intros b; simpl; [tauto|].
  destruct tokens as [|c tokens]; [simpl; tauto|].
  intros [<- | H]; [|now apply IH].
  rewrite contains_char_append. simpl. apply orb_true_r.
Qed.

Lemma generateBigrams_nonempty tokens :
  Forall (fun tok => tok <> EmptyString) (generateBigrams tokens).
Proof.
  apply Forall_forall. intros b Hb%list_elem_of_In%generateBigrams_sep.
  intros ->. discriminate.
Qed.

(** ** The stemmer keeps words non-empty and adds no separator *)

Lemma length_take n s : String.length (take n s) = Nat.min n (String.length s).
Proof.
  revert s. induction n; intros s; simpl; [reflexivity|].
  destruct s; simpl; [reflexivity | now rewrite IHn].
Qed.

Lemma nonempty_length s : s <> EmptyString <-> 0 < String.length s.
Proof. destruct s; simpl; split; intros; try congruence; lia. Qed.

Lemma no_sep_append a b : no_sep (a +:+ b) <-> no_sep a /\ no_sep b.
Proof. unfold no_sep. rewrite contains_char_append. apply orb_false_iff. Qed.

Lemma no_sep_take n s : no_sep s -> no_sep (take n s).
Proof.
  intros H. rewrite <- (take_drop n s) in H. now apply no_sep_append in H.
Qed.

Module PorterFacts.
Import PorterStemmer PorterTables.

Lemma apply_rules_inv rules s :
  snd (apply_rules rules s) = s
  \/ exists r st, In r rules /\ s = st +:+ suffix r /\ cond r st = true
                  /\ apply_rules rules s = (true, st +:+ repl r).
Proof.
  induction rules as [|r rules IH]; simpl; [now left|].
  destruct (strip_suffix (suffix r) s) as [st|] eqn:Hs.
  - destruct (cond r st) eqn:Hc; [|now left].
    right. exists r, st. apply strip_suffix_Some in Hs. auto.
  - destruct IH as [IH | (r' & st & Hin & ? & ? & ?)]; [now left|].
    right. exists r', st. auto.
Qed.

Lemma apply_rules_false rules s s' : apply_rules rules s = (false, s') -> s' = s.
Proof.
  induction rules as [|r rules IH]; simpl; [congruence|].
  destruct (strip_suffix (suffix r) s); [|assumption].
  destruct (cond r s0); congruence.
Qed.

(** *** No separator is added *)

Ltac clean_table :=
  intros r Hr; simpl in Hr;
  repeat (destruct Hr as [<- | Hr]; [reflexivity|]); contradiction.

Lemma clean1a : clean rules1a. Proof. clean_table. Qed.
Lemma clean1b : clean rules1b. Proof. clean_table. Qed.
Lemma clean1b_fix : clean rules1b_fix. Proof. clean_table. Qed.
Lemma clean1c : clean rules1c. Proof. clean_table. Qed.
Lemma clean2 : clean rules2. Proof. clean_table. Qed.
Lemma clean3 : clean rules3. Proof. clean_table. Qed.
Lemma clean4 : clean rules4. Proof. clean_table. Qed.
Lemma clean5a : clean rules5a. Proof. clean_table. Qed.

Lemma apply_rules_no_sep rules s :
  clean rules -> no_sep s -> no_sep (snd (apply_rules rules s)).
Proof.
  intros Hc Hs.
  destruct (apply_rules_inv rules s) as [-> | (r & st & Hin & E & _ & ->)];
    [assumption|]. simpl.
  rewrite E in Hs. apply no_sep_append in Hs as [Hst _].
  apply no_sep_append. split; [assumption | now apply Hc].
Qed.

Lemma chop_no_sep s : no_sep s -> no_sep (chop s).
Proof. apply no_sep_take. Qed.

Lemma step1b_fix_no_sep s : no_sep s -> no_sep (step1b_fix s).
Proof.
  intros Hs. unfold step1b_fix.
  pose proof (apply_rules_no_sep rules1b_fix s clean1b_fix Hs) as H.
  destruct (apply_rules rules1b_fix s) as [[] s2]; simpl in H; [assumption|].
  repeat match goal with |- context [if ?b then _ else _] => destruct b end;
    auto using chop_no_sep.
  apply no_sep_append. split; [assumption | reflexivity].
Qed.

Lemma step1b_no_sep s : no_sep s -> no_sep (step1b s).
Proof.
  intros Hs. unfold step1b.
  destruct (strip_suffix "eed" s) as [st|] eqn:E.
  - destruct (m_gt0 st); [|assumption].
    apply strip_suffix_Some in E. rewrite E in Hs.
    apply no_sep_append in Hs as [Hst _].
    apply no_sep_append. split; [assumption | reflexivity].
  - pose proof (apply_rules_no_sep rules1b s clean1b Hs) as H.
    destruct (apply_rules rules1b s) as [[] s1]; simpl in H; [|assumption].
    now apply step1b_fix_no_sep.
Qed.

Lemma step5b_no_sep s : no_sep s -> no_sep (step5b s).
Proof.
  intros Hs. unfold step5b.
  match goal with |- context [if ?b then _ else _] => destruct b end;
    auto using chop_no_sep.
Qed.

Lemma stem_no_sep s : no_sep s -> no_sep (stem s).
Proof.
  intros Hs. unfold stem.
  destruct (String.length s <? 3); [assumption|].
  apply step5b_no_sep.
  apply apply_rules_no_sep; [exact clean5a|].
  apply apply_rules_no_sep; [exact clean4|].
  apply apply_rules_no_sep; [exact clean3|].
  apply apply_rules_no_sep; [exact clean2|].
  apply apply_rules_no_sep; [exact clean1c|].
  apply step1b_no_sep.
  apply apply_rules_no_sep; [exact clean1a | assumption].
Qed.

(** *** No word is emptied *)

Ltac careful_table :=
  intros r st Hr Hc; simpl in Hr;
  repeat (destruct Hr as [<- | Hr];
          [first [ right; discriminate
                 | left; intros ->; vm_compute in Hc; discriminate ] |]);
  contradiction.

Lemma careful1b : careful rules1b. Proof. careful_table. Qed.
Lemma careful1b_fix : careful rules1b_fix. Proof. careful_table. Qed.
Lemma careful1c : careful rules1c. Proof. careful_table. Qed.
Lemma careful2 : careful rules2. Proof. careful_table. Qed.
Lemma careful3 : careful rules3. Proof. careful_table. Qed.
Lemma careful4 : careful rules4. Proof. careful_table. Qed.
Lemma careful5a : careful rules5a. Proof. careful_table. Qed.

Lemma append_nonempty a b :
  a <> EmptyString \/ b <> EmptyString -> a +:+ b <> EmptyString.
Proof. destruct a; simpl; [tauto | discriminate]. Qed.

Lemma apply_rules_nonempty rules s :
  careful rules -> s <> EmptyString -> snd (apply_rules rules s) <> EmptyString.
Proof.
  intros Hc Hs.
  destruct (apply_rules_inv rules s) as [-> | (r & st & Hin & E & Hcond & ->)];
    [assumption|]. simpl.
  apply append_nonempty. now apply (Hc r st).
Qed.

Lemma step1a_nonempty s :
  3 <= String.length s -> snd (apply_rules rules1a s) <> EmptyString.
Proof.
  intros Hl.
  destruct (apply_rules_inv rules1a s) as [-> | (r & st & Hin & E & _ & ->)].
  - apply nonempty_length. lia.
  - simpl. apply nonempty_length. rewrite length_append.
    apply (f_equal String.length) in E. rewrite length_append in E.
    simpl in Hin.
    repeat (destruct Hin as [<- | Hin]; [simpl in *; lia|]). contradiction.
Qed.

Lemma double_consonant_length s : double_consonant s = true -> 2 <= String.length s.
Proof.
  unfold double_consonant. intros H.
  destruct (rev (pattern s)) as [|[] ?]; try discriminate.
  destruct (drop (String.length s - 2) s) as [|a [|b [|]]] eqn:E; try discriminate.
  apply (f_equal String.length) in E. rewrite length_drop in E. simpl in E. lia.
Qed.

Lemma chop_nonempty s : double_consonant s = true -> chop s <> EmptyString.
Proof.
  intros H%double_consonant_length. apply nonempty_length.
  unfold chop. rewrite length_take. lia.
Qed.

Lemma step1b_fix_nonempty s : s <> EmptyString -> step1b_fix s <> EmptyString.
Proof.
  intros Hs. unfold step1b_fix.
  pose proof (apply_rules_nonempty rules1b_fix s careful1b_fix Hs) as H.
  destruct (apply_rules rules1b_fix s) as [[] s2]; simpl in H; [assumption|].
  destruct (double_consonant s) eqn:Hd; simpl.
  - destruct (negb _); [now apply chop_nonempty|].
    destruct (_ && _); [apply append_nonempty; now left | assumption].
  - destruct (_ && _); [apply append_nonempty; now left | assumption].
Qed.

Lemma step1b_nonempty s : s <> EmptyString -> step1b s <> EmptyString.
Proof.
  intros Hs. unfold step1b.
  destruct (strip_suffix "eed" s) as [st|].
  - destruct (m_gt0 st); [|assumption].
    apply append_nonempty. right. discriminate.
  - pose proof (apply_rules_nonempty rules1b s careful1b Hs) as H.
    destruct (apply_rules rules1b s) as [[] s1]; simpl in H; [|assumption].
    now apply step1b_fix_nonempty.
Qed.

Lemma step5b_nonempty s : s <> EmptyString -> step5b s <> EmptyString.
Proof.
  intros Hs. unfold step5b.
  destruct (m_gt1 s); simpl; [|assumption].
  destruct (double_consonant s) eqn:Hd; simpl; [|assumption].
  destruct (ends_in "l" s); [now apply chop_nonempty | assumption].
Qed.

Lemma stem_nonempty s : s <> EmptyString -> stem s <> EmptyString.
Proof.
  intros Hs. unfold stem.
  destruct (String.length s <? 3) eqn:Hl; [assumption|].
  apply Nat.ltb_ge in Hl.
  apply step5b_nonempty.
  apply apply_rules_nonempty; [exact careful5a|].
  apply apply_rules_nonempty; [exact careful4|].
  apply apply_rules_nonempty; [exact careful3|].
  apply apply_rules_nonempty; [exact careful2|].
  apply apply_rules_nonempty; [exact careful1c|].
  apply step1b_nonempty.
  now apply step1a_nonempty.
Qed.

End PorterFacts.

(** ** [countOccurrences] *)

Lemma drop_drop n m s : drop n (drop m s) = drop (m + n) s.
Proof.
  revert s. induction m; intros s; simpl; [reflexivity|].
  destruct s; simpl; [now destruct n | apply IHm].
Qed.

Lemma drop_all n s : String.length s <= n -> drop n s = EmptyString.
Proof.
  revert s. induction n; intros s; destruct s; simpl; intros H;
    try reflexivity; try lia. apply IHn. lia.
Qed.

Lemma starts_with_length t s : starts_with t s = true -> String.length t <= String.length s.
Proof.
  revert s. induction t as [|a t IH]; intros s; simpl; [lia|].
  destruct s as [|b s]; [discriminate|].
  intros H%andb_true_iff. destruct H as [_ H%IH]. simpl. lia.
Qed.

Lemma index_from_shift t s i :
  index_from t s i = (fun p => p + i) <$> index_from t s 0.
Proof.
  revert i. induction s as [|c s IH]; intros i; simpl.
  - destruct (starts_with t ""); reflexivity.
  - destruct (starts_with t (String c s)); [reflexivity|].
    rewrite (IH (S i)), (IH 1).
    destruct (index_from t s 0); simpl; [f_equal; lia | reflexivity].
Qed.

Lemma index_from_bound t s p :
  index_from t s 0 = Some p -> p + String.length t <= String.length s.
Proof.
  revert p. induction s as [|c s IH]; intros p; simpl.
  - destruct (starts_with t "") eqn:E; [|discriminate].
    intros [= <-]. apply starts_with_length in E. simpl in *. lia.
  - destruct (starts_with t (String c s)) eqn:E.
    + intros [= <-]. apply starts_with_length in E. simpl in *. lia.
    + rewrite index_from_shift.
      destruct (index_from t s 0) as [q|]; [|discriminate].
      simpl. intros [= <-]. specialize (IH q eq_refl). lia.
Qed.

Lemma occurrences_from_skip t s k :
  occurrences_from t s k = occurrences_from t (drop k s) 0.
Proof.
  revert k. induction s as [|c s IH]; intros k.
  - now destruct k.
  - destruct k; [reflexivity|]. simpl. apply IH.
Qed.

Lemma occurrences_index t s :
  t <> EmptyString ->
  occurrences_from t s 0
  = match index_from t s 0 with
    | Some p => S (occurrences_from t (drop (p + String.length t) s) 0)
    | None => 0
    end.
Proof.
  intros Ht. induction s as [|c s IH].
  - simpl. destruct t; [congruence | reflexivity].
  - cbn [occurrences_from index_from].
    destruct (starts_with t (String c s)) eqn:E.
    + rewrite occurrences_from_skip. do 2 f_equal.
      destruct t; [congruence|]. simpl. now rewrite Nat.sub_0_r.
    + rewrite index_from_shift, IH.
      destruct (index_from t s 0) as [q|]; simpl; [|reflexivity].
      do 2 f_equal. replace (q + 1 + String.length t) with (S (q + String.length t)) by lia.
      reflexivity.
Qed.

Lemma indexOf_index_from s t pos :
  indexOf s t pos = (fun p => p + Nat.min pos (String.length s)) <$> index_from t (drop pos s) 0.
Proof. unfold indexOf. apply index_from_shift. Qed.

Lemma count_loop_spec fuel lower token pos count :
  token <> EmptyString -> pos <= String.length lower ->
  String.length lower - pos < fuel ->
  count_loop fuel lower token pos count
  = Some (count + occurrences_from token (drop pos lower) 0).
Proof.
  intros Ht. revert pos count.
  induction fuel as [|fuel IH]; intros pos count Hpos Hfuel; [lia|].
  simpl. rewrite indexOf_index_from, (occurrences_index token _ Ht).
  destruct (index_from token (drop pos lower) 0) as [p|] eqn:E; simpl.
  - pose proof (index_from_bound _ _ _ E) as Hb. rewrite length_drop in Hb.
    assert (0 < String.length token) by now apply nonempty_length.
    rewrite Nat.min_l by assumption.
    rewrite IH by lia. rewrite drop_drop.
    f_equal. replace (pos + (p + String.length token)) with (p + pos + String.length token) by lia.
    lia.
  - f_equal. lia.
Qed.

Lemma count_loop_empty fuel lower pos count : count_loop fuel lower "" pos count = None.
Proof.
  revert pos count. induction fuel as [|fuel IH]; intros pos count; [reflexivity|].
  simpl. unfold indexOf.
  destruct (drop pos lower); simpl; apply IH.
Qed.

(** the loop ends on every non-empty token, with the count of the
    occurrences in the lower-cased text *)
Lemma countOccurrences_total text token :
  token <> EmptyString ->
  countOccurrences text token = Some (occurrences token (toLowerCase text)).
Proof.
  intros Ht. unfold countOccurrences.
  rewrite count_loop_spec; [reflexivity | assumption | lia | lia].
Qed.

(** and never ends on the empty token *)
Lemma countOccurrences_empty text : countOccurrences text "" = None.
Proof. apply count_loop_empty. Qed.

Lemma lower_char_idem c : lower_char (lower_char c) = lower_char c.
Proof.
  destruct c as [[] [] [] [] [] [] [] []]; vm_compute; reflexivity.
Qed.

Lemma toLowerCase_idem s : toLowerCase (toLowerCase s) = toLowerCase s.
Proof. induction s; simpl; [reflexivity|]. now rewrite lower_char_idem, IHs. Qed.

Lemma weightedTf_total doc token :
  token <> EmptyString ->
  weightedTf doc token
  = Some (occurrences token (toLowerCase (content doc))
          + occurrences token (toLowerCase (indexTitle doc)) * getTitleBoost doc
          + occurrences token (toLowerCase (extractMatches (content doc) MD_HEADER_RE)) * 4
          + occurrences token (toLowerCase (extractMatches (content doc) MD_CODE_BLOCK_RE)) * 2
          + occurrences token (toLowerCase (extractMatches (content doc) MD_LINK_TEXT_RE)) * 2).
Proof.
  intros Ht. unfold weightedTf.
  repeat (rewrite countOccurrences_total by assumption; cbn [mbind option_bind]).
  now rewrite !toLowerCase_idem.
Qed.

Lemma weightedTf_empty doc : weightedTf doc "" = None.
Proof. unfold weightedTf. rewrite !countOccurrences_empty. reflexivity. Qed.

(** ** Running the methods *)

Lemma run_bind {A B} (m : M A) (f : A -> M B) st :
  (m ≫= f) st = match m st with Some (a, st') => f a st' | None => None end.
Proof. reflexivity. Qed.

Lemma read_only_ret {A} (x : A) : read_only (mret x).
Proof. intros st a st' [= _ <-]. reflexivity. Qed.

Lemma read_only_gets {A} (f : IndexSearch -> A) : read_only (gets f).
Proof. intros st a st' [= _ <-]. reflexivity. Qed.

Lemma read_only_liftO {A} (o : option A) : read_only (liftO o).
Proof. intros st a st'. unfold liftO. destruct o; [|discriminate]. now intros [= _ <-]. Qed.

Lemma read_only_bind {A B} (m : M A) (f : A -> M B) :
  read_only m -> (forall a, read_only (f a)) -> read_only (m ≫= f).
Proof.
  intros Hm Hf st b st'. rewrite run_bind.
  destruct (m st) as [[a st1]|] eqn:E; [|discriminate].
  apply Hm in E as ->. apply Hf.
Qed.

Lemma read_only_for_each {A S} (l : list A) (body : S -> A -> M S) acc :
  (forall acc x, read_only (body acc x)) -> read_only (for_each l body acc).
Proof.
  intros Hb. revert acc. induction l as [|x l IH]; intros acc; simpl.
  - apply read_only_ret.
  - apply read_only_bind; [apply Hb | apply IH].
Qed.

Create HintDb read_only.

#[local] Hint Resolve read_only_ret read_only_gets read_only_liftO : read_only.

Lemma read_only_calculateBM25Score doc token docIdx :
  read_only (calculateBM25Score doc token docIdx).
Proof.
  unfold calculateBM25Score.
  repeat (apply read_only_bind; [auto with read_only | intros ?]).
  apply read_only_ret.
Qed.

Section IndexFacts.

Variable stem : string -> string.

Lemma read_only_search_posting qt scores idx : read_only (search_posting qt scores idx).
Proof.
  unfold search_posting.
  repeat (apply read_only_bind;
          [auto using read_only_calculateBM25Score with read_only | intros ?]).
  apply read_only_ret.
Qed.

Lemma read_only_search_token scores qt : read_only (search_token scores qt).
Proof.
  unfold search_token.
  apply read_only_bind; [auto with read_only | intros ?].
  apply read_only_for_each. intros. apply read_only_search_posting.
Qed.

Lemma read_only_to_result e : read_only (to_result e).
Proof.
  unfold to_result.
  repeat (apply read_only_bind; [auto with read_only | intros ?]).
  apply read_only_ret.
Qed.

Lemma read_only_search query k : read_only (search stem query k).
Proof.
  unfold search.
  apply read_only_bind; [auto with read_only | intros n].
  destruct (n =? 0); [apply read_only_ret|].
  apply read_only_bind.
  { apply read_only_for_each. intros. apply read_only_search_token. }
  intros scores. apply read_only_bind; [|intros; apply read_only_ret].
  apply read_only_for_each. intros acc e.
  apply read_only_bind; [apply read_only_to_result | intros; apply read_only_ret].
Qed.

(** ** The effect of [add] *)

Lemma add_token_run idx seen dt tok st :
  add_token idx (seen, dt) tok st
  = Some ((if decide (tok ∈ seen) then seen else seen ∪ {[tok]}, dt ++ [tok]),
          let st1 := set_docIndices
                       (<[tok := postings st tok ++ [idx]]> (docIndices st)) st in
          if decide (tok ∈ seen) then st1
          else set_docFrequency (<[tok := df_of st1 tok + 1]> (docFrequency st1)) st1).
Proof. unfold add_token. destruct (decide (tok ∈ seen)); reflexivity. Qed.

Lemma postings_insert st tok l tok' :
  postings (set_docIndices (<[tok := l]> (docIndices st)) st) tok'
  = if decide (tok = tok') then l else postings st tok'.
Proof.
  unfold postings. simpl. rewrite lookup_insert.
  destruct (decide (tok = tok')); reflexivity.
Qed.

Lemma df_of_insert st tok n tok' :
  df_of (set_docFrequency (<[tok := n]> (docFrequency st)) st) tok'
  = if decide (tok = tok') then n else df_of st tok'.
Proof.
  unfold df_of. simpl. rewrite lookup_insert.
  destruct (decide (tok = tok')); reflexivity.
Qed.

Lemma add_tokens_run idx toks :
  forall seen dt st,
  exists seen' st',
    for_each toks (add_token idx) (seen, dt) st = Some ((seen', dt ++ toks), st')
    /\ (forall t, t ∈ seen' <-> t ∈ seen \/ t ∈ toks)
    /\ docs st' = docs st /\ docLengths st' = docLengths st
    /\ avgDocLength st' = avgDocLength st
    /\ (forall tok, df_of st' tok
                    = df_of st tok
                      + (if decide (tok ∈ toks /\ tok ∉ seen) then 1 else 0))
    /\ (forall tok i, In i (postings st' tok)
                      <-> In i (postings st tok) \/ (i = idx /\ tok ∈ toks)).
Proof.
  induction toks as [|x toks IH]; intros seen dt st.
  - exists seen, st. cbn [for_each]. rewrite app_nil_r.
    split; [reflexivity|]. split; [|split; [|split; [|split; [|split]]]];
      try reflexivity.
    + intros t. rewrite elem_of_nil. tauto.
    + intros tok. case_decide as H; [|lia].
      destruct H as [H _]. now apply elem_of_nil in H.
    + intros tok i. rewrite elem_of_nil. tauto.
  - cbn [for_each]. rewrite run_bind, add_token_run. cbv zeta.
    set (st0 := set_docIndices _ st).
    set (st1 := if decide (x ∈ seen) then st0 else _).
    set (seen1 := if decide (x ∈ seen) then seen else _).
    destruct (IH seen1 (dt ++ [x]) st1)
      as (seen' & st' & Hrun & Hseen & Hdocs & Hlen & Havg & Hdf & Hpost).
    exists seen', st'. rewrite Hrun, <- app_assoc. cbn [app].
    assert (Hseen1 : forall t, t ∈ seen1 <-> t ∈ seen \/ t = x).
    { intros t. subst seen1. destruct (decide (x ∈ seen)) as [Hx|Hx].
      - split; [auto | intros [H| ->]; assumption].
      - rewrite elem_of_union, elem_of_singleton. tauto. }
    assert (Hst1 : docs st1 = docs st /\ docLengths st1 = docLengths st
                   /\ avgDocLength st1 = avgDocLength st).
    { subst st1 st0. destruct (decide (x ∈ seen)); repeat split. }
    destruct Hst1 as (E1 & E2 & E3).
    split; [reflexivity|]. split; [|split; [|split; [|split; [|split]]]].
    + intros t. rewrite Hseen, Hseen1, elem_of_cons. tauto.
    + congruence.
    + congruence.
    + congruence.
    + intros tok. rewrite Hdf.
      assert (Hdf1 : df_of st1 tok
                     = df_of st tok + (if decide (x = tok /\ x ∉ seen) then 1 else 0)).
      { subst st1. destruct (decide (x ∈ seen)) as [Hin|Hnin].
        - subst st0. unfold df_of at 1. simpl. fold (df_of st tok).
          case_decide as H; [destruct H; contradiction | lia].
        - rewrite df_of_insert. subst st0.
          destruct (decide (x = tok)) as [->|Hne].
          + unfold df_of at 1. simpl. fold (df_of st tok).
            case_decide as Hn; [lia | exfalso; apply Hn; auto].
          + unfold df_of at 1. simpl. fold (df_of st tok).
            case_decide as H; [destruct H; contradiction | lia]. }
      rewrite Hdf1.
      destruct (decide (tok ∈ toks /\ tok ∉ seen1)) as [[Ha Hb]|Hn1];
        destruct (decide (x = tok /\ x ∉ seen)) as [[Hc Hd]|Hn2];
        destruct (decide (tok ∈ x :: toks /\ tok ∉ seen)) as [[He Hf]|Hn3];
        try lia; exfalso.
      * apply Hb, Hseen1. auto.
      * apply Hb, Hseen1. auto.
      * apply Hn3. split; [now apply elem_of_cons; right|].
        intros Hs. apply Hb, Hseen1. auto.
      * apply Hn3. subst. split; [apply elem_of_cons; auto | assumption].
      * apply elem_of_cons in He as [->|He].
        -- apply Hn2. auto.
        -- apply Hn1. split; [assumption|]. intros [Hs| ->]%Hseen1;
             [contradiction | apply Hn2; auto].
    + intros tok i. rewrite Hpost.
      assert (Hp1 : In i (postings st1 tok)
                    <-> In i (postings st tok) \/ (i = idx /\ x = tok)).
      { assert (E : postings st1 tok = postings st0 tok).
        { subst st1. destruct (decide (x ∈ seen)); reflexivity. }
        rewrite E. subst st0. rewrite postings_insert.
        destruct (decide (x = tok)) as [->|Hne].
        - rewrite in_app_iff. simpl. intuition.
        - intuition. }
      rewrite Hp1, elem_of_cons. intuition.
Qed.

(** what one call of [add] does to the index *)
Lemma add_run doc st :
  exists st',
    add stem doc st = Some (tt, st')
    /\ docs st' = docs st ++ [doc]
    /\ docLengths st' = docLengths st ++ [length (allTokens stem doc)]
    /\ avgDocLength st' = mean (docLengths st')
    /\ (forall tok, df_of st' tok
                    = df_of st tok
                      + (if includes (allTokens stem doc) tok then 1 else 0))
    /\ (forall tok i, In i (postings st' tok)
                      <-> In i (postings st tok)
                          \/ (i = length (docs st) /\ In tok (allTokens stem doc))).
Proof.
  unfold add. rewrite run_bind. cbn [gets]. rewrite run_bind. cbn [modify].
  rewrite run_bind.
  destruct (add_tokens_run (length (docs st)) (allTokens stem doc) ∅ []
              (set_docs (docs st ++ [doc]) st))
    as (seen' & st1 & Hrun & _ & Hdocs & Hlen & Havg & Hdf & Hpost).
  rewrite Hrun. simpl app.
  eexists. split; [reflexivity|]. simpl.
  rewrite Hdocs, Hlen. simpl.
  repeat split.
  - intros tok. unfold df_of at 1. simpl. fold (df_of st1 tok). rewrite Hdf.
    unfold df_of at 1. simpl. fold (df_of st tok).
    destruct (includes (allTokens stem doc) tok) eqn:E.
    + apply includes_In, list_elem_of_In in E.
      case_decide as Hn; [reflexivity|].
      exfalso. apply Hn. split; [assumption | apply not_elem_of_empty].
    + case_decide as Hin; [|reflexivity].
      destruct Hin as [Hin _].
      apply list_elem_of_In, includes_In in Hin. congruence.
  - intros H. apply (Hpost tok i) in H. rewrite list_elem_of_In in H. exact H.
  - intros H. apply (Hpost tok i). rewrite list_elem_of_In. exact H.
Qed.

End IndexFacts.

(** ** Invariants of the reachable states *)

Section Invariants.

Variable stem : string -> string.

Lemma add_inv doc st st' :
  add stem doc st = Some (tt, st') ->
  docs st' = docs st ++ [doc]
  /\ docLengths st' = docLengths st ++ [length (allTokens stem doc)]
  /\ avgDocLength st' = mean (docLengths st')
  /\ (forall tok, df_of st' tok
                  = df_of st tok + (if includes (allTokens stem doc) tok then 1 else 0))
  /\ (forall tok i, In i (postings st' tok)
                    <-> In i (postings st tok)
                        \/ (i = length (docs st) /\ In tok (allTokens stem doc))).
Proof.
  intros H. destruct (add_run stem doc st) as (st2 & Hrun & Hprops).
  rewrite Hrun in H. injection H as <-. exact Hprops.
Qed.

(** [add] returns on every document and every state *)
Lemma add_total doc st : exists st', add stem doc st = Some (tt, st').
Proof. destruct (add_run stem doc st) as (st' & H & _). eauto. Qed.

Lemma reachable_docLengths st :
  reachable stem st ->
  docLengths st = map (fun d => length (allTokens stem d)) (docs st).
Proof.
  induction 1 as [|st doc st' _ IH Hadd]; [reflexivity|].
  apply add_inv in Hadd as (-> & -> & _).
  now rewrite map_app, IH.
Qed.

Lemma reachable_avgDocLength st :
  reachable stem st -> avgDocLength st = mean (docLengths st).
Proof.
  induction 1 as [|st doc st' _ IH Hadd]; [reflexivity|].
  now apply add_inv in Hadd as (_ & _ & -> & _).
Qed.

Lemma docs_containing_app tok ds1 ds2 :
  docs_containing stem tok (ds1 ++ ds2)
  = docs_containing stem tok ds1 + docs_containing stem tok ds2.
Proof. unfold docs_containing. now rewrite List.filter_app, length_app. Qed.

Lemma reachable_df st tok :
  reachable stem st -> df_of st tok = docs_containing stem tok (docs st).
Proof.
  induction 1 as [|st doc st' _ IH Hadd]; [reflexivity|].
  apply add_inv in Hadd as (-> & _ & _ & -> & _).
  rewrite docs_containing_app, IH. f_equal.
  unfold docs_containing. simpl.
  destruct (includes (allTokens stem doc) tok); reflexivity.
Qed.

Lemma docs_containing_le tok ds : docs_containing stem tok ds <= length ds.
Proof. unfold docs_containing. apply List.filter_length_le. Qed.

Lemma reachable_df_le st tok : reachable stem st -> df_of st tok <= nDocs_of st.
Proof.
  intros H. rewrite (reachable_df _ _ H). unfold nDocs_of.
  pose proof (docs_containing_le tok (docs st)). lia.
Qed.

(** a posting points at a document that has the token *)
Lemma reachable_postings st tok i :
  reachable stem st -> In i (postings st tok) ->
  exists d, docs st !! i = Some d /\ In tok (allTokens stem d).
Proof.
  intros H. revert i. induction H as [|st doc st' _ IH Hadd]; intros i Hi.
  - unfold postings in Hi. simpl in Hi. rewrite lookup_empty in Hi. destruct Hi.
  - apply add_inv in Hadd as (Hd & _ & _ & _ & Hp).
    apply Hp in Hi as [Hi | [-> Htok]].
    + destruct (IH _ Hi) as (d & Hl & Hin). exists d. split; [|assumption].
      rewrite Hd. apply lookup_app_l_Some. assumption.
    + exists doc. split; [|assumption].
      rewrite Hd. apply list_lookup_middle. reflexivity.
Qed.

Hypothesis stem_nonempty : forall s, s <> EmptyString -> stem s <> EmptyString.

Lemma allTokens_nonempty doc tok : In tok (allTokens stem doc) -> tok <> EmptyString.
Proof.
  unfold allTokens. intros [H|H]%in_app_iff.
  - pose proof (tokenize_nonempty stem (haystack doc) stem_nonempty) as F.
    rewrite Forall_forall in F. apply F. now apply list_elem_of_In.
  - pose proof (generateBigrams_nonempty (tokenize stem (haystack doc))) as F.
    rewrite Forall_forall in F. apply F. now apply list_elem_of_In.
Qed.

(** every token with a posting is a non-empty string *)
Lemma reachable_postings_nonempty st tok i :
  reachable stem st -> In i (postings st tok) -> tok <> EmptyString.
Proof.
  intros H Hi. destruct (reachable_postings _ _ _ H Hi) as (d & _ & Hin).
  eapply allTokens_nonempty; eassumption.
Qed.

End Invariants.

(** ** The numbers of the score *)

Lemma num_nonneg n : (0 <= num n)%Q.
Proof. unfold num. change 0%Q with (inject_Z 0). rewrite <- Zle_Qle. lia. Qed.

Lemma num_le n m : n <= m -> (num n <= num m)%Q.
Proof. intros H. unfold num. rewrite <- Zle_Qle. lia. Qed.

Lemma avgLen_of_ge1 st : (1 <= avgLen_of st)%Q.
Proof. unfold avgLen_of. apply Q.le_max_r. Qed.

Lemma docLength_of_ge1 st i : 1 <= docLength_of st i.
Proof. unfold docLength_of. destruct (docLengths st !! i) as [[|n]|]; lia. Qed.

Lemma Qdiv_nonneg a b : (0 <= a)%Q -> (0 < b)%Q -> (0 <= a / b)%Q.
Proof.
  intros Ha Hb. apply Qle_shift_div_l; [assumption|].
  now rewrite Qmult_0_l.
Qed.

Lemma tf_denominator_bound w dl avg :
  (0 < avg)%Q -> (0.375 <= tf_denominator w dl avg)%Q.
Proof.
  intros Havg. unfold tf_denominator, K1, B.
  pose proof (num_nonneg w) as Hw.
  pose proof (Qdiv_nonneg (num dl) avg (num_nonneg dl) Havg) as Hx.
  set (x := (num dl / avg)%Q) in *. set (nw := num w) in *. Lqa.lra.
Qed.

Lemma tf_component_nonneg w dl avg :
  (0 < avg)%Q -> (0 <= tf_component w dl avg)%Q.
Proof.
  intros Havg. unfold tf_component.
  pose proof (tf_denominator_bound w dl avg Havg) as Hd.
  apply Qdiv_nonneg.
  - pose proof (num_nonneg w) as Hw. unfold K1.
    set (nw := num w) in *. Lqa.lra.
  - Lqa.lra.
Qed.

Lemma idf_arg_ge1 n df : df <= n -> (1 <= idf_arg n df)%Q.
Proof.
  intros H. unfold idf_arg.
  pose proof (num_le _ _ H) as Hle. pose proof (num_nonneg df) as Hdf.
  assert (Hq : (0 <= (num n - num df + 0.5) / (num df + 0.5))%Q).
  { apply Qdiv_nonneg; set (a := num n) in *; set (b := num df) in *; Lqa.lra. }
  set (q := ((num n - num df + 0.5) / (num df + 0.5))%Q) in *. Lqa.lra.
Qed.

Lemma Q2R_ge1 q : (1 <= q)%Q -> (1 <= Q2R q)%R.
Proof.
  intros H%Qle_Rle. replace (Q2R 1) with 1%R in H; [assumption|].
  unfold Q2R. simpl. Lra.lra.
Qed.

Lemma Q2R_nonneg q : (0 <= q)%Q -> (0 <= Q2R q)%R.
Proof.
  intros H%Qle_Rle. replace (Q2R 0) with 0%R in H; [assumption|].
  unfold Q2R. simpl. Lra.lra.
Qed.

Lemma ln_nonneg x : (1 <= x)%R -> (0 <= ln x)%R.
Proof.
  intros H. rewrite <- ln_1. destruct H as [H | <-]; [|Lra.lra].
  left. apply ln_increasing; Lra.lra.
Qed.

(** the value [calculateBM25Score] returns, once the counting loops have
    ended *)
Lemma calculateBM25Score_run doc token docIdx st w :
  weightedTf doc token = Some w ->
  calculateBM25Score doc token docIdx st
  = Some ((ln (Q2R (idf_arg (nDocs_of st) (df_of st token)))
           * Q2R (tf_component w (docLength_of st docIdx) (avgLen_of st)))%R, st).
Proof. intros H. unfold calculateBM25Score. rewrite run_bind. unfold liftO. now rewrite H. Qed.

Lemma calculateBM25Score_None doc token docIdx st :
  weightedTf doc token = None -> calculateBM25Score doc token docIdx st = None.
Proof. intros H. unfold calculateBM25Score. rewrite run_bind. unfold liftO. now rewrite H. Qed.

(** ** The accumulator *)

Lemma scores_set_keys scores idx v :
  map fst (scores_set scores idx v) = note (map fst scores) idx.
Proof.
  unfold note. induction scores as [|[j x] rest IH]; simpl; [reflexivity|].
  destruct (j =? idx) eqn:E.
  - apply Nat.eqb_eq in E as ->. now rewrite Nat.eqb_refl.
  - rewrite Nat.eqb_sym, E. simpl. rewrite IH.
    destruct (existsb (Nat.eqb idx) (map fst rest)); reflexivity.
Qed.

Lemma note_NoDup acc i : NoDup acc -> NoDup (note acc i).
Proof.
  intros H. unfold note. destruct (existsb (Nat.eqb i) acc) eqn:E; [assumption|].
  apply NoDup_app. repeat split; [assumption | | apply NoDup_singleton].
  intros x Hx Hxi. apply elem_of_cons in Hxi as [->|Hn]; [|inversion Hn].
  assert (existsb (Nat.eqb i) acc = true); [|congruence].
  apply existsb_exists. exists i. split; [now apply list_elem_of_In | apply Nat.eqb_refl].
Qed.

Lemma fold_note_NoDup l acc : NoDup acc -> NoDup (fold_left note l acc).
Proof.
  revert acc. induction l as [|i l IH]; intros acc H; simpl; [assumption|].
  apply IH. now apply note_NoDup.
Qed.

Lemma first_occurrences_NoDup l : NoDup (first_occurrences l).
Proof. apply fold_note_NoDup. constructor. Qed.

Lemma note_In acc i x : In x (note acc i) <-> In x acc \/ x = i.
Proof.
  unfold note. destruct (existsb (Nat.eqb i) acc) eqn:E.
  - split; [auto|]. intros [H| ->]; [assumption|].
    apply existsb_exists in E as (y & Hy & ->%Nat.eqb_eq). assumption.
  - rewrite in_app_iff. simpl. intuition.
Qed.

Lemma fold_note_In l acc x : In x (fold_left note l acc) <-> In x acc \/ In x l.
Proof.
  revert acc. induction l as [|i l IH]; intros acc; simpl; [tauto|].
  rewrite IH, note_In. intuition.
Qed.

Lemma fold_note_app l1 l2 acc :
  fold_left note (l1 ++ l2) acc = fold_left note l2 (fold_left note l1 acc).
Proof. apply fold_left_app. Qed.

(** ** The sort *)

Lemma insert_desc_In x l y : In y (insert_desc x l) <-> y = x \/ In y l.
Proof.
  induction l as [|z l IH]; simpl; [intuition|].
  destruct (Rlt_dec (score x) (score z)); simpl; [rewrite IH|]; intuition.
Qed.

Lemma insert_desc_sorted x l :
  StronglySorted ge_score l -> StronglySorted ge_score (insert_desc x l).
Proof.
  induction 1 as [|z l Hs IH Hz]; simpl.
  - repeat constructor.
  - destruct (Rlt_dec (score x) (score z)) as [Hlt|Hge].
    + constructor; [assumption|].
      apply List.Forall_forall. intros y [->|Hy]%insert_desc_In.
      * unfold ge_score. Lra.lra.
      * rewrite List.Forall_forall in Hz. now apply Hz.
    + constructor; [now constructor|].
      constructor; [unfold ge_score; Lra.lra|].
      rewrite List.Forall_forall in Hz |- *. intros y Hy.
      specialize (Hz y Hy). unfold ge_score in *. Lra.lra.
Qed.

Lemma sort_desc_sorted l : StronglySorted ge_score (sort_desc l).
Proof.
  induction l as [|x l IH]; simpl; [constructor | now apply insert_desc_sorted].
Qed.

Lemma insert_desc_perm x l : Permutation (x :: l) (insert_desc x l).
Proof.
  induction l as [|z l IH]; simpl; [reflexivity|].
  destruct (Rlt_dec (score x) (score z)); [|reflexivity].
  rewrite perm_swap. now constructor.
Qed.

Lemma sort_desc_perm l : Permutation l (sort_desc l).
Proof.
  induction l as [|x l IH]; simpl; [reflexivity|].
  rewrite <- insert_desc_perm. now constructor.
Qed.

Lemma has_score_true s r : has_score s r = true <-> score r = s.
Proof. unfold has_score. destruct (Req_dec_T (score r) s); split; congruence. Qed.

(** the sort keeps results of equal score in the order they had *)
Lemma insert_desc_stable s x l :
  List.filter (has_score s) (insert_desc x l) = List.filter (has_score s) (x :: l).
Proof.
  induction l as [|z l IH]; [reflexivity|].
  cbn [insert_desc]. destruct (Rlt_dec (score x) (score z)) as [Hlt|]; [|reflexivity].
  cbn [List.filter] in *. rewrite IH.
  destruct (has_score s z) eqn:Ez; [|reflexivity].
  destruct (has_score s x) eqn:Ex; [|reflexivity].
  apply has_score_true in Ez, Ex. Lra.lra.
Qed.

Lemma sort_desc_stable s l :
  List.filter (has_score s) (sort_desc l) = List.filter (has_score s) l.
Proof.
  induction l as [|x l IH]; [reflexivity|].
  cbn [sort_desc fold_right]. fold (sort_desc l).
  rewrite insert_desc_stable. cbn [List.filter]. now rewrite IH.
Qed.

Lemma StronglySorted_firstn {A} (R : A -> A -> Prop) n l :
  StronglySorted R l -> StronglySorted R (firstn n l).
Proof.
  intros H. revert n. induction H as [|x l Hs IH Hx]; intros n.
  - rewrite firstn_nil. constructor.
  - destruct n; simpl; [constructor|]. constructor; [apply IH|].
    rewrite List.Forall_forall in Hx |- *. intros y Hy. apply Hx.
    rewrite <- (firstn_skipn n l). apply in_or_app. now left.
Qed.

Lemma StronglySorted_descending l : StronglySorted ge_score l -> descending l.
Proof.
  induction 1 as [|x l Hs IH Hx]; intros i j ri rj Hij Hi Hj.
  - rewrite lookup_nil in Hi. discriminate.
  - destruct j as [|j]; [lia|]. simpl in Hj.
    destruct i as [|i]; simpl in Hi.
    + injection Hi as <-. rewrite List.Forall_forall in Hx.
      apply Hx. apply list_elem_of_In. eapply list_elem_of_lookup_2. eassumption.
    + eapply IH; [|eassumption..]. lia.
Qed.

Lemma slice0_nonneg {A} (l : list A) k : (0 <= k)%Z -> slice0 l k = firstn (Z.to_nat k) l.
Proof. intros H. unfold slice0. destruct (k <? 0)%Z eqn:E; [lia | reflexivity]. Qed.

Lemma slice0_sublist {A} (l : list A) k : exists n, slice0 l k = firstn n l.
Proof. unfold slice0. destruct (k <? 0)%Z; eauto. Qed.

Lemma slice0_nil {A} k : slice0 (@nil A) k = [].
Proof. unfold slice0. destruct (k <? 0)%Z; apply firstn_nil. Qed.

(** ** Results and positions *)

Lemma Forall2_Permutation_l {A B} (R : A -> B -> Prop) l1 l1' l2 :
  Permutation l1 l1' -> Forall2 R l1 l2 ->
  exists l2', Permutation l2 l2' /\ Forall2 R l1' l2'.
Proof.
  intros HP. revert l2. induction HP as [|x l l' HP IH|x y l|l l' l'' HP1 IH1 HP2 IH2];
    intros l2 HF.
  - inversion HF; subst. exists []. split; constructor.
  - inversion HF as [|? b ? t Hxb Ht]; subst.
    destruct (IH _ Ht) as (t' & Hp & Hf). exists (b :: t'). split; now constructor.
  - inversion HF as [|? b ? t Hyb Ht]; subst.
    inversion Ht as [|? a ? t' Hxa Ht']; subst.
    exists (a :: b :: t'). split; [apply perm_swap | now repeat constructor].
  - destruct (IH1 _ HF) as (m & Hp1 & Hf1).
    destruct (IH2 _ Hf1) as (m' & Hp2 & Hf2).
    exists m'. split; [etransitivity; eassumption | assumption].
Qed.

(** ** Loops that only read the index *)

Lemma for_each_total {A S} (l : list A) (body : S -> A -> M S) st (P : A -> Prop) :
  (forall acc x, P x -> exists acc', body acc x st = Some (acc', st)) ->
  List.Forall P l ->
  forall acc, exists acc', for_each l body acc st = Some (acc', st).
Proof.
  intros Hb Hl. induction Hl as [|x l Hx _ IH]; intros acc; simpl.
  - eexists. reflexivity.
  - rewrite run_bind. destruct (Hb acc x Hx) as (acc1 & ->). apply IH.
Qed.

Lemma for_each_keys {A S} (l : list A) (body : S -> A -> M S) st
      (key : S -> list nat) (f : list nat -> A -> list nat) :
  (forall acc x acc' st', body acc x st = Some (acc', st') ->
                          st' = st /\ key acc' = f (key acc) x) ->
  forall acc acc' st', for_each l body acc st = Some (acc', st') ->
                       st' = st /\ key acc' = fold_left f l (key acc).
Proof.
  intros Hb. induction l as [|x l IH]; intros acc acc' st'; simpl.
  - intros [= <- <-]. auto.
  - rewrite run_bind. destruct (body acc x st) as [[acc1 st1]|] eqn:E; [|discriminate].
    apply Hb in E as [-> E]. intros H%IH. now rewrite <- E.
Qed.

Lemma fold_note_flat_map {A} (g : A -> list nat) l keys :
  fold_left (fun ks x => fold_left note (g x) ks) l keys
  = fold_left note (flat_map g l) keys.
Proof.
  revert keys. induction l as [|x l IH]; intros keys; simpl; [reflexivity|].
  now rewrite fold_note_app, IH.
Qed.

Section SearchFacts.

Variable stem : string -> string.

Lemma search_posting_inv qt scores idx st scores' st' :
  search_posting qt scores idx st = Some (scores', st') ->
  st' = st /\ map fst scores' = note (map fst scores) idx.
Proof.
  unfold search_posting. rewrite run_bind. cbn [gets]. rewrite run_bind.
  unfold liftO at 1. destruct (docs st !! idx) as [d|]; [|discriminate].
  rewrite run_bind.
  destruct (calculateBM25Score d qt idx st) as [[v st1]|] eqn:E; [|discriminate].
  apply read_only_calculateBM25Score in E as ->.
  intros [= <- <-]. split; [reflexivity | apply scores_set_keys].
Qed.

Lemma search_posting_total qt scores idx st d w :
  docs st !! idx = Some d -> weightedTf d qt = Some w ->
  exists scores', search_posting qt scores idx st = Some (scores', st).
Proof.
  intros Hd Hw. unfold search_posting. rewrite run_bind. cbn [gets].
  rewrite run_bind, Hd. cbn [liftO]. rewrite run_bind.
  rewrite (calculateBM25Score_run _ _ _ _ _ Hw). eexists. reflexivity.
Qed.

Lemma search_token_inv scores qt st scores' st' :
  search_token scores qt st = Some (scores', st') ->
  st' = st /\ map fst scores' = fold_left note (postings st qt) (map fst scores).
Proof.
  unfold search_token. rewrite run_bind. cbn [gets]. fold (postings st qt).
  apply (for_each_keys _ _ st (map fst) note).
  intros acc x acc' st1. apply search_posting_inv.
Qed.

Lemma search_tokens_inv qTokens scores st scores' st' :
  for_each qTokens search_token scores st = Some (scores', st') ->
  st' = st
  /\ map fst scores' = fold_left note (flat_map (postings st) qTokens) (map fst scores).
Proof.
  intros H.
  apply (for_each_keys _ _ st (map fst)
           (fun ks qt => fold_left note (postings st qt) ks)) in H.
  - now rewrite fold_note_flat_map in H.
  - intros acc x acc' st1. apply search_token_inv.
Qed.

Lemma to_results_inv scores acc st res st' :
  for_each scores (fun acc e => r ← to_result e; mret (acc ++ [r])) acc st
  = Some (res, st') ->
  st' = st /\ exists new, res = acc ++ new /\ Forall2 (of_entry st) new scores.
Proof.
  revert acc. induction scores as [|e scores IH]; intros acc; simpl.
  - intros [= <- <-]. split; [reflexivity|]. exists []. rewrite app_nil_r.
    split; [reflexivity | constructor].
  - rewrite run_bind. unfold to_result at 1. rewrite !run_bind. cbn [gets].
    rewrite run_bind. unfold liftO at 1.
    destruct (docs st !! e.1) as [d|] eqn:Hd; [|discriminate].
    unfold mret at 1 2, M_ret.
    intros (-> & new & -> & HF)%IH. split; [reflexivity|].
    exists ({| score := e.2; doc := d |} :: new). rewrite <- app_assoc.
    split; [reflexivity|]. constructor; [|assumption].
    split; [reflexivity | exact Hd].
Qed.

Lemma to_results_total scores acc st :
  List.Forall (fun e : nat * R => exists d, docs st !! e.1 = Some d) scores ->
  exists res,
    for_each scores (fun acc e => r ← to_result e; mret (acc ++ [r])) acc st
    = Some (res, st).
Proof.
  intros H. revert acc.
  apply (for_each_total scores _ st
           (fun e : nat * R => exists d, docs st !! e.1 = Some d)); [|exact H].
  intros a e (d & Hd). rewrite run_bind. unfold to_result.
  rewrite !run_bind. cbn [gets]. rewrite run_bind, Hd. cbn [liftO].
  eexists. reflexivity.
Qed.

(** what [search] returns, whenever it returns *)
Lemma search_inv query k st results st' :
  search stem query k st = Some (results, st') ->
  st' = st
  /\ ((docs st = [] /\ results = [])
      \/ exists scores unsorted,
           map fst scores = accumulator_order stem st query
           /\ Forall2 (of_entry st) unsorted scores
           /\ results = slice0 (sort_desc unsorted) k).
Proof.
  unfold search. rewrite run_bind. cbn [gets].
  destruct (length (docs st) =? 0) eqn:En.
  - intros [= <- <-]. split; [reflexivity|]. left.
    apply Nat.eqb_eq in En. split; [|reflexivity].
    now destruct (docs st).
  - rewrite run_bind.
    destruct (for_each _ search_token [] st) as [[scores st1]|] eqn:E1; [|discriminate].
    apply search_tokens_inv in E1 as [-> Hkeys].
    rewrite run_bind.
    destruct (for_each scores _ [] st) as [[res st2]|] eqn:E2; [|discriminate].
    apply to_results_inv in E2 as (-> & new & -> & HF).
    intros [= <- <-]. split; [reflexivity|]. right.
    exists scores, new. repeat split; assumption.
Qed.

Lemma search_empty_index query k st :
  docs st = [] -> search stem query k st = Some ([], st).
Proof. intros H. unfold search. rewrite run_bind. cbn [gets]. now rewrite H. Qed.

(** a query none of whose tokens has a posting finds nothing *)
Lemma search_no_postings query k st :
  (forall tok, In tok (query_tokens stem query) -> postings st tok = []) ->
  search stem query k st = Some ([], st).
Proof.
  intros H. unfold search. rewrite run_bind. cbn [gets].
  destruct (length (docs st) =? 0); [reflexivity|].
  fold (query_tokens stem query). rewrite run_bind.
  assert (E : forall toks acc,
             (forall tok, In tok toks -> postings st tok = []) ->
             for_each toks search_token acc st = Some (acc, st)).
  { induction toks as [|t toks IH]; intros acc Ht; [reflexivity|].
    simpl. rewrite run_bind. unfold search_token at 1.
    rewrite run_bind. cbn [gets]. fold (postings st t).
    rewrite (Ht t) by now left. simpl.
    apply IH. intros; apply Ht; now right. }
  rewrite (E _ _ H), run_bind. cbn [for_each]. unfold mret, M_ret.
  cbn [sort_desc fold_right]. now rewrite slice0_nil.
Qed.

Hypothesis stem_nonempty : forall s, s <> EmptyString -> stem s <> EmptyString.

(** on a reachable state every scoring loop ends *)
Lemma search_tokens_total st qTokens :
  reachable stem st ->
  forall scores, exists scores',
    for_each qTokens search_token scores st = Some (scores', st).
Proof.
  intros Hr.
  apply (for_each_total qTokens _ st (fun _ => True)); [|apply List.Forall_forall; auto].
  intros acc qt _. unfold search_token. rewrite run_bind. cbn [gets].
  fold (postings st qt).
  apply (for_each_total (postings st qt) _ st (fun i => In i (postings st qt)));
    [|apply List.Forall_forall; auto].
  intros acc' i Hi.
  destruct (reachable_postings _ _ _ _ Hr Hi) as (d & Hd & Hin).
  assert (Hne : qt <> EmptyString) by (eapply allTokens_nonempty; eassumption).
  eapply search_posting_total; [exact Hd | apply (weightedTf_total d qt Hne)].
Qed.

(** [search] returns on every reachable state, whatever the query and [k] *)
Lemma search_total query k st :
  reachable stem st -> exists results, search stem query k st = Some (results, st).
Proof.
  intros Hr. unfold search. rewrite run_bind. cbn [gets].
  destruct (length (docs st) =? 0); [eexists; reflexivity|].
  rewrite run_bind.
  destruct (search_tokens_total st (tokenize stem query
                                    ++ generateBigrams (tokenize stem query)) Hr [])
    as (scores & E).
  rewrite E. pose proof E as (_ & Hkeys)%search_tokens_inv.
  rewrite run_bind.
  destruct (to_results_total scores [] st) as (res & ->); [|eexists; reflexivity].
  apply List.Forall_forall. intros e He.
  assert (Hk : In e.1 (map fst scores)) by now apply in_map.
  rewrite Hkeys in Hk. apply fold_note_In in Hk as [[]|Hk].
  apply in_flat_map in Hk as (qt & _ & Hi).
  destruct (reachable_postings _ _ _ _ Hr Hi) as (d & Hd & _). eauto.
Qed.

End SearchFacts.

(** ** Building an index *)

Section BuildingFacts.

Variable stem : string -> string.

Lemma after_add_reachable st doc :
  reachable stem st -> reachable stem (after_add stem st doc).
Proof.
  intros H. unfold after_add.
  destruct (add_total stem doc st) as (st' & E). rewrite E.
  eapply reach_add; eassumption.
Qed.

Lemma index_of_reachable ds : reachable stem (index_of stem ds).
Proof.
  unfold index_of.
  assert (G : forall st, reachable stem st ->
                         reachable stem (fold_left (after_add stem) ds st)).
  { induction ds as [|d ds IH]; intros st H; simpl; [assumption|].
    apply IH. now apply after_add_reachable. }
  apply G. constructor.
Qed.

(** one turn of the loop over a posting list, with the value it adds *)
Lemma search_posting_run qt scores idx st d w :
  docs st !! idx = Some d -> weightedTf d qt = Some w ->
  search_posting qt scores idx st
  = Some (scores_set scores idx
            (default 0 (scores_get scores idx)
             + ln (Q2R (idf_arg (nDocs_of st) (df_of st qt)))
               * Q2R (tf_component w (docLength_of st idx) (avgLen_of st)))%R,
          st).
Proof.
  intros Hd Hw. unfold search_posting. rewrite run_bind. cbn [gets].
  rewrite run_bind, Hd. cbn [liftO]. rewrite run_bind.
  rewrite (calculateBM25Score_run _ _ _ _ _ Hw). reflexivity.
Qed.

Lemma to_result_run (e : nat * R) st d :
  docs st !! e.1 = Some d ->
  to_result e st = Some ({| score := e.2; doc := d |}, st).
Proof.
  intros Hd. unfold to_result. rewrite run_bind. cbn [gets].
  rewrite run_bind, Hd. reflexivity.
Qed.

Lemma tokenize_part_stopword tokens part :
  has STOP_WORDS (toLowerCase part) = true -> tokenize_part stem tokens part = tokens.
Proof.
  intros H. unfold tokenize_part. rewrite H.
  now destruct (is_empty (toLowerCase part)).
Qed.

Lemma tokenize_only_stopwords query :
  only_stopwords query -> tokenize stem query = [].
Proof.
  unfold only_stopwords, tokenize. generalize (match_all TOKEN_RE query).
  intros ms H.
  assert (G : forall parts tokens,
             (forall p, In p parts -> has STOP_WORDS (toLowerCase p) = true) ->
             fold_left (tokenize_part stem) parts tokens = tokens).
  { induction parts as [|p parts IH]; intros tokens Hp; simpl; [reflexivity|].
    rewrite tokenize_part_stopword by (apply Hp; now left).
    apply IH. intros; apply Hp; now right. }
  induction ms as [|m ms IH]; simpl; [reflexivity|].
  unfold tokenize_match at 2. rewrite G.
  - apply IH. intros token part Ht. apply H. now right.
  - intros p Hp. apply (H m); [now left | assumption].
Qed.

End BuildingFacts.

(** * The claims *)

(** ** Tokenizer *)

(** C6, as amended.  In the camel-case branch of [tokenize], after the
    tokens of the sub-parts, the stem of the lower-cased whole part is
    emitted exactly when it is not a stop word and is not yet in the
    output array of the whole [tokenize] call: neither among the tokens
    of earlier parts ([tokens]) nor among those of this part. *)
Theorem camel_original_stem_dedup (stem : string -> string) tokens part :
  camel_part part ->
  tokenize_part stem tokens part
  = tokens ++ camel_tokens stem part
    ++ (if negb (has STOP_WORDS (stem (toLowerCase part)))
           && negb (includes (tokens ++ camel_tokens stem part) (stem (toLowerCase part)))
        then [stem (toLowerCase part)]
        else []).
Proof.
  intros H. rewrite (tokenize_part_camel stem tokens part H). cbv zeta.
  destruct (negb _ && negb _); [reflexivity | now rewrite app_nil_r].
Qed.

Lemma camel_original_stem_dedup_witness :
  camel_part "fooBar"
  /\ tokenize_part PorterStemmer.stem ["foobar"] "fooBar" = ["foobar"; "foo"; "bar"].
Proof.
  assert (H : camel_part "fooBar") by (unfold camel_part; vm_compute; auto).
  split; [exact H|].
  rewrite (camel_original_stem_dedup PorterStemmer.stem ["foobar"] "fooBar" H).
  vm_compute. reflexivity.
Defined.

(** C6, as stated, fails: in "foobar fooBar" the stem "foobar" of the
    second part is not a stop word and is not among the tokens "foo",
    "bar" of that part, yet it is not emitted again, because the first
    part has already put it in the output. *)
Lemma camel_dedup_scoped_counterexample :
  ~ (forall tokens part,
        camel_part part ->
        tokenize_part PorterStemmer.stem tokens part
        = tokenize_part_scoped PorterStemmer.stem tokens part).
Proof.
  intros H.
  assert (Hc : camel_part "fooBar") by (unfold camel_part; vm_compute; auto).
  specialize (H (tokenize_part PorterStemmer.stem [] "foobar") "fooBar" Hc).
  vm_compute in H. discriminate H.
Qed.

(** C7, as amended.  The separator of bigrams is the underscore, which
    TOKEN_RE admits inside a word.  When the text contains no underscore
    and the stemmer adds none, no unigram contains the separator, every
    bigram contains it, and so no bigram of the text equals one of its
    unigrams. *)
Theorem separator_free_without_underscore (stem : string -> string) text :
  (forall s, no_sep s -> no_sep (stem s)) ->
  no_sep text ->
  (forall tok, In tok (tokenize stem text) -> contains_char "_" tok = false)
  /\ (forall b, In b (generateBigrams (tokenize stem text)) ->
                contains_char "_" b = true /\ ~ In b (tokenize stem text)).
Proof.
  intros Hstem Htext.
  assert (U : forall tok, In tok (tokenize stem text) -> no_sep tok).
  { assert (F : Forall no_sep (tokenize stem text)).
    { apply tokenize_Forall; [auto|].
      pose proof (no_sep_scan_token None text 0 Htext) as Hm.
      unfold match_all. rewrite Forall_forall in Hm. apply Forall_forall.
      intros m (r & <- & Hr)%list_elem_of_In%in_map_iff.
      specialize (Hm r (proj2 (list_elem_of_In _ _) Hr)).
      assert (Pk : forall w, no_sep w -> part_ok no_sep w).
      { intros w Hw. split.
        - intros _. now apply no_sep_toLowerCase.
        - pose proof (no_sep_split_camel w Hw) as Hc.
          rewrite Forall_forall in Hc. apply Forall_forall. intros p Hp _.
          apply no_sep_toLowerCase. now apply Hc. }
      split; [now apply Pk|].
      pose proof (no_sep_split_char "-" (m0 r) Hm) as Hs.
      rewrite Forall_forall in Hs. apply Forall_forall. intros p Hp.
      apply Pk. now apply Hs. }
    rewrite Forall_forall in F. intros tok Ht. apply F. now apply list_elem_of_In. }
  split; [exact U|].
  intros b Hb. pose proof (generateBigrams_sep _ _ Hb) as Hsep.
  split; [assumption|]. intros Hin. apply U in Hin. unfold no_sep in Hin. congruence.
Qed.

Lemma separator_free_without_underscore_witness :
  no_sep "stdio transport uses json-rpc"
  /\ (forall tok, In tok (tokenize PorterStemmer.stem "stdio transport uses json-rpc") ->
                  contains_char "_" tok = false).
Proof.
  assert (H : no_sep "stdio transport uses json-rpc") by (vm_compute; reflexivity).
  split; [exact H|].
  exact (proj1 (separator_free_without_underscore PorterStemmer.stem
                  "stdio transport uses json-rpc" PorterFacts.stem_no_sep H)).
Defined.

(** C7, as stated, fails: the word "b_c" is a unigram that contains the
    separator, and it is also the bigram of "b" and "c". *)
Lemma separator_counterexample :
  ~ separator_free_unigrams PorterStemmer.stem
  /\ In "b_c" (tokenize PorterStemmer.stem "b_c b c")
  /\ In "b_c" (generateBigrams (tokenize PorterStemmer.stem "b_c b c")).
Proof.
  split; [|split].
  - intros H. specialize (H "b_c" "b_c").
    assert (Hin : In "b_c" (tokenize PorterStemmer.stem "b_c")) by (vm_compute; auto).
    apply H in Hin. vm_compute in Hin. discriminate Hin.
  - vm_compute. auto.
  - vm_compute. auto.
Qed.

(** ** Index *)

(** C8.  After any sequence of [add] calls on a fresh index, the
    document-frequency counter of every token is the number of indexed
    documents whose tokens (unigrams and bigrams of the haystack) contain
    it; one more [add] raises the counter by one when the new document
    contains the token, however often, and leaves it alone otherwise. *)
Theorem document_frequency_counts_documents (stem : string -> string) st tok :
  reachable stem st ->
  df_of st tok = docs_containing stem tok (docs st)
  /\ (forall doc, exists st',
        add stem doc st = Some (tt, st')
        /\ df_of st' tok
           = df_of st tok + (if includes (allTokens stem doc) tok then 1 else 0)).
Proof.
  intros H. split; [now apply reachable_df|].
  intros doc. destruct (add_run stem doc st) as (st' & Hadd & _ & _ & _ & Hdf & _).
  exists st'. auto.
Qed.

Lemma document_frequency_counts_documents_witness :
  reachable PorterStemmer.stem Examples.tools_index
  /\ df_of Examples.tools_index "tool" = 2
  /\ df_of Examples.tools_index "rpc" = 1
  /\ df_of Examples.tools_index "tool_mcp" = 2.
Proof.
  pose proof (index_of_reachable PorterStemmer.stem
                [Examples.doc_tools; Examples.doc_rpc; Examples.doc_tools]) as Hr.
  split; [exact Hr|]. split; [|split].
  - rewrite (proj1 (document_frequency_counts_documents PorterStemmer.stem
                      Examples.tools_index "tool" Hr)).
    vm_compute. reflexivity.
  - rewrite (proj1 (document_frequency_counts_documents PorterStemmer.stem
                      Examples.tools_index "rpc" Hr)).
    vm_compute. reflexivity.
  - rewrite (proj1 (document_frequency_counts_documents PorterStemmer.stem
                      Examples.tools_index "tool_mcp" Hr)).
    vm_compute. reflexivity.
Defined.

(** ** Scoring *)

(** C4.  For a document and a token (a non-empty string), the weighted
    term frequency of the scorer is content_count + title_count *
    title_boost + heading_count * 4 + code_block_count * 2 + link_count *
    2, where title_boost is 8 for an empty content, 5 for a content of
    fewer than 800 characters and 3 otherwise, and each count is the
    number of occurrences of the token, counted from the left without
    overlap, in the lower-cased extract of the original document: the
    [indexOf] loop of [countOccurrences] computes that number, which does
    not depend on the case of the letters of the extract. *)
Theorem weighted_tf_formula doc token :
  token <> EmptyString ->
  let count := fun extract => occurrences token (toLowerCase extract) in
  let title_boost :=
    if String.length (content doc) =? 0 then 8
    else if String.length (content doc) <? 800 then 5
    else 3 in
  weightedTf doc token
  = Some (count (content doc)
          + count (indexTitle doc) * title_boost
          + count (extractMatches (content doc) MD_HEADER_RE) * 4
          + count (extractMatches (content doc) MD_CODE_BLOCK_RE) * 2
          + count (extractMatches (content doc) MD_LINK_TEXT_RE) * 2)
  /\ (forall text, countOccurrences text token = Some (count text))
  /\ (forall text text', toLowerCase text = toLowerCase text' ->
                         countOccurrences text token = countOccurrences text' token).
Proof.
  intros Ht. cbv zeta. split; [now rewrite (weightedTf_total doc token Ht)|].
  split.
  - intros text. now apply countOccurrences_total.
  - intros text text' E. rewrite !countOccurrences_total by assumption. now rewrite E.
Qed.

Lemma weighted_tf_formula_witness :
  "tool" <> EmptyString
  /\ weightedTf Examples.doc_tools "tool" = Some (2 + 1 * 5 + 1 * 4 + 0 * 2 + 0 * 2).
Proof.
  assert (H : "tool" <> EmptyString) by discriminate.
  split; [exact H|].
  rewrite (proj1 (weighted_tf_formula Examples.doc_tools "tool" H)).
  vm_compute. reflexivity.
Defined.

(** C3.  On every reachable state, for every document, every token (a
    non-empty string) and every position, [calculateBM25Score] returns a
    real number that is not negative: the argument of the logarithm of
    the IDF is strictly positive (it is at least 1), and the denominator
    of the TF component is at least k1 * (1 - b) = 0.375, so nothing is
    divided by zero. *)
Theorem bm25_score_nonnegative (stem : string -> string) st doc token docIdx :
  reachable stem st -> token <> EmptyString ->
  exists w s,
    weightedTf doc token = Some w
    /\ calculateBM25Score doc token docIdx st = Some (s, st)
    /\ s = (ln (Q2R (idf_arg (nDocs_of st) (df_of st token)))
            * Q2R (num w * (K1 + 1)
                   / tf_denominator w (docLength_of st docIdx) (avgLen_of st)))%R
    /\ (0 < idf_arg (nDocs_of st) (df_of st token))%Q
    /\ (K1 * (1 - B) == 0.375)%Q
    /\ (0.375 <= tf_denominator w (docLength_of st docIdx) (avgLen_of st))%Q
    /\ (0 <= s)%R.
Proof.
  intros Hr Ht.
  pose proof (weightedTf_total doc token Ht) as Hw.
  set (w := _ + _ + _ + _ + _) in Hw.
  pose proof (avgLen_of_ge1 st) as Havg.
  assert (Havg0 : (0 < avgLen_of st)%Q) by Lqa.lra.
  pose proof (idf_arg_ge1 _ _ (reachable_df_le stem st token Hr)) as Hidf.
  exists w. eexists. split; [exact Hw|]. split; [apply calculateBM25Score_run, Hw|].
  split; [reflexivity|]. split; [Lqa.lra|]. split; [reflexivity|].
  split; [now apply tf_denominator_bound|].
  apply Rmult_le_pos.
  - apply ln_nonneg, Q2R_ge1, Hidf.
  - apply Q2R_nonneg. now apply tf_component_nonneg.
Qed.

Lemma bm25_score_nonnegative_witness :
  reachable PorterStemmer.stem Examples.tools_index
  /\ "tool" <> EmptyString
  /\ exists s, calculateBM25Score Examples.doc_tools "tool" 0 Examples.tools_index
               = Some (s, Examples.tools_index)
               /\ (0 <= s)%R.
Proof.
  pose proof (index_of_reachable PorterStemmer.stem
                [Examples.doc_tools; Examples.doc_rpc; Examples.doc_tools]) as Hr.
  assert (Ht : "tool" <> EmptyString) by discriminate.
  split; [exact Hr|]. split; [exact Ht|].
  destruct (bm25_score_nonnegative PorterStemmer.stem Examples.tools_index
              Examples.doc_tools "tool" 0 Hr Ht)
    as (w & s & _ & Hs & _ & _ & _ & _ & Hpos).
  exists s. split; assumption.
Defined.

(** C5, as amended.  For the document at position [i] of a reachable
    index and a token, the score is the IDF times the TF component
    weighted_tf * (k1 + 1) / (weighted_tf + k1 * (1 - b + b * (doc_length
    / avg_length))) with k1 = 1.5 and b = 0.75, where doc_length is the
    number of unigrams and bigrams recorded for the document at
    insertion, replaced by 1 when that number is 0, and avg_length is the
    mean of the recorded lengths, floored at 1. *)
Theorem tf_component_formula (stem : string -> string) st i d token w :
  reachable stem st -> docs st !! i = Some d -> weightedTf d token = Some w ->
  let recorded := length (allTokens stem d) in
  let doc_length := if recorded =? 0 then 1 else recorded in
  let avg_length :=
    Qmax (mean (map (fun d => length (allTokens stem d)) (docs st))) 1 in
  docLengths st !! i = Some recorded
  /\ calculateBM25Score d token i st
     = Some ((ln (Q2R (idf_arg (nDocs_of st) (df_of st token)))
              * Q2R (num w * (1.5 + 1)
                     / (num w + 1.5 * (1 - 0.75 + 0.75 * (num doc_length / avg_length)))))%R,
             st).
Proof.
  intros Hr Hd Hw. cbv zeta.
  assert (Hl : docLengths st !! i = Some (length (allTokens stem d))).
  { rewrite (reachable_docLengths stem st Hr).
    change (map ?f ?l) with (f <$> l). now rewrite list_lookup_fmap, Hd. }
  split; [exact Hl|].
  rewrite (calculateBM25Score_run _ _ _ _ _ Hw).
  assert (E1 : docLength_of st i
               = if length (allTokens stem d) =? 0 then 1 else length (allTokens stem d)).
  { unfold docLength_of. rewrite Hl. now destruct (length (allTokens stem d)). }
  assert (E2 : avgLen_of st
               = Qmax (mean (map (fun d => length (allTokens stem d)) (docs st))) 1).
  { unfold avgLen_of.
    now rewrite (reachable_avgDocLength stem st Hr), (reachable_docLengths stem st Hr). }
  rewrite E1, E2. reflexivity.
Qed.

Lemma tf_component_formula_witness :
  reachable PorterStemmer.stem Examples.one_empty
  /\ docs Examples.one_empty !! 0 = Some Examples.doc_the
  /\ weightedTf Examples.doc_the "th" = Some 1
  /\ docLengths Examples.one_empty !! 0 = Some 0
  /\ exists idf,
       calculateBM25Score Examples.doc_the "th" 0 Examples.one_empty
       = Some ((idf * Q2R (num 1 * (1.5 + 1)
                           / (num 1 + 1.5 * (1 - 0.75 + 0.75 * (num 1 / 1)))))%R,
               Examples.one_empty).
Proof.
  pose proof (index_of_reachable PorterStemmer.stem [Examples.doc_the]) as Hr.
  assert (Hd : docs Examples.one_empty !! 0 = Some Examples.doc_the)
    by (vm_compute; reflexivity).
  assert (Hw : weightedTf Examples.doc_the "th" = Some 1) by (vm_compute; reflexivity).
  destruct (tf_component_formula PorterStemmer.stem Examples.one_empty 0
              Examples.doc_the "th" 1 Hr Hd Hw) as [Hl Hs].
  split; [exact Hr|]. split; [exact Hd|]. split; [exact Hw|].
  split; [exact Hl|]. eexists. exact Hs.
Defined.

(** C5, as stated, fails: the document "the" is recorded with length 0,
    and its score for the token "th" is computed with length 1, not 0. *)
Lemma tf_recorded_length_counterexample :
  ~ tf_uses_recorded_length PorterStemmer.stem.
Proof.
  intros H.
  pose proof (index_of_reachable PorterStemmer.stem [Examples.doc_the]) as Hr.
  assert (Hd : docs Examples.one_empty !! 0 = Some Examples.doc_the)
    by (vm_compute; reflexivity).
  assert (Hl : docLengths Examples.one_empty !! 0 = Some 0) by (vm_compute; reflexivity).
  assert (Hw : weightedTf Examples.doc_the "th" = Some 1) by (vm_compute; reflexivity).
  specialize (H Examples.one_empty 0 Examples.doc_the "th" 1 0 Hr Hd Hl Hw).
  rewrite (calculateBM25Score_run _ _ _ _ _ Hw) in H.
  injection H as H.
  assert (Hidf : (1 < idf_arg (nDocs_of Examples.one_empty) (df_of Examples.one_empty "th"))%Q)
    by (vm_compute; reflexivity).
  apply Qlt_Rlt in Hidf. replace (Q2R 1) with 1%R in Hidf by (unfold Q2R; simpl; Lra.lra).
  assert (Hln : (0 < ln (Q2R (idf_arg (nDocs_of Examples.one_empty)
                                 (df_of Examples.one_empty "th"))))%R).
  { rewrite <- ln_1. apply ln_increasing; Lra.lra. }
  apply Rmult_eq_reg_l in H; [|Lra.lra].
  apply eqR_Qeq in H. vm_compute in H. discriminate H.
Qed.

(** ** Search *)

Lemma Forall2_firstn {A B} (R : A -> B -> Prop) n l1 l2 :
  Forall2 R l1 l2 -> Forall2 R (firstn n l1) (firstn n l2).
Proof.
  intros H. revert n. induction H; intros [|n]; simpl; constructor; auto.
Qed.

Lemma NoDup_firstn {A} n (l : list A) : NoDup l -> NoDup (firstn n l).
Proof.
  intros H. rewrite <- (firstn_skipn n l) in H. now apply NoDup_app in H as [H _].
Qed.

(** C2.  [search] returns on every reachable state, whatever the query
    and [k]; and on every state it returns the empty list for the empty
    query, for an index without documents, for a query made of stop words
    only, and for a query none of whose tokens has a posting. *)
Theorem search_never_fails (stem : string -> string) :
  (forall s, s <> EmptyString -> stem s <> EmptyString) ->
  (forall st query k, reachable stem st ->
                      exists results, search stem query k st = Some (results, st))
  /\ (forall st k, search stem "" k st = Some ([], st))
  /\ (forall st query k, docs st = [] -> search stem query k st = Some ([], st))
  /\ (forall st query k, only_stopwords query -> search stem query k st = Some ([], st))
  /\ (forall st query k,
        (forall tok, In tok (query_tokens stem query) -> postings st tok = []) ->
        search stem query k st = Some ([], st)).
Proof.
  intros Hstem. split; [|split; [|split; [|split]]].
  - intros st query k Hr. now apply search_total.
  - intros st k. apply search_no_postings. intros tok [].
  - intros st query k. apply search_empty_index.
  - intros st query k Hq. apply search_no_postings.
    unfold query_tokens. rewrite (tokenize_only_stopwords stem query Hq).
    intros tok [].
  - intros st query k. apply search_no_postings.
Qed.

Lemma search_never_fails_witness :
  (exists results, search PorterStemmer.stem "stdio transport" 5 Examples.tools_index
                   = Some (results, Examples.tools_index))
  /\ search PorterStemmer.stem "" 5 Examples.tools_index = Some ([], Examples.tools_index)
  /\ search PorterStemmer.stem "tools" 5 empty_index = Some ([], empty_index)
  /\ search PorterStemmer.stem "xyznonexistent" 5 Examples.tools_index
     = Some ([], Examples.tools_index).
Proof.
  destruct (search_never_fails PorterStemmer.stem PorterFacts.stem_nonempty)
    as (H1 & H2 & H3 & _ & H5).
  split; [|split; [|split]].
  - apply H1. apply index_of_reachable.
  - apply H2.
  - apply H3. reflexivity.
  - apply H5. intros tok Ht. vm_compute in Ht.
    destruct Ht as [<-|[]]. vm_compute. reflexivity.
Defined.

(** C9.  The list [search] returns shows every position of the index at
    most once: there is a list of distinct positions, one for each result
    and in the same order, whose documents are those of the results; each
    of them is in the posting list of a query token, however often it is
    recorded there and in however many of these lists. *)
Theorem search_results_distinct (stem : string -> string) :
  (forall s, s <> EmptyString -> stem s <> EmptyString) ->
  (forall st query k results st',
      search stem query k st = Some (results, st') ->
      exists idxs,
        NoDup idxs /\ Forall2 (at_position st) results idxs
        /\ (forall i, In i idxs ->
                      exists qt, In qt (query_tokens stem query)
                                 /\ In i (postings st qt)))
  /\ (forall st query k, reachable stem st ->
                         exists results, search stem query k st = Some (results, st)).
Proof.
  intros Hstem. split; [|intros; now apply search_total].
  intros st query k results st' H.
  apply search_inv in H as (_ & [[_ ->] | (scores & unsorted & Hk & HF & ->)]).
  { exists []. split; [constructor|]. split; [constructor | intros i []]. }
  destruct (Forall2_Permutation_l _ _ _ _ (sort_desc_perm unsorted) HF)
    as (scores' & Hp & HF').
  destruct (slice0_sublist (sort_desc unsorted) k) as (n & ->).
  assert (Hpk : Permutation (map fst scores) (map fst scores'))
    by now apply Permutation_map.
  exists (firstn n (map fst scores')). split; [|split].
  - apply NoDup_firstn. rewrite <- Hpk, Hk. apply first_occurrences_NoDup.
  - apply Forall2_firstn.
    clear -HF'. induction HF' as [|r e l1 l2 [_ Hre] _ IH]; simpl; constructor; assumption.
  - intros i Hi.
    assert (Hi' : In i (map fst scores')).
    { rewrite <- (firstn_skipn n (map fst scores')). apply in_or_app. now left. }
    apply (Permutation_in _ (Permutation_sym Hpk)) in Hi'. rewrite Hk in Hi'.
    apply fold_note_In in Hi' as [[]|Hi'].
    apply in_flat_map in Hi' as (qt & Hq & Hp'). eauto.
Qed.

Lemma search_results_distinct_witness :
  exists results idxs,
    search PorterStemmer.stem "tools rpc" 5 Examples.tools_index
    = Some (results, Examples.tools_index)
    /\ NoDup idxs /\ Forall2 (at_position Examples.tools_index) results idxs.
Proof.
  destruct (search_results_distinct PorterStemmer.stem PorterFacts.stem_nonempty)
    as (H1 & H2).
  destruct (H2 Examples.tools_index "tools rpc" 5%Z
              (index_of_reachable PorterStemmer.stem _)) as (results & Hs).
  destruct (H1 _ _ _ _ _ Hs) as (idxs & Hn & Hf & _).
  exists results, idxs. auto.
Defined.

(** C10.  [search] only reads the index: whenever it returns, the
    document list, the posting lists, the document-frequency counters,
    the recorded lengths and the average length are what they were before
    the call; and on a reachable state it does return. *)
Theorem search_leaves_index_unchanged (stem : string -> string) :
  (forall s, s <> EmptyString -> stem s <> EmptyString) ->
  (forall st query k results st',
      search stem query k st = Some (results, st') ->
      st' = st
      /\ docs st' = docs st /\ docIndices st' = docIndices st
      /\ docFrequency st' = docFrequency st /\ docLengths st' = docLengths st
      /\ avgDocLength st' = avgDocLength st)
  /\ (forall st query k, reachable stem st ->
                         exists results, search stem query k st = Some (results, st)).
Proof.
  intros Hstem. split; [|intros; now apply search_total].
  intros st query k results st' H.
  apply read_only_search in H as ->. repeat split.
Qed.

Lemma search_leaves_index_unchanged_witness :
  exists results,
    search PorterStemmer.stem "tools rpc" 5 Examples.tools_index
    = Some (results, Examples.tools_index).
Proof.
  apply (proj2 (search_leaves_index_unchanged PorterStemmer.stem
                  PorterFacts.stem_nonempty)).
  apply index_of_reachable.
Defined.

(** C1, as amended.  For every state on which it returns (every state
    built by [add] calls is one), every query and every k >= 0, [search]
    returns at most k results, by descending score: nothing when the
    index has no document, and otherwise the first k of the stable sort
    of the accumulator, so that results of equal score keep the order in
    which their documents first entered the accumulator, the order of
    first occurrence in the posting lists of the query tokens taken token
    by token. *)
Theorem search_ranked_by_score (stem : string -> string) :
  (forall s, s <> EmptyString -> stem s <> EmptyString) ->
  (forall st query k results st',
      (0 <= k)%Z ->
      search stem query k st = Some (results, st') ->
      length results <= Z.to_nat k
      /\ descending results
      /\ ((docs st = [] /\ results = [])
          \/ exists unsorted,
               Forall2 (at_position st) unsorted (accumulator_order stem st query)
               /\ results = firstn (Z.to_nat k) (sort_desc unsorted)
               /\ (forall s, List.filter (has_score s) (sort_desc unsorted)
                             = List.filter (has_score s) unsorted)))
  /\ (forall st query k, reachable stem st ->
                         exists results, search stem query k st = Some (results, st)).
Proof.
  intros Hstem. split; [|intros; now apply search_total].
  intros st query k results st' Hk Hs.
  apply search_inv in Hs as (_ & [[Hd ->] | (scores & unsorted & Hkeys & HF & ->)]).
  - split; [simpl; lia|].
    split; [intros i j ri rj _ Hi; rewrite lookup_nil in Hi; discriminate|].
    left. auto.
  - rewrite (slice0_nonneg _ _ Hk).
    split; [apply firstn_le_length|].
    split; [apply StronglySorted_descending, StronglySorted_firstn, sort_desc_sorted|].
    right. exists unsorted. split; [|split].
    + rewrite <- Hkeys. clear -HF.
      induction HF as [|r e l1 l2 [_ Hre] _ IH]; simpl; constructor; assumption.
    + reflexivity.
    + intros s. apply sort_desc_stable.
Qed.

Lemma search_ranked_by_score_witness :
  reachable PorterStemmer.stem Examples.tools_index /\ (0 <= 2)%Z
  /\ exists results,
       search PorterStemmer.stem "tools rpc" 2 Examples.tools_index
       = Some (results, Examples.tools_index)
       /\ length results <= 2 /\ descending results.
Proof.
  pose proof (index_of_reachable PorterStemmer.stem
                [Examples.doc_tools; Examples.doc_rpc; Examples.doc_tools]) as Hr.
  assert (Hk : (0 <= 2)%Z) by lia.
  split; [exact Hr|]. split; [exact Hk|].
  destruct (search_ranked_by_score PorterStemmer.stem PorterFacts.stem_nonempty)
    as (H1 & H2).
  destruct (H2 Examples.tools_index "tools rpc" 2%Z Hr) as (results & Hs).
  destruct (H1 _ _ _ _ _ Hk Hs) as (Hl & Hd & _).
  exists results. auto.
Defined.

(** the search for "json rpc" in the index of the documents "rpc" (position
    0) and "json" (position 1): both documents get the same score, and the
    document at position 1 comes first *)
Lemma two_docs_search :
  exists v,
    search PorterStemmer.stem "json rpc" 8 Examples.two_docs
    = Some ([ {| score := v; doc := Examples.doc_json |};
              {| score := v; doc := Examples.doc_rpc |} ], Examples.two_docs).
Proof.
  set (st := Examples.two_docs).
  assert (Hn : (length (docs st) =? 0) = false) by (vm_compute; reflexivity).
  assert (Hq : tokenize PorterStemmer.stem "json rpc"
               ++ generateBigrams (tokenize PorterStemmer.stem "json rpc")
               = ["json"; "rpc"; "json_rpc"]) by (vm_compute; reflexivity).
  assert (Hp1 : default [] (docIndices st !! "json") = [1]) by (vm_compute; reflexivity).
  assert (Hp2 : default [] (docIndices st !! "rpc") = [0]) by (vm_compute; reflexivity).
  assert (Hp3 : default [] (docIndices st !! "json_rpc") = []) by (vm_compute; reflexivity).
  assert (Hd1 : docs st !! 1 = Some Examples.doc_json) by (vm_compute; reflexivity).
  assert (Hd0 : docs st !! 0 = Some Examples.doc_rpc) by (vm_compute; reflexivity).
  assert (Hw1 : weightedTf Examples.doc_json "json" = Some 1) by (vm_compute; reflexivity).
  assert (Hw0 : weightedTf Examples.doc_rpc "rpc" = Some 1) by (vm_compute; reflexivity).
  assert (Hf1 : df_of st "json" = 1) by (vm_compute; reflexivity).
  assert (Hf0 : df_of st "rpc" = 1) by (vm_compute; reflexivity).
  assert (Hl1 : docLength_of st 1 = 1) by (vm_compute; reflexivity).
  assert (Hl0 : docLength_of st 0 = 1) by (vm_compute; reflexivity).
  exists (0 + ln (Q2R (idf_arg (nDocs_of st) 1)) * Q2R (tf_component 1 1 (avgLen_of st)))%R.
  unfold search. rewrite run_bind. cbn [gets]. rewrite Hn, Hq.
  rewrite run_bind. cbn [for_each].
  rewrite run_bind. unfold search_token at 1. rewrite run_bind. cbn [gets].
  rewrite Hp1. cbn [for_each]. rewrite run_bind.
  rewrite (search_posting_run "json" [] 1 st _ _ Hd1 Hw1), Hf1, Hl1.
  unfold mret at 1, M_ret at 1.
  rewrite run_bind. unfold search_token at 1. rewrite run_bind. cbn [gets].
  rewrite Hp2. cbn [for_each]. rewrite run_bind.
  rewrite (search_posting_run "rpc" _ 0 st _ _ Hd0 Hw0), Hf0, Hl0.
  unfold mret at 1, M_ret at 1.
  rewrite run_bind. unfold search_token at 1. rewrite run_bind. cbn [gets].
  rewrite Hp3. cbn [for_each]. unfold mret at 1 2, M_ret at 1 2.
  set (x := (ln _ * Q2R _)%R).
  cbn [scores_get scores_set find fst snd Nat.eqb fmap option_fmap option_map default].
  rewrite run_bind. cbn [for_each].
  repeat rewrite run_bind.
  rewrite (to_result_run (1, (0 + x)%R) st _ Hd1).
  unfold mret, M_ret. cbv beta iota.
  repeat rewrite run_bind.
  rewrite (to_result_run (0, (0 + x)%R) st _ Hd0).
  cbv beta iota. cbn [app sort_desc fold_right insert_desc score fst snd].
  destruct (Rlt_dec (0 + x) (0 + x)) as [Hlt|_]; [exfalso; Lra.lra|].
  reflexivity.
Qed.

(** C1, as stated, fails on ties: "json rpc" over the documents "rpc"
    (position 0) and "json" (position 1) gives both the same score and
    lists position 1 first. *)
Lemma search_ties_counterexample :
  ~ ranked_with_ties_by_position PorterStemmer.stem.
Proof.
  intros H. destruct two_docs_search as (v & Hs).
  destruct (H Examples.two_docs "json rpc" 8%Z _ _
              (index_of_reachable PorterStemmer.stem _) ltac:(lia) Hs)
    as (_ & _ & Ht).
  specialize (Ht 0 1 _ _ 1 0 ltac:(lia) eq_refl eq_refl eq_refl).
  assert (1 < 0); [|lia].
  apply Ht; vm_compute; reflexivity.
Qed.

(** * Further properties *)

(** ** Bigrams and tokens *)

(** X1.  [generateBigrams] turns n tokens into n - 1 bigrams (none for n
    <= 1), the i-th being token i, an underscore and token i + 1. *)
Theorem generateBigrams_adjacent_pairs (tokens : list string) :
  length (generateBigrams tokens) = length tokens - 1
  /\ (forall i a b,
        tokens !! i = Some a -> tokens !! S i = Some b ->
        generateBigrams tokens !! i = Some (a +:+ "_" +:+ b)).
Proof.
  induction tokens as [|x tokens [IHl IHi]]; [split; [reflexivity | intros i a b H; destruct i; discriminate]|].
  destruct tokens as [|y tokens].
  - split; [reflexivity|]. intros [|i] a b _ H; discriminate H.
  - split.
    + cbn [generateBigrams length] in *. lia.
    + intros [|i] a b Ha Hb.
      * cbn in Ha, Hb. injection Ha as <-. injection Hb as <-. reflexivity.
      * cbn [generateBigrams]. apply (IHi i a b); assumption.
Qed.

Section TokenizerExtras.

Variable stem : string -> string.

Lemma camel_step_no_stopword tokens p :
  Forall (fun t => has STOP_WORDS t = false) tokens ->
  Forall (fun t => has STOP_WORDS t = false) (camel_step stem tokens p).
Proof.
  intros Ht. unfold camel_step.
  destruct (is_empty (toLowerCase p)); simpl; [assumption|].
  destruct (has STOP_WORDS (toLowerCase p)) eqn:E1; simpl; [assumption|].
  destruct (has PRESERVE_TERMS (toLowerCase p)).
  - apply Forall_app. split; [assumption | constructor; [assumption | constructor]].
  - destruct (has STOP_WORDS (stem (toLowerCase p))) eqn:E2; simpl; [assumption|].
    apply Forall_app. split; [assumption | constructor; [assumption | constructor]].
Qed.

Lemma tokenize_part_no_stopword tokens part :
  Forall (fun t => has STOP_WORDS t = false) tokens ->
  Forall (fun t => has STOP_WORDS t = false) (tokenize_part stem tokens part).
Proof.
  intros Ht. unfold tokenize_part.
  destruct (is_empty (toLowerCase part)); simpl; [assumption|].
  destruct (has STOP_WORDS (toLowerCase part)) eqn:E1; [assumption|].
  destruct (has PRESERVE_TERMS (toLowerCase part)).
  { apply Forall_app. split; [assumption | constructor; [assumption | constructor]]. }
  assert (Hc : forall ps acc, Forall (fun t => has STOP_WORDS t = false) acc ->
                 Forall (fun t => has STOP_WORDS t = false)
                   (fold_left (camel_step stem) ps acc)).
  { induction ps as [|p ps IH]; intros acc Ha; simpl; [assumption|].
    apply IH. now apply camel_step_no_stopword. }
  destruct (test_camel part).
  - destruct (has STOP_WORDS (stem (toLowerCase part))) eqn:E2; simpl; [now apply Hc|].
    match goal with |- context [if ?b then _ else _] => destruct b end; [|now apply Hc].
    apply Forall_app. split; [now apply Hc | constructor; [assumption | constructor]].
  - destruct (has STOP_WORDS (stem (toLowerCase part))) eqn:E2; simpl; [assumption|].
    apply Forall_app. split; [assumption | constructor; [assumption | constructor]].
Qed.

(** X2.  Whatever the stemmer does, no token that [tokenize] emits is a
    stop word: a word is dropped when it is one, and so is a stem. *)
Theorem tokenize_emits_no_stopword text :
  Forall (fun t => has STOP_WORDS t = false) (tokenize stem text).
Proof.
  unfold tokenize. generalize (match_all TOKEN_RE text). intros ms.
  assert (G : forall ms acc, Forall (fun t => has STOP_WORDS t = false) acc ->
                Forall (fun t => has STOP_WORDS t = false)
                  (fold_left (tokenize_match stem) ms acc)).
  { clear ms. induction ms as [|m ms IH]; intros acc Ha; simpl; [assumption|].
    apply IH. unfold tokenize_match.
    generalize (if contains_char "-" m then split_char "-" m else [m]). intros parts.
    revert acc Ha. induction parts as [|p parts IHp]; intros acc Ha; simpl; [assumption|].
    apply IHp. now apply tokenize_part_no_stopword. }
  apply G. constructor.
Qed.

Lemma scan_token_no_word prev s skip :
  all_chars (fun c => negb (is_word c)) s = true -> scan TOKEN_RE prev s skip = [].
Proof.
  revert prev skip. induction s as [|c s IH]; intros prev skip H.
  - destruct skip; reflexivity.
  - simpl in H. apply andb_true_iff in H as [Hc Hs].
    apply negb_true_iff in Hc.
    destruct skip; simpl; [rewrite Hc|]; now apply IH.
Qed.

(** X3.  A text without any letter, digit or underscore (the empty text,
    white space, punctuation) has no token. *)
Theorem tokenize_without_words text :
  all_chars (fun c => negb (is_word c)) text = true -> tokenize stem text = [].
Proof.
  intros H. unfold tokenize, match_all. now rewrite scan_token_no_word.
Qed.

End TokenizerExtras.

Lemma tokenize_without_words_witness :
  all_chars (fun c => negb (is_word c)) "... - (?!) -- " = true
  /\ tokenize PorterStemmer.stem "... - (?!) -- " = [].
Proof.
  assert (H : all_chars (fun c => negb (is_word c)) "... - (?!) -- " = true)
    by (vm_compute; reflexivity).
  split; [exact H|].
  exact (tokenize_without_words PorterStemmer.stem "... - (?!) -- " H).
Defined.

(** ** Counting *)





(** ** What [extractMatches] extracts *)

Lemma scan_Forall (re : RegExp) (P : RegExpMatch -> Prop) :
  (forall prev s m, match_at re prev s = Some m -> P m) ->
  forall s prev skip, List.Forall P (scan re prev s skip).
Proof.
  intros H. induction s as [|c s IH]; intros prev skip.
  - destruct skip; cbn [scan]; [|constructor].
    destruct (match_at re prev "") as [m|] eqn:E; [|constructor].
    constructor; [now apply (H prev "") | constructor].
  - destruct skip as [|k]; cbn [scan]; [|apply IH].
    destruct (match_at re prev (String c s)) as [m|] eqn:E; [|apply IH].
    constructor; [now apply (H prev (String c s)) | apply IH].
Qed.

Lemma takes_group_intro whole c g :
  takes_group {| m0 := whole; m1 := Some (String c g) |}.
Proof. exists (String c g). split; [reflexivity|]. split; [discriminate | reflexivity]. Qed.

Lemma MD_HEADER_RE_group prev s m :
  match_at MD_HEADER_RE prev s = Some m -> takes_group m.
Proof.
  unfold MD_HEADER_RE. cbn [match_at].
  destruct (at_line_start prev); [|discriminate].
  destruct (span (Ascii.eqb "#") s) as [hs r].
  destruct (_ && _); [|discriminate].
  destruct (span is_space r) as [w r2].
  destruct w as [|w0 wt]; [discriminate|].
  destruct (span _ r2) as [d r3].
  destruct d.
  - destruct (last_non_lt wt) as [[pre x]|]; [|discriminate].
    intros [= <-]. apply takes_group_intro.
  - intros [= <-]. apply takes_group_intro.
Qed.

Lemma MD_INLINE_CODE_RE_group prev s m :
  match_at MD_INLINE_CODE_RE prev s = Some m -> takes_group m.
Proof.
  intros H. unfold MD_INLINE_CODE_RE in H. cbn [match_at] in H.
  destruct s as [|c r]; [discriminate|].
  destruct (span (fun c0 => negb (Ascii.eqb c0 "`")) r) as [cap r2] eqn:E.
  repeat match type of H with
         | match ?x with _ => _ end = _ => destruct x; try discriminate
         end.
  injection H as <-. apply takes_group_intro.
Qed.

Lemma MD_LINK_TEXT_RE_group prev s m :
  match_at MD_LINK_TEXT_RE prev s = Some m -> takes_group m.
Proof.
  intros H. unfold MD_LINK_TEXT_RE in H. cbn [match_at] in H.
  destruct s as [|c r]; [discriminate|].
  destruct (span (fun c0 => negb (Ascii.eqb c0 "]")) r) as [cap r2] eqn:E.
  repeat match type of H with
         | match ?x with _ => _ end = _ => destruct x; try discriminate
         | (let '(_, _) := ?x in _) = _ => destruct x
         end.
  injection H as <-. apply takes_group_intro.
Qed.

Lemma MD_CODE_BLOCK_RE_group prev s m :
  match_at MD_CODE_BLOCK_RE prev s = Some m -> takes_group m \/ takes_whole_fence m.
Proof.
  unfold MD_CODE_BLOCK_RE. cbn [match_at].
  destruct (starts_with fence s); [|discriminate].
  destruct (span is_word (drop 3 s)) as [lang r].
  destruct r as [|c body]; [discriminate|].
  destruct (Ascii.eqb c newline); [|discriminate].
  destruct (before_first fence body) as [[|x cap]|]; [| |discriminate].
  - intros [= <-]. right. split; [reflexivity|]. split; [reflexivity|].
    now exists lang.
  - intros [= <-]. left. apply takes_group_intro.
Qed.

Lemma span_all_app p a c b :
  all_chars p a = true -> p c = false -> span p (a +:+ String c b) = (a, String c b).
Proof.
  intros Ha Hc. induction a as [|x a IH].
  - cbn. now rewrite Hc.
  - cbn in Ha. apply andb_true_iff in Ha as [Hx Ha].
    change (String x a +:+ String c b) with (String x (a +:+ String c b)).
    cbn [span]. now rewrite Hx, (IH Ha).
Qed.

Lemma scan_code_block_skip_all s :
  forall prev, scan MD_CODE_BLOCK_RE prev s (String.length s) = [].
Proof. induction s as [|c s IH]; intros prev; [reflexivity | apply IH]. Qed.

(** X5.  The fall-back of [match[1] || match[0]] in [extractMatches] is
    taken for one kind of match only: every match of the header, inline
    code and link expressions has a non-empty first group, which is what
    is extracted, and so has every match of the code block expression
    unless nothing stands between the line of the opening fence and the
    closing fence, in which case the fences and the language tag are
    extracted as if they were code. *)
Theorem extractMatches_falls_back_on_empty_code_block (text : string) :
  List.Forall takes_group (scan MD_HEADER_RE None text 0)
  /\ List.Forall takes_group (scan MD_INLINE_CODE_RE None text 0)
  /\ List.Forall takes_group (scan MD_LINK_TEXT_RE None text 0)
  /\ List.Forall (fun m => takes_group m \/ takes_whole_fence m)
       (scan MD_CODE_BLOCK_RE None text 0)
  /\ (forall lang,
        all_chars is_word lang = true ->
        extractMatches (fence +:+ lang +:+ String newline fence) MD_CODE_BLOCK_RE
        = fence +:+ lang +:+ String newline fence).
Proof.
  split; [apply scan_Forall, MD_HEADER_RE_group|].
  split; [apply scan_Forall, MD_INLINE_CODE_RE_group|].
  split; [apply scan_Forall, MD_LINK_TEXT_RE_group|].
  split; [apply scan_Forall, MD_CODE_BLOCK_RE_group|].
  intros lang Hl. unfold extractMatches.
  assert (Hm : match_at MD_CODE_BLOCK_RE None (fence +:+ lang +:+ String newline fence)
               = Some {| m0 := fence +:+ lang +:+ String newline fence;
                         m1 := Some EmptyString |}).
  { unfold MD_CODE_BLOCK_RE. cbn [match_at].
    change (starts_with fence (fence +:+ lang +:+ String newline fence)) with true.
    change (drop 3 (fence +:+ lang +:+ String newline fence))
      with (lang +:+ String newline fence).
    rewrite (span_all_app is_word lang newline fence Hl eq_refl).
    reflexivity. }
  change (fence +:+ lang +:+ String newline fence)
    with (String "`" (String "`" (String "`" (lang +:+ String newline fence)))) in *.
  cbn [scan]. rewrite Hm. cbn [m0 map capture_or_whole m1 String.length Nat.sub].
  rewrite (scan_code_block_skip_all (lang +:+ String newline fence)).
  reflexivity.
Qed.

(** ** Hyphens are separators *)

Lemma parts_of_split token : parts_of token = split_char "-" token.
Proof.
  unfold parts_of. induction token as [|c t IH]; [reflexivity|].
  cbn [contains_char split_char].
  destruct (Ascii.eqb c "-"); [reflexivity|]. cbn [orb].
  destruct (contains_char "-" t); [reflexivity | now rewrite <- IH].
Qed.

Lemma scan_TOKEN_RE_prev p p' s k : scan TOKEN_RE p s k = scan TOKEN_RE p' s k.
Proof. destruct s as [|c s]; destruct k; reflexivity. Qed.

Lemma scan_TOKEN_RE_skip p s k :
  scan TOKEN_RE p s k = scan TOKEN_RE None (drop k s) 0.
Proof.
  revert p s. induction k as [|k IH]; intros p s.
  - destruct s; [reflexivity | apply scan_TOKEN_RE_prev].
  - destruct s as [|c s]; [reflexivity|]. cbn [scan drop]. apply IH.
Qed.

Lemma is_word_not_hyphen c : is_word c = true -> Ascii.eqb c "-" = false.
Proof. destruct c as [[] [] [] [] [] [] [] []]; vm_compute; congruence. Qed.

Lemma split_char_cons c t :
  Ascii.eqb c "-" = false ->
  exists p ps, split_char "-" t = p :: ps
               /\ split_char "-" (String c t) = String c p :: ps.
Proof.
  intros E. cbn [split_char]. rewrite E.
  destruct (split_char "-" t) as [|p ps] eqn:Es.
  - destruct t as [|d t]; [discriminate|]. cbn [split_char] in Es.
    destruct (Ascii.eqb d "-"); [discriminate|].
    destruct (split_char "-" t); discriminate.
  - exists p, ps. auto.
Qed.

Lemma word_runs_cons c s :
  word_runs (String c s)
  = if is_word c then
      match s with
      | EmptyString => [String c EmptyString]
      | String d _ =>
          if is_word d then
            match word_runs s with
            | w :: ws => String c w :: ws
            | [] => [String c EmptyString]
            end
          else String c EmptyString :: word_runs s
      end
    else word_runs s.
Proof. reflexivity. Qed.

(** the runs of a text that starts with a word character: the parts of
    the token matched there, then the runs of what follows the match *)
Lemma word_runs_token n :
  forall c s, String.length s <= n -> is_word c = true ->
    word_runs (String c s)
    = split_char "-" (String c (token_rest s))
      ++ word_runs (drop (String.length (token_rest s)) s).
Proof.
  induction n as [|n IH]; intros c s Hn Hc.
  - destruct s; [|simpl in Hn; lia]. cbn. rewrite Hc, (is_word_not_hyphen c Hc). reflexivity.
  - destruct s as [|d s].
    { cbn. rewrite Hc, (is_word_not_hyphen c Hc). reflexivity. }
    simpl in Hn. rewrite (word_runs_cons c (String d s)), Hc.
    assert (Hsingle : split_char "-" (String c "") = [String c ""])
      by (cbn; now rewrite (is_word_not_hyphen c Hc)).
    cbn [token_rest]. destruct (is_word d) eqn:Ed.
    + rewrite (IH d s ltac:(lia) Ed).
      destruct (split_char_cons c (String d (token_rest s)) (is_word_not_hyphen c Hc))
        as (p & ps & E1 & E2).
      rewrite E2, E1. reflexivity.
    + destruct (Ascii.eqb d "-") eqn:Eh.
      * destruct s as [|e s].
        { rewrite Hsingle. reflexivity. }
        destruct (is_word e) eqn:Ee.
        -- simpl in Hn. rewrite (word_runs_cons d (String e s)), Ed.
           rewrite (IH e s ltac:(lia) Ee).
           cbn [token_rest]. rewrite Ee.
           cbn [split_char]. rewrite (is_word_not_hyphen c Hc), Eh.
           destruct (split_char_cons e (token_rest s) (is_word_not_hyphen e Ee))
             as (p & ps & E1 & E2).
           cbn [split_char] in E2. rewrite (is_word_not_hyphen e Ee) in E2.
           rewrite E2. reflexivity.
        -- rewrite Hsingle. reflexivity.
      * rewrite Hsingle. reflexivity.
Qed.

Lemma length_token_rest s : String.length (token_rest s) <= String.length s.
Proof.
  induction s as [|c s IH]; [reflexivity|]. cbn [token_rest].
  destruct (is_word c); [simpl; lia|].
  destruct (Ascii.eqb c "-"); [|simpl; lia].
  destruct s as [|d s]; [simpl; lia|].
  destruct (is_word d); simpl in *; lia.
Qed.

Lemma length_drop_le k s : String.length (drop k s) <= String.length s.
Proof.
  revert s. induction k as [|k IH]; intros s; [destruct s; simpl; lia|].
  destruct s as [|c s]; [simpl; lia|]. cbn [drop]. specialize (IH s). simpl. lia.
Qed.

Lemma parts_of_matches n :
  forall s, String.length s <= n ->
    flat_map parts_of (map m0 (scan TOKEN_RE None s 0)) = word_runs s.
Proof.
  induction n as [|n IH]; intros s Hn.
  - destruct s; [reflexivity | simpl in Hn; lia].
  - destruct s as [|c s]; [reflexivity|]. simpl in Hn.
    cbn [scan match_at TOKEN_RE]. destruct (is_word c) eqn:Ec.
    + cbn [map flat_map m0]. rewrite parts_of_split.
      replace (String.length (String c (token_rest s)) - 1)
        with (String.length (token_rest s)) by (simpl; lia).
      rewrite scan_TOKEN_RE_skip, IH.
      * symmetry. now apply (word_runs_token (String.length s)).
      * pose proof (length_drop_le (String.length (token_rest s)) s). lia.
    + rewrite (scan_TOKEN_RE_prev (Some c) None), IH by lia.
      now rewrite word_runs_cons, Ec.
Qed.

Lemma word_runs_are_words s :
  List.Forall (fun w => w <> EmptyString /\ all_chars is_word w = true) (word_runs s).
Proof.
  induction s as [|c s IH]; [constructor|]. rewrite word_runs_cons.
  destruct (is_word c) eqn:E; [|exact IH].
  assert (Hc : String c "" <> EmptyString /\ all_chars is_word (String c "") = true)
    by (split; [discriminate | simpl; now rewrite E]).
  destruct s as [|d s]; [constructor; [exact Hc | constructor]|].
  destruct (is_word d) eqn:Ed; [|constructor; assumption].
  destruct (word_runs (String d s)) as [|w ws]; [constructor; [exact Hc | constructor]|].
  inversion IH as [|? ? [Hw1 Hw2] Hws]; subst.
  constructor; [|assumption].
  split; [discriminate|]. simpl. now rewrite E, Hw2.
Qed.

Lemma word_runs_separator a x y b :
  is_word x = false -> is_word y = false ->
  word_runs (a +:+ String x b) = word_runs (a +:+ String y b).
Proof.
  intros Hx Hy. induction a as [|c a IH].
  - change ("" +:+ String x b) with (String x b).
    change ("" +:+ String y b) with (String y b).
    now rewrite !word_runs_cons, Hx, Hy.
  - change (String c a +:+ String x b) with (String c (a +:+ String x b)).
    change (String c a +:+ String y b) with (String c (a +:+ String y b)).
    rewrite (word_runs_cons c (a +:+ String x b)), (word_runs_cons c (a +:+ String y b)).
    rewrite IH. destruct (is_word c); [|reflexivity].
    destruct a as [|d a].
    + cbn [String.append]. cbv iota. now rewrite Hx, Hy.
    + reflexivity.
Qed.

Lemma word_runs_starts c s : is_word c = true -> word_runs (String c s) <> [].
Proof.
  intros Hc. rewrite word_runs_cons, Hc. destruct s as [|d s]; [discriminate|].
  destruct (is_word d); [|discriminate]. destruct (word_runs (String d s)); discriminate.
Qed.

Lemma word_runs_app a x b :
  is_word x = false ->
  word_runs (a +:+ String x b) = word_runs a ++ word_runs b.
Proof.
  intros Hx. induction a as [|c a IH].
  - change ("" +:+ String x b) with (String x b). now rewrite word_runs_cons, Hx.
  - change (String c a +:+ String x b) with (String c (a +:+ String x b)).
    rewrite (word_runs_cons c (a +:+ String x b)), (word_runs_cons c a), IH.
    destruct (is_word c); [|reflexivity].
    destruct a as [|d a].
    + cbn [String.append]. cbv iota. now rewrite Hx.
    + change (String d a +:+ String x b) with (String d (a +:+ String x b)).
      cbv iota. destruct (is_word d) eqn:Ed; [|reflexivity].
      pose proof (word_runs_starts d a Ed) as Hne.
      destruct (word_runs (String d a)) as [|w ws]; [congruence | reflexivity].
Qed.

Lemma fold_parts (f : list string -> string -> list string) ms :
  forall tokens,
    fold_left (fun tokens token => fold_left f (parts_of token) tokens) ms tokens
    = fold_left f (flat_map parts_of ms) tokens.
Proof.
  induction ms as [|m ms IH]; intros tokens; [reflexivity|].
  cbn [fold_left flat_map]. rewrite fold_left_app, IH. reflexivity.
Qed.

Section WordRuns.

Variable stem : string -> string.

Lemma tokenize_word_runs text :
  tokenize stem text = fold_left (tokenize_part stem) (word_runs text) [].
Proof.
  unfold tokenize, match_all.
  change (tokenize_match stem)
    with (fun tokens token => fold_left (tokenize_part stem) (parts_of token) tokens).
  now rewrite fold_parts, (parts_of_matches (String.length text)).
Qed.

Lemma tokenize_plain_word_runs text :
  tokenize_plain stem text = fold_left (tokenize_part_plain stem) (word_runs text) [].
Proof.
  unfold tokenize_plain, match_all.
  change (tokenize_match_plain stem)
    with (fun tokens token => fold_left (tokenize_part_plain stem) (parts_of token) tokens).
  now rewrite fold_parts, (parts_of_matches (String.length text)).
Qed.

(** X6.  The tokens of a text depend on its maximal runs of letters,
    digits and underscores only, taken in turn: a hyphen between two
    words separates them as any other character does, no part of a
    hyphenated term is empty, and exchanging one separator for another
    leaves the tokens as they are. *)
Theorem tokenize_goes_by_word_runs (text : string) :
  tokenize stem text = fold_left (tokenize_part stem) (word_runs text) []
  /\ List.Forall (fun w => w <> EmptyString /\ all_chars is_word w = true)
       (word_runs text)
  /\ (forall a b x y,
        is_word x = false -> is_word y = false ->
        tokenize stem (a +:+ String x b) = tokenize stem (a +:+ String y b)).
Proof.
  split; [apply tokenize_word_runs|]. split; [apply word_runs_are_words|].
  intros a b x y Hx Hy.
  now rewrite !tokenize_word_runs, (word_runs_separator a x y b Hx Hy).
Qed.

End WordRuns.

(** ** Documents are tokenized in lower case *)

Lemma all_chars_app p a b :
  all_chars p (a +:+ b) = all_chars p a && all_chars p b.
Proof. induction a as [|c a IH]; simpl; [reflexivity|]. now rewrite IH, andb_assoc. Qed.

Lemma no_upper_lower_char c : is_upper (lower_char c) = false.
Proof. destruct c as [[] [] [] [] [] [] [] []]; vm_compute; reflexivity. Qed.

Lemma no_upper_toLowerCase s : no_upper (toLowerCase s) = true.
Proof.
  unfold no_upper. induction s as [|c s IH]; simpl; [reflexivity|].
  now rewrite no_upper_lower_char, IH.
Qed.

Lemma no_upper_join l :
  List.Forall (fun s => no_upper s = true) l -> no_upper (join " " l) = true.
Proof.
  unfold no_upper. induction 1 as [|x l Hx Hl IH]; [reflexivity|].
  destruct l as [|y l]; [exact Hx|].
  change (join " " (x :: y :: l)) with (x +:+ " " +:+ join " " (y :: l)).
  rewrite !all_chars_app, Hx, IH. reflexivity.
Qed.

Lemma no_upper_haystack d : no_upper (haystack d) = true.
Proof.
  unfold haystack. apply no_upper_join.
  apply List.Forall_forall. intros s [Hs _]%filter_In.
  repeat (destruct Hs as [<-|Hs]; [apply no_upper_toLowerCase|]). destruct Hs.
Qed.

Lemma no_upper_token_rest s : no_upper s = true -> no_upper (token_rest s) = true.
Proof.
  unfold no_upper. induction s as [|c s IH]; [reflexivity|].
  simpl. intros [Hc Hs]%andb_true_iff.
  destruct (is_word c); [simpl; now rewrite Hc, IH|].
  destruct (Ascii.eqb c "-"); [|reflexivity].
  destruct s as [|d s]; [reflexivity|].
  destruct (is_word d); [|reflexivity].
  simpl. rewrite Hc. now apply IH.
Qed.

Lemma no_upper_scan prev s skip :
  no_upper s = true ->
  List.Forall (fun m => no_upper (m0 m) = true) (scan TOKEN_RE prev s skip).
Proof.
  revert prev skip. induction s as [|c s IH]; intros prev skip H.
  - destruct skip; constructor.
  - pose proof H as [Hc Hs]%andb_true_iff.
    destruct skip as [|k]; cbn [scan]; [|now apply IH].
    cbn [match_at TOKEN_RE]. destruct (is_word c); [|now apply IH].
    constructor; [|now apply IH].
    cbn [m0]. unfold no_upper in *. simpl. rewrite Hc.
    now apply no_upper_token_rest.
Qed.

Lemma no_upper_split_char sep s :
  no_upper s = true -> List.Forall (fun p => no_upper p = true) (split_char sep s).
Proof.
  unfold no_upper. induction s as [|c s IH]; intros H.
  - constructor; [reflexivity | constructor].
  - simpl in H. apply andb_true_iff in H as [Hc Hs]. specialize (IH Hs). simpl.
    destruct (Ascii.eqb c sep); [constructor; [reflexivity | assumption]|].
    destruct (split_char sep s) as [|p ps].
    + constructor; [simpl; now rewrite Hc | constructor].
    + inversion IH; subst. constructor; [simpl; now rewrite Hc | assumption].
Qed.

Lemma no_upper_test_camel s : no_upper s = true -> test_camel s = false.
Proof.
  unfold no_upper. induction s as [|c s IH]; [reflexivity|].
  simpl. intros [Hc Hs]%andb_true_iff.
  destruct s as [|d s]; [reflexivity|].
  rewrite (IH Hs). simpl in Hs. apply andb_true_iff in Hs as [Hd _].
  apply negb_true_iff in Hd. rewrite Hd. now rewrite andb_false_r.
Qed.

Section PlainTokenizerFacts.

Variable stem : string -> string.

Lemma tokenize_part_no_upper tokens part :
  no_upper part = true ->
  tokenize_part stem tokens part = tokenize_part_plain stem tokens part.
Proof.
  intros H. unfold tokenize_part, tokenize_part_plain.
  now rewrite (no_upper_test_camel part H).
Qed.

Lemma tokenize_parts_no_upper parts :
  List.Forall (fun p => no_upper p = true) parts ->
  forall tokens,
    fold_left (tokenize_part stem) parts tokens
    = fold_left (tokenize_part_plain stem) parts tokens.
Proof.
  induction 1 as [|p parts Hp _ IH]; intros tokens; simpl; [reflexivity|].
  now rewrite (tokenize_part_no_upper tokens p Hp), IH.
Qed.

Lemma tokenize_no_upper text :
  no_upper text = true -> tokenize stem text = tokenize_plain stem text.
Proof.
  intros H. unfold tokenize, tokenize_plain, match_all.
  pose proof (no_upper_scan None text 0 H) as Hs.
  generalize (@nil string).
  induction Hs as [|m ms Hm _ IH]; intros tokens; simpl; [reflexivity|].
  rewrite <- IH. f_equal.
  unfold tokenize_match, tokenize_match_plain.
  apply tokenize_parts_no_upper.
  destruct (contains_char "-" (m0 m)); [now apply no_upper_split_char|].
  constructor; [assumption | constructor].
Qed.

(** X7.  [add] tokenizes the haystack, which it has put together from
    lower-cased pieces: it never takes the CamelCase branch of
    [tokenize], so a document gets one unigram at most for each part of
    a word, the stem of the lower-cased part or the part itself; only a
    query is split at the humps. *)
Theorem documents_are_not_split_at_camel_case (d : Doc) :
  no_upper (haystack d) = true
  /\ tokenize stem (haystack d) = tokenize_plain stem (haystack d)
  /\ allTokens stem d
     = tokenize_plain stem (haystack d)
       ++ generateBigrams (tokenize_plain stem (haystack d)).
Proof.
  pose proof (no_upper_haystack d) as H.
  pose proof (tokenize_no_upper (haystack d) H) as E.
  split; [exact H|]. split; [exact E|].
  unfold allTokens. now rewrite E.
Qed.

Lemma tokenize_part_plain_local tokens part :
  tokenize_part_plain stem tokens part = tokens ++ tokenize_part_plain stem [] part.
Proof.
  unfold tokenize_part_plain.
  destruct (is_empty (toLowerCase part) || has STOP_WORDS (toLowerCase part));
    [now rewrite app_nil_r|].
  destruct (has PRESERVE_TERMS (toLowerCase part)); [reflexivity|].
  destruct (negb (has STOP_WORDS (stem (toLowerCase part))));
    [reflexivity | now rewrite app_nil_r].
Qed.

Lemma tokenize_parts_plain_local parts :
  forall tokens,
    fold_left (tokenize_part_plain stem) parts tokens
    = tokens ++ fold_left (tokenize_part_plain stem) parts [].
Proof.
  induction parts as [|p parts IH]; intros tokens; [cbn; now rewrite app_nil_r|].
  cbn [fold_left]. rewrite IH, (IH (tokenize_part_plain stem [] p)).
  now rewrite tokenize_part_plain_local, <- app_assoc.
Qed.

Lemma tokenize_plain_app a b :
  tokenize_plain stem (a +:+ String " " b)
  = tokenize_plain stem a ++ tokenize_plain stem b.
Proof.
  rewrite !tokenize_plain_word_runs, (word_runs_app a " " b) by reflexivity.
  now rewrite fold_left_app, tokenize_parts_plain_local.
Qed.

Lemma tokenize_plain_join l :
  tokenize_plain stem (join " " l) = flat_map (tokenize_plain stem) l.
Proof.
  induction l as [|x l IH]; [reflexivity|].
  destruct l as [|y l]; [cbn; now rewrite app_nil_r|].
  change (join " " (x :: y :: l)) with (x +:+ String " " (join " " (y :: l))).
  now rewrite tokenize_plain_app, IH.
Qed.

Lemma tokenize_plain_filter l :
  flat_map (tokenize_plain stem) (List.filter (fun s => negb (is_empty s)) l)
  = flat_map (tokenize_plain stem) l.
Proof.
  induction l as [|x l IH]; [reflexivity|]. cbn [List.filter flat_map].
  destruct x as [|c x]; cbn [is_empty negb]; [exact IH|].
  cbn [flat_map]. now rewrite IH.
Qed.

(** X8.  The unigrams of a document are the tokens of its lower-cased
    index title, followed by those of its headers, of its link texts, of
    its code blocks, of its inline code and of its content: a word of a
    header, which is in the content as well, is a token of the document
    twice. *)
Theorem document_unigrams_field_by_field (d : Doc) :
  tokenize stem (haystack d)
  = tokenize stem (toLowerCase (indexTitle d))
    ++ tokenize stem (toLowerCase (extractMatches (content d) MD_HEADER_RE))
    ++ tokenize stem (toLowerCase (extractMatches (content d) MD_LINK_TEXT_RE))
    ++ tokenize stem (toLowerCase (extractMatches (content d) MD_CODE_BLOCK_RE))
    ++ tokenize stem (toLowerCase (extractMatches (content d) MD_INLINE_CODE_RE))
    ++ tokenize stem (toLowerCase (content d)).
Proof.
  rewrite (tokenize_no_upper (haystack d) (no_upper_haystack d)).
  rewrite !(fun s => tokenize_no_upper (toLowerCase s) (no_upper_toLowerCase s)).
  unfold haystack. rewrite tokenize_plain_join, tokenize_plain_filter.
  cbn [flat_map]. now rewrite app_nil_r.
Qed.

End PlainTokenizerFacts.

(** X9.  A document without content, as the server indexes at start-up:
    its haystack is the lower-cased index title alone, the title boost is
    8, and the weighted term frequency of a non-empty token is 8 times
    what [countOccurrences] counts in the index title. *)
Theorem title_only_document (d : Doc) (token : string) :
  content d = EmptyString -> token <> EmptyString ->
  haystack d = toLowerCase (indexTitle d)
  /\ getTitleBoost d = 8
  /\ exists n,
       countOccurrences (indexTitle d) token = Some n
       /\ weightedTf d token = Some (8 * n).
Proof.
  intros Hc Ht. split; [|split].
  - unfold haystack. rewrite Hc.
    change (extractMatches "" MD_HEADER_RE) with "".
    change (extractMatches "" MD_CODE_BLOCK_RE) with "".
    change (extractMatches "" MD_INLINE_CODE_RE) with "".
    change (extractMatches "" MD_LINK_TEXT_RE) with "".
    cbn [toLowerCase List.filter is_empty negb].
    destruct (toLowerCase (indexTitle d)); reflexivity.
  - unfold getTitleBoost. now rewrite Hc.
  - exists (occurrences token (toLowerCase (indexTitle d))).
    split; [now apply countOccurrences_total|].
    rewrite (weightedTf_total d token Ht).
    unfold getTitleBoost. rewrite Hc.
    change (extractMatches "" MD_HEADER_RE) with "".
    change (extractMatches "" MD_CODE_BLOCK_RE) with "".
    change (extractMatches "" MD_LINK_TEXT_RE) with "".
    cbn. f_equal. unfold TITLE_BOOST_EMPTY. lia.
Qed.

Lemma title_only_document_witness :
  exists n,
    countOccurrences "Tools MCP" "tool" = Some n
    /\ weightedTf {| uri := "https://modelcontextprotocol.io/docs/tools";
                     displayTitle := "Tools"; content := "";
                     indexTitle := "Tools MCP" |} "tool" = Some (8 * n).
Proof.
  destruct (title_only_document
              {| uri := "https://modelcontextprotocol.io/docs/tools";
                 displayTitle := "Tools"; content := "";
                 indexTitle := "Tools MCP" |} "tool" eq_refl ltac:(discriminate))
    as (_ & _ & n & H1 & H2).
  exists n. split; [exact H1 | exact H2].
Defined.

(** ** The inverted index *)

Lemma occurrences_in_cons tok x toks :
  occurrences_in tok (x :: toks)
  = (if String.eqb tok x then 1 else 0) + occurrences_in tok toks.
Proof. unfold occurrences_in. simpl. destruct (String.eqb tok x); reflexivity. Qed.

Lemma occurrences_in_zero tok toks :
  occurrences_in tok toks = 0 <-> includes toks tok = false.
Proof.
  induction toks as [|x toks IH]; [split; reflexivity|].
  rewrite occurrences_in_cons. unfold includes in *. simpl.
  destruct (String.eqb tok x); simpl; [split; [lia | discriminate] | exact IH].
Qed.

Lemma add_tokens_postings idx toks :
  forall seen dt st acc' st',
    for_each toks (add_token idx) (seen, dt) st = Some (acc', st') ->
    forall tok, postings st' tok = postings st tok ++ repeat idx (occurrences_in tok toks).
Proof.
  induction toks as [|x toks IH]; intros seen dt st acc' st' H tok.
  - injection H as _ <-. simpl. now rewrite app_nil_r.
  - cbn [for_each] in H. rewrite run_bind, add_token_run in H. cbv zeta in H.
    rewrite (IH _ _ _ _ _ H tok), occurrences_in_cons.
    match goal with
    | |- postings (if decide _ then ?a else set_docFrequency ?m ?a) _ ++ _ = _ =>
        replace (postings (if decide (x ∈ seen) then a else set_docFrequency m a) tok)
          with (postings a tok) by (destruct (decide (x ∈ seen)); reflexivity)
    end.
    rewrite postings_insert.
    destruct (decide (x = tok)) as [->|Hne].
    + rewrite String.eqb_refl, <- app_assoc. reflexivity.
    + destruct (String.eqb tok x) eqn:Eq; [apply String.eqb_eq in Eq; congruence|].
      reflexivity.
Qed.

Section IndexExtras.

Variable stem : string -> string.

Lemma add_postings doc st st' :
  add stem doc st = Some (tt, st') ->
  forall tok,
    postings st' tok
    = postings st tok ++ repeat (length (docs st)) (occurrences_in tok (allTokens stem doc)).
Proof.
  intros H tok. unfold add in H. rewrite run_bind in H. cbn [gets] in H.
  rewrite run_bind in H. cbn [modify] in H. rewrite run_bind in H.
  destruct (for_each (allTokens stem doc) (add_token (length (docs st))) (∅, [])
              (set_docs (docs st ++ [doc]) st)) as [[[seen' dt'] st1]|] eqn:E;
    [|discriminate].
  pose proof (add_tokens_postings _ _ _ _ _ _ _ E tok) as Hp.
  injection H as <-. exact Hp.
Qed.

(** X10.  In every state, [add] returns; it appends the document and its
    length, appends the new position to the posting list of each of the
    document's tokens, once per occurrence, and adds one to their
    counters; the posting list and the counter of any other token are as
    before. *)
Theorem add_only_appends doc st tok :
  exists st',
    add stem doc st = Some (tt, st')
    /\ docs st' = docs st ++ [doc]
    /\ docLengths st' = docLengths st ++ [length (allTokens stem doc)]
    /\ postings st' tok
       = postings st tok
         ++ repeat (length (docs st)) (occurrences_in tok (allTokens stem doc))
    /\ df_of st' tok = df_of st tok + (if includes (allTokens stem doc) tok then 1 else 0)
    /\ (~ In tok (allTokens stem doc) ->
        postings st' tok = postings st tok /\ df_of st' tok = df_of st tok).
Proof.
  destruct (add_run stem doc st) as (st' & Hadd & Hd & Hl & _ & Hdf & _).
  pose proof (add_postings doc st st' Hadd tok) as Hp.
  exists st'. repeat (split; [first [assumption | apply Hdf]|]).
  intros Hn.
  assert (E : includes (allTokens stem doc) tok = false).
  { destruct (includes (allTokens stem doc) tok) eqn:E; [|reflexivity].
    apply includes_In in E. contradiction. }
  rewrite Hp, Hdf, E. apply occurrences_in_zero in E. rewrite E. simpl.
  split; [apply app_nil_r | lia].
Qed.

Lemma docs_fold_after_add ds st :
  docs (fold_left (after_add stem) ds st) = docs st ++ ds.
Proof.
  revert st. induction ds as [|d ds IH]; intros st; simpl; [now rewrite app_nil_r|].
  rewrite IH. unfold after_add.
  destruct (add_run stem d st) as (st' & -> & -> & _).
  now rewrite <- app_assoc.
Qed.

(** X11.  After [add] has been called on the documents [ds] in turn,
    [getDocs] returns [ds], in that order, and [size] returns their
    number; neither changes the index. *)
Theorem getDocs_size_after_adds (ds : list Doc) :
  Accessors.getDocs (index_of stem ds) = Some (ds, index_of stem ds)
  /\ Accessors.size (index_of stem ds) = Some (length ds, index_of stem ds).
Proof.
  unfold Accessors.getDocs, Accessors.size, gets, index_of.
  rewrite docs_fold_after_add. auto.
Qed.

Lemma postings_from_app tok i ds d :
  postings_from stem tok i (ds ++ [d])
  = postings_from stem tok i ds
    ++ repeat (i + length ds) (occurrences_in tok (allTokens stem d)).
Proof.
  revert i. induction ds as [|x ds IH]; intros i; simpl.
  - now rewrite app_nil_r, Nat.add_0_r.
  - rewrite IH, <- app_assoc. do 3 f_equal. lia.
Qed.

Lemma reachable_postings_from st tok :
  reachable stem st -> postings st tok = postings_from stem tok 0 (docs st).
Proof.
  induction 1 as [|st doc st' _ IH Hadd].
  - unfold postings. simpl. now rewrite lookup_empty.
  - rewrite (add_postings _ _ _ Hadd), IH.
    apply add_inv in Hadd as (-> & _). now rewrite postings_from_app.
Qed.

Lemma postings_from_range tok i ds :
  Forall (fun j => i <= j < i + length ds) (postings_from stem tok i ds).
Proof.
  revert i. induction ds as [|d ds IH]; intros i; simpl; [constructor|].
  apply Forall_app. split.
  - apply Forall_forall. intros j Hj%list_elem_of_In%repeat_spec. lia.
  - eapply Forall_impl; [apply IH|]. simpl. intros j Hj. lia.
Qed.

Lemma postings_from_sorted tok i ds :
  StronglySorted Nat.le (postings_from stem tok i ds).
Proof.
  revert i. induction ds as [|d ds IH]; intros i; simpl; [constructor|].
  pose proof (postings_from_range tok (S i) ds) as Hr.
  induction (occurrences_in tok (allTokens stem d)) as [|c IHc]; simpl; [apply IH|].
  constructor; [assumption|].
  apply List.Forall_forall. intros j [Hj|Hj]%in_app_iff.
  - apply repeat_spec in Hj. lia.
  - rewrite Forall_forall in Hr. apply list_elem_of_In, Hr in Hj. lia.
Qed.

Lemma count_occ_repeat (i j c : nat) :
  count_occ Nat.eq_dec (repeat i c) j = if Nat.eq_dec i j then c else 0.
Proof.
  induction c as [|c IH]; simpl; [now destruct (Nat.eq_dec i j)|].
  rewrite IH. destruct (Nat.eq_dec i j); reflexivity.
Qed.

Lemma postings_from_count tok i ds j d :
  ds !! j = Some d ->
  count_occ Nat.eq_dec (postings_from stem tok i ds) (i + j)
  = occurrences_in tok (allTokens stem d).
Proof.
  revert i j. induction ds as [|x ds IH]; intros i j Hj; [discriminate|].
  simpl. rewrite count_occ_app, count_occ_repeat.
  destruct j as [|j]; simpl in Hj.
  - injection Hj as ->. rewrite Nat.add_0_r.
    destruct (Nat.eq_dec i i) as [_|]; [|congruence].
    rewrite (proj1 (count_occ_not_In Nat.eq_dec _ _)); [lia|].
    intros Hin. pose proof (postings_from_range tok (S i) ds) as Hr.
    rewrite Forall_forall in Hr. apply list_elem_of_In, Hr in Hin. lia.
  - destruct (Nat.eq_dec i (i + S j)); [lia|].
    replace (i + S j) with (S i + j) by lia. now rewrite (IH (S i) j Hj).
Qed.

(** X12.  In a reachable state the posting list of a token holds the
    positions of the documents in ascending order, every position below
    the number of documents, and the position of a document as often as
    the token occurs among the document's unigrams and bigrams. *)
Theorem posting_lists_record_occurrences st tok :
  reachable stem st ->
  postings st tok = postings_from stem tok 0 (docs st)
  /\ StronglySorted Nat.le (postings st tok)
  /\ Forall (fun i => i < length (docs st)) (postings st tok)
  /\ (forall i d, docs st !! i = Some d ->
                  count_occ Nat.eq_dec (postings st tok) i
                  = occurrences_in tok (allTokens stem d)).
Proof.
  intros Hr. pose proof (reachable_postings_from st tok Hr) as E.
  split; [exact E|]. rewrite E. split; [apply postings_from_sorted|]. split.
  - eapply Forall_impl; [apply postings_from_range|]. simpl. intros j Hj. lia.
  - intros i d Hd. apply (postings_from_count tok 0 (docs st) i d Hd).
Qed.

Lemma fold_note_repeat idx c acc :
  ~ In idx acc ->
  fold_left note (repeat idx c) acc = if c =? 0 then acc else acc ++ [idx].
Proof.
  intros Hn. destruct c as [|c]; [reflexivity|]. simpl.
  assert (E : note acc idx = acc ++ [idx]).
  { unfold note. destruct (existsb (Nat.eqb idx) acc) eqn:Ex; [|reflexivity].
    apply existsb_exists in Ex as (y & Hy & ->%Nat.eqb_eq). contradiction. }
  rewrite E. clear E.
  induction c as [|c IH]; simpl; [reflexivity|].
  assert (E : note (acc ++ [idx]) idx = acc ++ [idx]).
  { unfold note.
    assert (Ex : existsb (Nat.eqb idx) (acc ++ [idx]) = true).
    { apply existsb_exists. exists idx. split; [|apply Nat.eqb_refl].
      apply in_or_app. right. now left. }
    now rewrite Ex. }
  now rewrite E.
Qed.

(** X13.  In a reachable state the two maps of the index agree: the
    document-frequency counter of a token is the number of distinct
    positions in its posting list, and it is 0 exactly when the posting
    list is empty. *)
Theorem document_frequency_agrees_with_postings st tok :
  reachable stem st ->
  df_of st tok = length (first_occurrences (postings st tok))
  /\ (df_of st tok = 0 <-> postings st tok = []).
Proof.
  intros Hr.
  assert (E : df_of st tok = length (first_occurrences (postings st tok))).
  { induction Hr as [|st doc st' Hr IH Hadd]; [reflexivity|].
    rewrite (add_postings _ _ _ Hadd).
    apply add_inv in Hadd as (_ & _ & _ & Hdf & _). rewrite Hdf, IH.
    unfold first_occurrences. rewrite fold_note_app, fold_note_repeat.
    - destruct (includes (allTokens stem doc) tok) eqn:Ei.
      + destruct (occurrences_in tok (allTokens stem doc) =? 0) eqn:Ez.
        * apply Nat.eqb_eq, occurrences_in_zero in Ez. congruence.
        * rewrite length_app. reflexivity.
      + apply occurrences_in_zero in Ei. rewrite Ei. simpl. lia.
    - intros Hin. apply fold_note_In in Hin as [[]|Hin].
      destruct (reachable_postings stem st tok _ Hr Hin) as (d & Hd & _).
      apply lookup_lt_Some in Hd. lia. }
  split; [exact E|]. rewrite E. split.
  - intros Hz. destruct (postings st tok) as [|i l] eqn:Ep; [reflexivity|].
    exfalso. assert (Hi : In i (first_occurrences (i :: l))).
    { apply fold_note_In. right. now left. }
    destruct (first_occurrences (i :: l)); [destruct Hi | discriminate].
  - intros ->. reflexivity.
Qed.

End IndexExtras.

Lemma posting_lists_record_occurrences_witness :
  reachable PorterStemmer.stem Examples.tools_index
  /\ postings Examples.tools_index "tool" = [0; 0; 0; 0; 2; 2; 2; 2].
Proof.
  pose proof (index_of_reachable PorterStemmer.stem
                [Examples.doc_tools; Examples.doc_rpc; Examples.doc_tools]) as Hr.
  split; [exact Hr|].
  rewrite (proj1 (posting_lists_record_occurrences PorterStemmer.stem
                    Examples.tools_index "tool" Hr)).
  vm_compute. reflexivity.
Defined.

Lemma document_frequency_agrees_with_postings_witness :
  reachable PorterStemmer.stem Examples.tools_index
  /\ df_of Examples.tools_index "tool" = 2.
Proof.
  pose proof (index_of_reachable PorterStemmer.stem
                [Examples.doc_tools; Examples.doc_rpc; Examples.doc_tools]) as Hr.
  split; [exact Hr|].
  rewrite (proj1 (document_frequency_agrees_with_postings PorterStemmer.stem
                    Examples.tools_index "tool" Hr)).
  vm_compute. reflexivity.
Defined.

(** ** Searching *)

Lemma scores_get_set scores idx v i :
  scores_get (scores_set scores idx v) i
  = if i =? idx then Some v else scores_get scores i.
Proof.
  unfold scores_get. induction scores as [|[j x] rest IH]; simpl.
  - rewrite (Nat.eqb_sym idx i). now destruct (i =? idx).
  - destruct (j =? idx) eqn:Ej; simpl.
    + apply Nat.eqb_eq in Ej as ->. rewrite (Nat.eqb_sym idx i).
      now destruct (i =? idx).
    + destruct (j =? i) eqn:Ei; simpl; [|exact IH].
      apply Nat.eqb_eq in Ei as ->. now rewrite Ej.
Qed.

Lemma scores_get_In scores e :
  NoDup (map fst scores) -> In e scores -> scores_get scores e.1 = Some e.2.
Proof.
  unfold scores_get. induction scores as [|[j x] rest IH]; simpl; [intros _ []|].
  intros Hn [<-|Hin]; simpl.
  - now rewrite Nat.eqb_refl.
  - apply NoDup_cons in Hn as [Hj Hn].
    destruct (j =? e.1) eqn:Ej; [|now apply IH].
    apply Nat.eqb_eq in Ej as ->. exfalso. apply Hj.
    apply list_elem_of_In. now apply in_map.
Qed.

Lemma search_posting_value qt scores idx st scores' st' :
  search_posting qt scores idx st = Some (scores', st') ->
  forall i, acc_value scores' i
            = (acc_value scores i + if i =? idx then score_of st qt idx else 0)%R.
Proof.
  unfold search_posting, score_of. rewrite run_bind. cbn [gets]. rewrite run_bind.
  unfold liftO at 1. destruct (docs st !! idx) as [d|]; [|discriminate].
  rewrite run_bind.
  destruct (calculateBM25Score d qt idx st) as [[v st1]|] eqn:E; [|discriminate].
  intros [= <- _] i. unfold acc_value. rewrite scores_get_set.
  destruct (i =? idx) eqn:Ei; simpl; [|Lra.lra].
  apply Nat.eqb_eq in Ei as ->. reflexivity.
Qed.

Lemma search_postings_value qt l :
  forall scores st scores' st',
    for_each l (search_posting qt) scores st = Some (scores', st') ->
    forall i, acc_value scores' i
              = (acc_value scores i
                 + INR (count_occ Nat.eq_dec l i) * score_of st qt i)%R.
Proof.
  induction l as [|idx l IH]; intros scores st scores' st' H i.
  - injection H as <- _. simpl. Lra.lra.
  - cbn [for_each] in H. rewrite run_bind in H.
    destruct (search_posting qt scores idx st) as [[s1 st1]|] eqn:E; [|discriminate].
    pose proof (search_posting_value _ _ _ _ _ _ E i) as Hv.
    apply search_posting_inv in E as [-> _].
    rewrite (IH _ _ _ _ H i), Hv. cbn [count_occ].
    destruct (Nat.eq_dec idx i) as [->|Hne].
    + rewrite Nat.eqb_refl, S_INR. Lra.lra.
    + destruct (i =? idx) eqn:Ei; [apply Nat.eqb_eq in Ei; congruence|]. Lra.lra.
Qed.

Lemma search_tokens_value qTokens :
  forall scores st scores' st',
    for_each qTokens search_token scores st = Some (scores', st') ->
    forall i, acc_value scores' i
              = (acc_value scores i
                 + Rsum (map (fun qt => (INR (count_occ Nat.eq_dec (postings st qt) i)
                                         * score_of st qt i)%R) qTokens))%R.
Proof.
  induction qTokens as [|qt l IH]; intros scores st scores' st' H i.
  - injection H as <- _. simpl. Lra.lra.
  - cbn [for_each] in H. rewrite run_bind in H.
    destruct (search_token scores qt st) as [[s1 st1]|] eqn:E; [|discriminate].
    pose proof E as [-> _]%search_token_inv.
    unfold search_token in E. rewrite run_bind in E. cbn [gets] in E.
    fold (postings st qt) in E.
    rewrite (IH _ _ _ _ H i), (search_postings_value _ _ _ _ _ _ E i).
    simpl. Lra.lra.
Qed.

Lemma Rsum_nonneg l : List.Forall (fun x => (0 <= x)%R) l -> (0 <= Rsum l)%R.
Proof. induction 1; simpl; Lra.lra. Qed.

Lemma NoDup_bounded_length (l : list nat) n :
  NoDup l -> (forall i, In i l -> i < n) -> length l <= n.
Proof.
  intros Hn Hb.
  assert (Hi : incl l (seq 0 n)).
  { intros i Hi. apply in_seq. specialize (Hb i Hi). lia. }
  apply NoDup_ListNoDup in Hn.
  apply (NoDup_incl_length Hn) in Hi. now rewrite List.length_seq in Hi.
Qed.

Lemma Forall2_In_l {A B} (R : A -> B -> Prop) l1 l2 x :
  Forall2 R l1 l2 -> In x l1 -> exists y, In y l2 /\ R x y.
Proof.
  induction 1 as [|a b l1 l2 Hab _ IH]; intros Hin; [destruct Hin|].
  destruct Hin as [<-|Hin].
  - exists b. split; [now left | assumption].
  - destruct (IH Hin) as (y & Hy & Hxy). exists y. split; [now right | assumption].
Qed.

Lemma Forall2_In_r {A B} (R : A -> B -> Prop) l1 l2 y :
  Forall2 R l1 l2 -> In y l2 -> exists x, In x l1 /\ R x y.
Proof.
  induction 1 as [|a b l1 l2 Hab _ IH]; intros Hin; [destruct Hin|].
  destruct Hin as [<-|Hin].
  - exists a. split; [now left | assumption].
  - destruct (IH Hin) as (x & Hx & Hxy). exists x. split; [now right | assumption].
Qed.

Lemma slice0_In {A} (l : list A) k x : In x (slice0 l k) -> In x l.
Proof.
  destruct (slice0_sublist l k) as (n & ->). intros H.
  rewrite <- (firstn_skipn n l). apply in_or_app. now left.
Qed.

Lemma slice0_all {A} (l : list A) k :
  (Z.of_nat (length l) <= k)%Z -> slice0 l k = l.
Proof.
  intros H. rewrite slice0_nonneg by lia. apply firstn_all2. lia.
Qed.

Section SearchExtras.

Variable stem : string -> string.

Hypothesis stem_nonempty : forall s, s <> EmptyString -> stem s <> EmptyString.

Lemma score_of_nonneg st qt idx : reachable stem st -> (0 <= score_of st qt idx)%R.
Proof.
  intros Hr. unfold score_of. destruct (docs st !! idx) as [d|]; [|Lra.lra].
  destruct (weightedTf d qt) as [w|] eqn:Hw.
  - rewrite (calculateBM25Score_run _ _ _ _ _ Hw).
    pose proof (avgLen_of_ge1 st) as Havg.
    apply Rmult_le_pos.
    + apply ln_nonneg, Q2R_ge1, idf_arg_ge1, (reachable_df_le stem), Hr.
    + apply Q2R_nonneg, tf_component_nonneg. Lqa.lra.
  - rewrite (calculateBM25Score_None _ _ _ _ Hw). Lra.lra.
Qed.

Lemma total_score_nonneg st query idx :
  reachable stem st -> (0 <= total_score stem st query idx)%R.
Proof.
  intros Hr. apply Rsum_nonneg, List.Forall_forall.
  intros x (qt & <- & _)%in_map_iff.
  apply Rmult_le_pos; [apply pos_INR | now apply score_of_nonneg].
Qed.

Lemma accumulator_matches st query i :
  reachable stem st ->
  In i (accumulator_order stem st query) <-> matches stem st query i.
Proof.
  intros Hr. unfold accumulator_order, first_occurrences, matches.
  rewrite fold_note_In, in_flat_map. split.
  - intros [[]|(qt & Hq & Hi)].
    destruct (reachable_postings stem st qt i Hr Hi) as (d & Hd & Hin). eauto.
  - intros (d & qt & Hd & Hq & Hin). right. exists qt. split; [assumption|].
    apply (count_occ_In Nat.eq_dec).
    rewrite (reachable_postings_from stem st qt Hr).
    pose proof (postings_from_count stem qt 0 (docs st) i d Hd) as Hc.
    simpl in Hc. rewrite Hc.
    destruct (occurrences_in qt (allTokens stem d)) eqn:E; [|lia].
    apply occurrences_in_zero in E.
    destruct (in_dec string_dec qt (allTokens stem d)) as [Hy|Hn]; [|contradiction].
    exfalso. clear -E Hy. unfold includes in E.
    assert (Ht : existsb (String.eqb qt) (allTokens stem d) = true)
      by (apply existsb_exists; exists qt; split; [assumption | apply String.eqb_refl]).
    congruence.
Qed.

Lemma accumulator_bounded st query :
  reachable stem st -> length (accumulator_order stem st query) <= length (docs st).
Proof.
  intros Hr. apply NoDup_bounded_length; [apply first_occurrences_NoDup|].
  intros i (d & _ & Hd & _)%(accumulator_matches st query i Hr).
  now apply lookup_lt_Some in Hd.
Qed.

(** how [search] runs on a reachable state: the accumulator it builds,
    the results before sorting, and the value it returns for each [k] *)
Lemma search_run st query :
  reachable stem st ->
  exists scores unsorted,
    map fst scores = accumulator_order stem st query
    /\ Forall2 (of_entry st) unsorted scores
    /\ (forall e, In e scores -> e.2 = total_score stem st query e.1)
    /\ forall k, search stem query k st = Some (slice0 (sort_desc unsorted) k, st).
Proof.
  intros Hr.
  destruct (search_tokens_total stem stem_nonempty st (query_tokens stem query) Hr [])
    as (scores & E).
  pose proof E as (_ & Hkeys)%search_tokens_inv.
  pose proof (search_tokens_value _ _ _ _ _ E) as Hval.
  assert (Hdocs : List.Forall (fun e : nat * R => exists d, docs st !! e.1 = Some d) scores).
  { apply List.Forall_forall. intros e He.
    assert (Hk : In e.1 (map fst scores)) by now apply in_map.
    rewrite Hkeys in Hk. apply fold_note_In in Hk as [[]|Hk].
    apply in_flat_map in Hk as (qt & _ & Hi).
    destruct (reachable_postings _ _ _ _ Hr Hi) as (d & Hd & _). eauto. }
  destruct (to_results_total scores [] st Hdocs) as (res & E2).
  pose proof E2 as (_ & new & -> & HF)%to_results_inv.
  assert (Hnd : NoDup (map fst scores)).
  { rewrite Hkeys. apply fold_note_NoDup. constructor. }
  assert (Hscore : forall e, In e scores -> e.2 = total_score stem st query e.1).
  { intros e He. specialize (Hval e.1). unfold acc_value in Hval.
    rewrite (scores_get_In _ _ Hnd He) in Hval. simpl in Hval.
    unfold total_score. Lra.lra. }
  destruct (length (docs st) =? 0) eqn:En.
  - assert (Hz : accumulator_order stem st query = []).
    { pose proof (accumulator_bounded st query Hr) as Hb.
      apply Nat.eqb_eq in En. rewrite En in Hb.
      destruct (accumulator_order stem st query); [reflexivity | simpl in Hb; lia]. }
    exists [], []. split; [now rewrite Hz|]. split; [constructor|].
    split; [intros e []|]. intros k. unfold search. rewrite run_bind. cbn [gets].
    rewrite En. cbn [sort_desc fold_right]. now rewrite slice0_nil.
  - exists scores, new. split; [exact Hkeys|]. split; [exact HF|].
    split; [exact Hscore|]. intros k. unfold search. rewrite run_bind. cbn [gets].
    rewrite En, run_bind. fold (query_tokens stem query). rewrite E, run_bind, E2.
    reflexivity.
Qed.

(** the full ranking of a query: one result for each matching position *)
Lemma search_ranking st query :
  reachable stem st ->
  exists ranked positions,
    Forall2 (at_position st) ranked positions
    /\ NoDup positions
    /\ (forall i, In i positions <-> matches stem st query i)
    /\ StronglySorted ge_score ranked
    /\ forall k, search stem query k st = Some (slice0 ranked k, st).
Proof.
  intros Hr.
  destruct (search_run st query Hr) as (scores & unsorted & Hk & HF & _ & Hs).
  destruct (Forall2_Permutation_l _ _ _ _ (sort_desc_perm unsorted) HF)
    as (scores' & Hp & HF').
  assert (Hpk : Permutation (map fst scores) (map fst scores'))
    by now apply Permutation_map.
  exists (sort_desc unsorted), (map fst scores').
  split; [|split; [|split; [|split]]].
  - clear -HF'. induction HF' as [|r e l1 l2 [_ Hre] _ IH]; simpl; constructor; assumption.
  - rewrite <- Hpk, Hk. apply first_occurrences_NoDup.
  - intros i. rewrite <- (accumulator_matches st query i Hr), <- Hk. split.
    + apply Permutation_in. now apply Permutation_sym.
    + now apply Permutation_in.
  - apply sort_desc_sorted.
  - exact Hs.
Qed.

Lemma search_ranking_length st query ranked positions :
  reachable stem st ->
  Forall2 (at_position st) ranked positions -> NoDup positions ->
  (forall i, In i positions <-> matches stem st query i) ->
  length ranked <= length (docs st).
Proof.
  intros Hr HF Hn Hm. rewrite (Forall2_length _ _ _ HF).
  apply NoDup_bounded_length; [assumption|].
  intros i (d & _ & Hd & _)%Hm. now apply lookup_lt_Some in Hd.
Qed.

(** X14.  On a reachable state [search] returns, and the score of each
    result is the sum, over the unigrams and bigrams of the query, of the
    BM25 score of the token for the result's document, counted once for
    each entry of the document's position in the token's posting list;
    the document has one of these tokens, and the score is not negative. *)
Theorem search_scores_add_up st query k :
  reachable stem st ->
  exists results,
    search stem query k st = Some (results, st)
    /\ List.Forall (fun r => exists i,
                        at_position st r i /\ matches stem st query i
                        /\ score r = total_score stem st query i
                        /\ (0 <= score r)%R) results.
Proof.
  intros Hr.
  destruct (search_run st query Hr) as (scores & unsorted & Hk & HF & Hv & Hs).
  exists (slice0 (sort_desc unsorted) k). split; [apply Hs|].
  apply List.Forall_forall. intros r Hin%slice0_In.
  apply (Permutation_in _ (Permutation_sym (sort_desc_perm unsorted))) in Hin.
  destruct (Forall2_In_l _ _ _ _ HF Hin) as (e & He & Hscore & Hpos).
  exists e.1. split; [exact Hpos|]. split.
  - apply (accumulator_matches st query _ Hr). rewrite <- Hk. now apply in_map.
  - rewrite Hscore, (Hv e He). split; [reflexivity | now apply total_score_nonneg].
Qed.

(** X15.  On a reachable state there is one ranking for a query, whatever
    [k]: it has one result for each position whose document has a unigram
    or bigram of the query, and no other, its scores do not increase, and
    [search] returns its [slice(0, k)]. *)
Theorem search_slices_one_ranking st query :
  reachable stem st ->
  exists ranked positions,
    Forall2 (at_position st) ranked positions
    /\ NoDup positions
    /\ (forall i, In i positions <-> matches stem st query i)
    /\ descending ranked
    /\ forall k, search stem query k st = Some (slice0 ranked k, st).
Proof.
  intros Hr.
  destruct (search_ranking st query Hr) as (ranked & positions & HF & Hn & Hm & Hsort & Hs).
  exists ranked, positions.
  split; [exact HF|]. split; [exact Hn|]. split; [exact Hm|].
  split; [now apply StronglySorted_descending | exact Hs].
Qed.

(** X16.  On a reachable state, asking for fewer results gives a prefix:
    for 0 <= k <= k', [search(query, k)] is the first k results of
    [search(query, k')]; and once k is the number of documents or more,
    both are the same list. *)
Theorem search_smaller_k_is_prefix st query k k' :
  reachable stem st -> (0 <= k <= k')%Z ->
  exists r r',
    search stem query k st = Some (r, st)
    /\ search stem query k' st = Some (r', st)
    /\ r = firstn (Z.to_nat k) r'
    /\ ((Z.of_nat (length (docs st)) <= k)%Z -> r = r').
Proof.
  intros Hr Hk.
  destruct (search_ranking st query Hr) as (ranked & positions & HF & Hn & Hm & _ & Hs).
  pose proof (search_ranking_length st query ranked positions Hr HF Hn Hm) as Hlen.
  exists (slice0 ranked k), (slice0 ranked k').
  split; [apply Hs|]. split; [apply Hs|]. split.
  - rewrite !slice0_nonneg by lia. rewrite firstn_firstn. f_equal. lia.
  - intros Hall. rewrite !slice0_all by lia. reflexivity.
Qed.

(** X17.  A negative [k] does not fail and does not give the empty list:
    on a reachable state [search(query, k)] with k < 0 is the full ranking
    without its last -k results. *)
Theorem search_negative_k_drops_last st query k :
  reachable stem st -> (k < 0)%Z ->
  exists r full,
    search stem query k st = Some (r, st)
    /\ search stem query (Z.of_nat (length (docs st))) st = Some (full, st)
    /\ r = firstn (length full - Z.to_nat (- k)) full.
Proof.
  intros Hr Hk.
  destruct (search_ranking st query Hr) as (ranked & positions & HF & Hn & Hm & _ & Hs).
  pose proof (search_ranking_length st query ranked positions Hr HF Hn Hm) as Hlen.
  exists (slice0 ranked k), ranked.
  split; [apply Hs|]. split; [rewrite Hs, slice0_all by lia; reflexivity|].
  unfold slice0. destruct (k <? 0)%Z eqn:E; [|lia]. f_equal. lia.
Qed.

(** X18.  Adding a document to a reachable index and then searching, with
    [k] the number of documents, for a query that has one of the
    document's unigrams or bigrams returns the document, at the position
    it was given. *)
Theorem added_document_is_found st d query qt :
  reachable stem st ->
  In qt (query_tokens stem query) -> In qt (allTokens stem d) ->
  exists st' results r,
    add stem d st = Some (tt, st')
    /\ search stem query (Z.of_nat (length (docs st'))) st' = Some (results, st')
    /\ In r results /\ doc r = d /\ at_position st' r (length (docs st)).
Proof.
  intros Hr Hq Hd.
  destruct (add_run stem d st) as (st' & Hadd & Hdocs & _).
  assert (Hr' : reachable stem st') by (eapply reach_add; eassumption).
  destruct (search_ranking st' query Hr') as (ranked & positions & HF & Hn & Hm & _ & Hs).
  pose proof (search_ranking_length st' query ranked positions Hr' HF Hn Hm) as Hlen.
  assert (Hat : docs st' !! length (docs st) = Some d).
  { rewrite Hdocs. rewrite lookup_app_r by lia. now rewrite Nat.sub_diag. }
  assert (Hin : In (length (docs st)) positions).
  { apply Hm. exists d, qt. auto. }
  destruct (Forall2_In_r _ _ _ _ HF Hin) as (r & Hrin & Hpos).
  exists st', ranked, r. split; [exact Hadd|].
  split; [rewrite Hs, slice0_all by lia; reflexivity|].
  split; [exact Hrin|]. split; [|exact Hpos].
  unfold at_position in Hpos. congruence.
Qed.

End SearchExtras.

Lemma search_scores_add_up_witness :
  exists results,
    search PorterStemmer.stem "tools rpc" 5 Examples.tools_index
    = Some (results, Examples.tools_index)
    /\ List.Forall (fun r => (0 <= score r)%R) results.
Proof.
  destruct (search_scores_add_up PorterStemmer.stem PorterFacts.stem_nonempty
              Examples.tools_index "tools rpc" 5%Z
              (index_of_reachable PorterStemmer.stem _)) as (results & Hs & HF).
  exists results. split; [exact Hs|].
  eapply List.Forall_impl; [|exact HF]. simpl.
  intros r (i & _ & _ & _ & H). exact H.
Defined.

Lemma search_slices_one_ranking_witness :
  exists ranked,
    descending ranked
    /\ search PorterStemmer.stem "tools rpc" 2 Examples.tools_index
       = Some (slice0 ranked 2, Examples.tools_index).
Proof.
  destruct (search_slices_one_ranking PorterStemmer.stem PorterFacts.stem_nonempty
              Examples.tools_index "tools rpc"
              (index_of_reachable PorterStemmer.stem _))
    as (ranked & positions & _ & _ & _ & Hd & Hs).
  exists ranked. split; [exact Hd | apply Hs].
Defined.

Lemma search_smaller_k_is_prefix_witness :
  exists r r',
    search PorterStemmer.stem "tools rpc" 1 Examples.tools_index
    = Some (r, Examples.tools_index)
    /\ search PorterStemmer.stem "tools rpc" 5 Examples.tools_index
       = Some (r', Examples.tools_index)
    /\ r = firstn 1 r'.
Proof.
  destruct (search_smaller_k_is_prefix PorterStemmer.stem PorterFacts.stem_nonempty
              Examples.tools_index "tools rpc" 1%Z 5%Z
              (index_of_reachable PorterStemmer.stem _) ltac:(lia))
    as (r & r' & H1 & H2 & H3 & _).
  exists r, r'. split; [exact H1|]. split; [exact H2 | exact H3].
Defined.

Lemma search_negative_k_drops_last_witness :
  exists r full,
    search PorterStemmer.stem "tools rpc" (-1) Examples.tools_index
    = Some (r, Examples.tools_index)
    /\ r = firstn (length full - 1) full.
Proof.
  destruct (search_negative_k_drops_last PorterStemmer.stem PorterFacts.stem_nonempty
              Examples.tools_index "tools rpc" (-1)%Z
              (index_of_reachable PorterStemmer.stem _) ltac:(lia))
    as (r & full & H1 & _ & H3).
  exists r, full. split; [exact H1 | exact H3].
Defined.

Lemma added_document_is_found_witness :
  exists st' results r,
    add PorterStemmer.stem Examples.doc_rpc Examples.tools_index = Some (tt, st')
    /\ search PorterStemmer.stem "JSON-RPC" 4 st' = Some (results, st')
    /\ In r results /\ doc r = Examples.doc_rpc.
Proof.
  assert (Hq : In "rpc" (query_tokens PorterStemmer.stem "JSON-RPC"))
    by (vm_compute; tauto).
  assert (Hd : In "rpc" (allTokens PorterStemmer.stem Examples.doc_rpc))
    by (vm_compute; tauto).
  destruct (added_document_is_found PorterStemmer.stem PorterFacts.stem_nonempty
              Examples.tools_index Examples.doc_rpc "JSON-RPC" "rpc"
              (index_of_reachable PorterStemmer.stem _) Hq Hd)
    as (st' & results & r & Hadd & Hs & Hin & Hdoc & _).
  exists st', results, r. split; [exact Hadd|]. split; [|split; assumption].
  assert (E : length (docs st') = 4).
  { destruct (add_run PorterStemmer.stem Examples.doc_rpc Examples.tools_index)
      as (st2 & Hadd2 & Hdocs & _).
    rewrite Hadd in Hadd2. injection Hadd2 as <-. rewrite Hdocs. reflexivity. }
  rewrite E in Hs. exact Hs.
Defined.

(** ** The BM25 formula *)

Lemma Qdiv_le_cross a b c d :
  (0 < b)%Q -> (0 < d)%Q -> (a * d <= c * b)%Q -> (a / b <= c / d)%Q.
Proof.
  intros Hb Hd H. apply Qle_shift_div_r; [assumption|].
  assert (E : (c / d * b == c * b / d)%Q) by (field; Lqa.lra).
  rewrite E. now apply Qle_shift_div_l.
Qed.

Lemma num_lt a b : a < b -> (num a < num b)%Q.
Proof. intros H. unfold num. rewrite <- Zlt_Qlt. lia. Qed.

Lemma tf_component_zero w dl avg :
  (0 < avg)%Q -> (tf_component w dl avg == 0)%Q <-> w = 0.
Proof.
  intros Havg. pose proof (tf_denominator_bound w dl avg Havg) as Hd.
  unfold tf_component. split.
  - intros E. destruct w as [|w]; [reflexivity|]. exfalso.
    assert (Hp : (0 < num (S w) * (K1 + 1) / tf_denominator (S w) dl avg)%Q).
    { apply Qlt_shift_div_l; [Lqa.lra|].
      pose proof (num_lt 0 (S w) ltac:(lia)) as Hn. unfold K1.
      change (num 0) with 0%Q in Hn. set (a := num (S w)) in *. Lqa.lra. }
    rewrite E in Hp. Lqa.lra.
  - intros ->. unfold Qdiv. change (num 0) with 0%Q. ring.
Qed.

Lemma tf_component_mono w w' dl dl' avg :
  (0 < avg)%Q -> w <= w' -> dl <= dl' ->
  (tf_component w dl' avg <= tf_component w' dl avg)%Q.
Proof.
  intros Havg Hw Hdl.
  pose proof (tf_denominator_bound w dl' avg Havg) as Hd1.
  pose proof (tf_denominator_bound w' dl avg Havg) as Hd2.
  unfold tf_component. apply Qdiv_le_cross; [Lqa.lra | Lqa.lra |].
  unfold tf_denominator, K1, B in *.
  pose proof (num_nonneg w) as Ha. pose proof (num_le _ _ Hw) as Haa.
  pose proof (Qdiv_nonneg (num dl) avg (num_nonneg dl) Havg) as Hx.
  assert (Hxx : (num dl / avg <= num dl' / avg)%Q).
  { apply Qdiv_le_cross; [assumption | assumption |].
    apply Qmult_le_compat_r; [apply num_le, Hdl | Lqa.lra]. }
  set (a := num w) in *. set (a' := num w') in *.
  set (x := (num dl / avg)%Q) in *. set (x' := (num dl' / avg)%Q) in *.
  Lqa.nra.
Qed.

Lemma tf_component_below w dl avg :
  (0 < avg)%Q -> (tf_component w dl avg < K1 + 1)%Q.
Proof.
  intros Havg. pose proof (tf_denominator_bound w dl avg Havg) as Hd.
  unfold tf_component. apply Qlt_shift_div_r; [Lqa.lra|].
  unfold tf_denominator, K1, B in *.
  pose proof (Qdiv_nonneg (num dl) avg (num_nonneg dl) Havg) as Hx.
  set (a := num w) in *. set (x := (num dl / avg)%Q) in *. Lqa.lra.
Qed.

Lemma idf_arg_gt1 n df : df <= n -> (1 < idf_arg n df)%Q.
Proof.
  intros H. unfold idf_arg.
  pose proof (num_le _ _ H) as Hle. pose proof (num_nonneg df) as Hdf.
  assert (Hq : (0 < (num n - num df + 0.5) / (num df + 0.5))%Q).
  { apply Qlt_shift_div_l; set (a := num n) in *; set (b := num df) in *; Lqa.lra. }
  set (q := ((num n - num df + 0.5) / (num df + 0.5))%Q) in *. Lqa.lra.
Qed.

Lemma idf_arg_antitone n df df' :
  df <= df' -> (idf_arg n df' <= idf_arg n df)%Q.
Proof.
  intros H. unfold idf_arg.
  pose proof (num_le _ _ H) as Hle. pose proof (num_nonneg df) as Hdf.
  pose proof (num_nonneg n) as Hn.
  assert (Hq : ((num n - num df' + 0.5) / (num df' + 0.5)
                <= (num n - num df + 0.5) / (num df + 0.5))%Q).
  { apply Qdiv_le_cross; set (a := num n) in *; set (b := num df) in *;
      set (b' := num df') in *; [Lqa.lra | Lqa.lra | Lqa.nra]. }
  Lqa.lra.
Qed.

Lemma Q2R_1 : Q2R 1 = 1%R.
Proof. unfold Q2R. simpl. Lra.lra. Qed.

Lemma ln_pos x : (1 < x)%R -> (0 < ln x)%R.
Proof. intros H. rewrite <- ln_1. apply ln_increasing; Lra.lra. Qed.

(** X19.  The TF component of a score, with the average length floored
    at 1 as [calculateBM25Score] takes it: it is 0 exactly for a weighted
    term frequency of 0, it grows with the weighted term frequency and
    shrinks as the document gets longer, and it stays below k1 + 1 = 2.5. *)
Theorem tf_component_saturates st w w' dl dl' :
  w <= w' -> dl <= dl' ->
  let avg := avgLen_of st in
  ((tf_component w dl avg == 0)%Q <-> w = 0)
  /\ (tf_component w dl' avg <= tf_component w' dl avg)%Q
  /\ (tf_component w' dl avg < 2.5)%Q.
Proof.
  intros Hw Hdl avg.
  assert (Havg : (0 < avg)%Q) by (pose proof (avgLen_of_ge1 st); subst avg; Lqa.lra).
  split; [now apply tf_component_zero|].
  split; [now apply tf_component_mono|].
  apply (tf_component_below w' dl avg Havg).
Qed.

Lemma tf_component_saturates_witness :
  (tf_component 2 7 (avgLen_of Examples.tools_index)
   <= tf_component 3 4 (avgLen_of Examples.tools_index))%Q
  /\ (tf_component 3 4 (avgLen_of Examples.tools_index) < 2.5)%Q.
Proof.
  destruct (tf_component_saturates Examples.tools_index 2 3 4 7 ltac:(lia) ltac:(lia))
    as (_ & H1 & H2).
  split; [exact H1 | exact H2].
Defined.

(** X20.  The IDF of a score, for a document frequency that does not
    exceed the number of documents: it is positive, and a token found in
    more documents has the smaller IDF. *)
Theorem idf_decreases_with_document_frequency n df df' :
  df <= df' -> df' <= n ->
  (0 < ln (Q2R (idf_arg n df')) <= ln (Q2R (idf_arg n df)))%R.
Proof.
  intros H1 H2.
  pose proof (idf_arg_gt1 n df' H2) as Hgt%Qlt_Rlt. rewrite Q2R_1 in Hgt.
  pose proof (idf_arg_antitone n df df' H1) as Hle%Qle_Rle.
  split; [now apply ln_pos|].
  destruct Hle as [Hlt | ->]; [|Lra.lra].
  left. apply ln_increasing; Lra.lra.
Qed.

Lemma idf_decreases_with_document_frequency_witness :
  (0 < ln (Q2R (idf_arg 3 2)) <= ln (Q2R (idf_arg 3 1)))%R.
Proof.
  apply (idf_decreases_with_document_frequency 3 1 2); lia.
Defined.

Section ScoreExtras.

Variable stem : string -> string.

(** X21.  In a reachable state, for a non-empty token,
    [calculateBM25Score] returns 0 exactly when the token is nowhere in
    the document's text, that is when the weighted term frequency is 0,
    and otherwise a positive score below 2.5 times the IDF. *)
Theorem score_zero_iff_no_occurrence st d token i :
  reachable stem st -> token <> EmptyString ->
  exists w s,
    weightedTf d token = Some w
    /\ calculateBM25Score d token i st = Some (s, st)
    /\ (s = 0%R <-> w = 0)
    /\ (0 <= s < 2.5 * ln (Q2R (idf_arg (nDocs_of st) (df_of st token))))%R.
Proof.
  intros Hr Ht.
  pose proof (weightedTf_total d token Ht) as Hw.
  set (w := _ + _ + _ + _ + _) in Hw.
  pose proof (avgLen_of_ge1 st) as Havg.
  assert (Havg0 : (0 < avgLen_of st)%Q) by Lqa.lra.
  pose proof (idf_arg_gt1 _ _ (reachable_df_le stem st token Hr)) as Hidf%Qlt_Rlt.
  rewrite Q2R_1 in Hidf. apply ln_pos in Hidf.
  set (idf := ln _) in *.
  pose proof (tf_component_nonneg w (docLength_of st i) (avgLen_of st) Havg0) as H0%Qle_Rle.
  pose proof (tf_component_below w (docLength_of st i) (avgLen_of st) Havg0) as H1%Qlt_Rlt.
  pose proof (tf_component_zero w (docLength_of st i) (avgLen_of st) Havg0) as Hz.
  replace (Q2R 0) with 0%R in H0 by (unfold Q2R; simpl; Lra.lra).
  assert (E25 : Q2R (K1 + 1) = 2.5%R)
    by (rewrite Q2R_plus; unfold Q2R, K1; simpl; Lra.lra).
  rewrite E25 in H1.
  set (tf := tf_component _ _ _) in *.
  exists w, (idf * Q2R tf)%R.
  split; [exact Hw|]. split; [apply calculateBM25Score_run, Hw|]. split.
  - rewrite <- Hz. split.
    + intros E. apply Rmult_integral in E as [E|E]; [Lra.lra|].
      apply eqR_Qeq. rewrite E. unfold Q2R. simpl. Lra.lra.
    + intros E%Qeq_eqR. rewrite E. unfold Q2R. simpl. Lra.lra.
  - split; [apply Rmult_le_pos; Lra.lra|].
    rewrite (Rmult_comm 2.5 idf). apply Rmult_lt_compat_l; assumption.
Qed.

End ScoreExtras.

Lemma score_zero_iff_no_occurrence_witness :
  exists s,
    calculateBM25Score Examples.doc_tools "tool" 0 Examples.tools_index
    = Some (s, Examples.tools_index)
    /\ (0 <= s)%R.
Proof.
  destruct (score_zero_iff_no_occurrence PorterStemmer.stem Examples.tools_index
              Examples.doc_tools "tool" 0
              (index_of_reachable PorterStemmer.stem _) ltac:(discriminate))
    as (w & s & _ & Hs & _ & H0 & _).
  exists s. split; [exact Hs | exact H0].
Defined.

(** ** The URL validator *)

Lemma starts_with_app a b s :
  starts_with (a +:+ b) s = true -> starts_with a s = true.
Proof.
  revert s. induction a as [|c a IH]; intros s; [reflexivity|].
  simpl. destruct s as [|d s]; [discriminate|].
  intros [Hc Hs]%andb_true_iff. rewrite Hc. now apply IH.
Qed.

Lemma starts_with_refl_app a s : starts_with a (a +:+ s) = true.
Proof. induction a as [|c a IH]; [reflexivity|]. simpl. now rewrite Ascii.eqb_refl. Qed.

Module UrlValidatorFacts.

Import UrlValidator.

Lemma allowed_is_prefixed u :
  isUrlAllowed u = starts_with "https://modelcontextprotocol.io/" u.
Proof.
  unfold isUrlAllowed, ALLOWED_DOMAINS. cbn [existsb]. rewrite orb_false_r.
  destruct u; reflexivity.
Qed.

Lemma allowed_is_https u :
  starts_with "https://modelcontextprotocol.io/" u = true ->
  starts_with "https://" u = true.
Proof. apply (starts_with_app "https://" "modelcontextprotocol.io/"). Qed.

Lemma http_not_allowed u :
  starts_with "http://" u = true ->
  starts_with "https://modelcontextprotocol.io/" u = false.
Proof.
  destruct u as [|c1 [|c2 [|c3 [|c4 [|c5 u]]]]]; cbn [starts_with]; intros H;
    try (rewrite ?andb_false_r in H; discriminate H).
  apply andb_true_iff in H as [<-%Ascii.eqb_eq H].
  apply andb_true_iff in H as [<-%Ascii.eqb_eq H].
  apply andb_true_iff in H as [<-%Ascii.eqb_eq H].
  apply andb_true_iff in H as [<-%Ascii.eqb_eq H].
  apply andb_true_iff in H as [<-%Ascii.eqb_eq H].
  reflexivity.
Qed.

Lemma relative_allowed url :
  starts_with "https://modelcontextprotocol.io/"
    ("https://modelcontextprotocol.io"
     +:+ (if starts_with "/" url then "" else "/") +:+ url) = true.
Proof.
  destruct (starts_with "/" url) eqn:E.
  - destruct url as [|c url]; [discriminate|]. cbn [starts_with] in E.
    apply andb_true_iff in E as [<-%Ascii.eqb_eq _].
    apply (starts_with_refl_app "https://modelcontextprotocol.io/" url).
  - apply (starts_with_refl_app "https://modelcontextprotocol.io/" url).
Qed.

(** what [validateUrl] returns, case by case *)
Lemma validateUrl_cases url :
  (is_absolute url = false
   /\ validateUrl url
      = inr ("https://modelcontextprotocol.io"
             +:+ (if starts_with "/" url then "" else "/") +:+ url))
  \/ (is_absolute url = true
      /\ starts_with "https://modelcontextprotocol.io/" url = true
      /\ validateUrl url = inr url)
  \/ (is_absolute url = true
      /\ starts_with "https://modelcontextprotocol.io/" url = false
      /\ exists e, validateUrl url = inl e).
Proof.
  unfold validateUrl, is_absolute. rewrite <- negb_orb.
  destruct (starts_with "http://" url || starts_with "https://" url) eqn:Ea;
    cbn [negb].
  - right. rewrite allowed_is_prefixed.
    destruct (starts_with "https://modelcontextprotocol.io/" url) eqn:Ep; cbn [negb].
    + left. auto.
    + right. split; [reflexivity|]. split; [reflexivity|]. eexists. reflexivity.
  - left. split; [reflexivity|].
    now rewrite allowed_is_prefixed, relative_allowed.
Qed.

Lemma allowed_fixed u :
  starts_with "https://modelcontextprotocol.io/" u = true -> validateUrl u = inr u.
Proof.
  intros Hp.
  destruct (validateUrl_cases u) as [(Ha & _)|[(_ & _ & E)|(_ & Hp' & _)]];
    [|exact E | congruence].
  unfold is_absolute in Ha. rewrite (allowed_is_https u Hp), orb_true_r in Ha.
  discriminate.
Qed.

End UrlValidatorFacts.

(** X22.  [validateUrl] throws exactly for a URL that starts with
    [http://] or [https://] and not with the allowed prefix: every
    [http://] URL is refused, and nothing that starts otherwise is, the
    empty string, [//host/path] and [ftp://host] included, which are put
    behind [https://modelcontextprotocol.io], with a slash between unless
    they start with one. *)
Theorem validateUrl_refuses_exactly_foreign_absolute (url : string) :
  ((exists e, UrlValidator.validateUrl url = inl e)
   <-> UrlValidator.is_absolute url = true
       /\ starts_with "https://modelcontextprotocol.io/" url = false)
  /\ (starts_with "http://" url = true ->
      exists e, UrlValidator.validateUrl url = inl e)
  /\ (UrlValidator.is_absolute url = false ->
      UrlValidator.validateUrl url
      = inr ("https://modelcontextprotocol.io"
             +:+ (if starts_with "/" url then "" else "/") +:+ url)).
Proof.
  pose proof (UrlValidatorFacts.validateUrl_cases url) as H.
  split; [|split].
  - split.
    + intros (e & He).
      destruct H as [(_ & E)|[(_ & _ & E)|(Ha & Hp & _)]]; [congruence | congruence |].
      split; assumption.
    + intros (Ha & Hp).
      destruct H as [(Ha' & _)|[(_ & Hp' & _)|(_ & _ & E)]]; [congruence | congruence |].
      exact E.
  - intros Hh. pose proof (UrlValidatorFacts.http_not_allowed url Hh) as Hp.
    destruct H as [(Ha & _)|[(_ & Hp' & _)|(_ & _ & E)]]; [|congruence | exact E].
    unfold UrlValidator.is_absolute in Ha. rewrite Hh in Ha. discriminate.
  - intros Ha.
    destruct H as [(_ & E)|[(Ha' & _)|(Ha' & _)]]; [exact E | congruence | congruence].
Qed.

(** X23.  What [validateUrl] returns starts with the allowed prefix,
    ends with the URL it was given, and is a fixed point: validating it
    again returns it unchanged. *)
Theorem validateUrl_returns_allowed_fixed_point (url u : string) :
  UrlValidator.validateUrl url = inr u ->
  UrlValidator.isUrlAllowed u = true
  /\ starts_with "https://modelcontextprotocol.io/" u = true
  /\ (exists pre, u = pre +:+ url)
  /\ UrlValidator.validateUrl u = inr u.
Proof.
  intros Hv.
  assert (Hp : starts_with "https://modelcontextprotocol.io/" u = true
               /\ exists pre, u = pre +:+ url).
  { destruct (UrlValidatorFacts.validateUrl_cases url)
      as [(_ & E)|[(_ & Hp & E)|(_ & _ & e & E)]]; rewrite E in Hv.
    - pose proof (UrlValidatorFacts.relative_allowed url) as Hr.
      destruct (starts_with "/" url); injection Hv as <-; (split; [exact Hr|]).
      + now exists "https://modelcontextprotocol.io".
      + now exists "https://modelcontextprotocol.io/".
    - injection Hv as <-. split; [exact Hp|]. now exists "".
    - discriminate. }
  destruct Hp as (Hp & Hsuf).
  split; [now rewrite UrlValidatorFacts.allowed_is_prefixed|].
  split; [exact Hp|]. split; [exact Hsuf|].
  now apply UrlValidatorFacts.allowed_fixed.
Qed.

Lemma validateUrl_returns_allowed_fixed_point_witness :
  UrlValidator.validateUrl "docs/tools" = inr "https://modelcontextprotocol.io/docs/tools"
  /\ UrlValidator.validateUrl "https://modelcontextprotocol.io/docs/tools"
     = inr "https://modelcontextprotocol.io/docs/tools".
Proof.
  assert (H : UrlValidator.validateUrl "docs/tools"
              = inr "https://modelcontextprotocol.io/docs/tools") by reflexivity.
  split; [exact H|].
  exact (proj2 (proj2 (proj2 (validateUrl_returns_allowed_fixed_point _ _ H)))).
Defined.

(** X24.  [validateUrls] is all or nothing: it returns a list exactly
    when [validateUrl] returns for every URL, and then the list has the
    validated URLs in the same order; otherwise it throws what
    [validateUrl] throws for the first URL it refuses. *)
Theorem validateUrls_all_or_nothing (urls : list string) :
  (forall us,
      UrlValidator.validateUrls urls = inr us
      <-> Forall2 (fun url u => UrlValidator.validateUrl url = inr u) urls us)
  /\ (forall e,
        UrlValidator.validateUrls urls = inl e
        <-> exists before url after,
              urls = before ++ url :: after
              /\ List.Forall (fun x => exists u, UrlValidator.validateUrl x = inr u) before
              /\ UrlValidator.validateUrl url = inl e).
Proof.
  induction urls as [|url rest [IHr IHl]]; split.
  - intros us. split.
    + intros [= <-]. constructor.
    + intros H. inversion H. reflexivity.
  - intros e. split; [discriminate|].
    intros (before & url & after & H & _). destruct before; discriminate.
  - intros us. cbn [UrlValidator.validateUrls]. split.
    + destruct (UrlValidator.validateUrl url) as [e|u] eqn:E; [discriminate|].
      destruct (UrlValidator.validateUrls rest) as [e|us'] eqn:Er; [discriminate|].
      intros [= <-]. constructor; [exact E | now apply IHr].
    + intros H. inversion H as [|? u ? us' Hu Hrest]; subst.
      rewrite Hu. apply IHr in Hrest. now rewrite Hrest.
  - intros e. cbn [UrlValidator.validateUrls]. split.
    + destruct (UrlValidator.validateUrl url) as [e'|u] eqn:E.
      * intros [= ->]. exists [], url, rest.
        split; [reflexivity|]. split; [constructor | exact E].
      * destruct (UrlValidator.validateUrls rest) as [e'|us'] eqn:Er; [|discriminate].
        intros [= ->]. destruct (proj1 (IHl e) eq_refl) as (before & x & after & -> & Hb & Hx).
        exists (url :: before), x, after.
        split; [reflexivity|]. split; [|exact Hx].
        constructor; [eauto | exact Hb].
    + intros (before & x & after & Heq & Hb & Hx).
      destruct before as [|b before]; simpl in Heq; injection Heq as -> ->.
      * now rewrite Hx.
      * inversion Hb as [|? ? (u & Hu) Hb']; subst. rewrite Hu.
        assert (Hr : UrlValidator.validateUrls (before ++ x :: after) = inl e).
        { apply IHl. exists before, x, after. auto. }
        now rewrite Hr.
Qed.

(** ** Normalizing white space *)

Module TextProcessorFacts.

Import TextProcessor.

Lemma trimStart_collapse_true s : trimStart (collapse true s) = collapse true s.
Proof.
  induction s as [|c s IH]; [reflexivity|]. simpl.
  destruct (is_space c) eqn:E; [exact IH|]. simpl. now rewrite E.
Qed.

Lemma trimStart_collapse s : trimStart (collapse false s) = collapse true s.
Proof.
  destruct s as [|c s]; [reflexivity|]. simpl.
  destruct (is_space c) eqn:E; simpl; [apply trimStart_collapse_true | now rewrite E].
Qed.

Lemma trimEnd_cons c s :
  is_space c = false -> trimEnd (String c s) = String c (trimEnd s).
Proof. intros E. simpl. rewrite E. now destruct (trimEnd s). Qed.

Lemma words_are_words s : List.Forall is_word_of (words s).
Proof.
  induction s as [|c s IH]; [constructor|]. simpl.
  destruct (is_space c) eqn:E; [exact IH|].
  assert (Hc : is_word_of (String c "")).
  { split; [discriminate|]. simpl. now rewrite E. }
  destruct s as [|d s]; [constructor; [exact Hc | constructor]|].
  destruct (is_space d) eqn:Ed; [constructor; assumption|].
  destruct (words (String d s)) as [|w ws]; [constructor; [exact Hc | constructor]|].
  inversion IH as [|? ? [Hw1 Hw2] Hws]; subst.
  constructor; [|assumption].
  split; [discriminate|]. simpl. now rewrite E, Hw2.
Qed.

Lemma join_empty l :
  List.Forall is_word_of l -> join " " l = EmptyString -> l = [].
Proof.
  intros H E. destruct H as [|w l [Hw _] _]; [reflexivity|]. exfalso.
  destruct w as [|c w]; [congruence|]. destruct l; discriminate E.
Qed.

Lemma join_cons_char c w ws :
  join " " (String c w :: ws) = String c (join " " (w :: ws)).
Proof. destruct ws; reflexivity. Qed.

Lemma trimEnd_collapse s : trimEnd (collapse true s) = join " " (words s).
Proof.
  induction s as [|c s IH]; [reflexivity|].
  cbn [collapse words]. destruct (is_space c) eqn:E; [exact IH|].
  rewrite (trimEnd_cons _ _ E).
  destruct s as [|d s]; [reflexivity|].
  cbn [collapse] in *. destruct (is_space d) eqn:Ed.
  - cbn [trimEnd]. rewrite IH.
    pose proof (words_are_words (String d s)) as Hw.
    destruct (join " " (words (String d s))) as [|x t] eqn:Ej.
    + apply (join_empty _ Hw) in Ej. rewrite Ej.
      change (is_space " ") with true. reflexivity.
    + destruct (words (String d s)) as [|w ws]; [discriminate Ej|].
      change (join " " (String c "" :: w :: ws))
        with (String c (String " " (join " " (w :: ws)))).
      now rewrite Ej.
  - rewrite IH.
    destruct (words (String d s)) as [|w ws] eqn:Ew.
    + exfalso. cbn [words] in Ew. rewrite Ed in Ew.
      destruct s as [|e s]; [discriminate|].
      destruct (is_space e); [discriminate|].
      destruct (words (String e s)); discriminate.
    + now rewrite join_cons_char.
Qed.

Lemma normalize_words s : normalize s = join " " (words s).
Proof. unfold normalize, trim. now rewrite trimStart_collapse, trimEnd_collapse. Qed.

Lemma words_word w : is_word_of w -> words w = [w].
Proof.
  intros [Hne Hw]. induction w as [|c w IH]; [congruence|].
  simpl in Hw. apply andb_true_iff in Hw as [Hc%negb_true_iff Hw].
  cbn [words]. rewrite Hc. destruct w as [|d w]; [reflexivity|].
  pose proof Hw as [Hd%negb_true_iff _]%andb_true_iff. rewrite Hd.
  now rewrite IH.
Qed.

Lemma words_word_space w rest :
  is_word_of w -> words (w +:+ String " " rest) = w :: words rest.
Proof.
  intros [Hne Hw]. induction w as [|c w IH]; [congruence|].
  simpl in Hw. apply andb_true_iff in Hw as [Hc%negb_true_iff Hw].
  change (String c w +:+ String " " rest) with (String c (w +:+ String " " rest)).
  cbn [words]. rewrite Hc. destruct w as [|d w].
  - change ("" +:+ String " " rest) with (String " " rest).
    change (is_space " ") with true. reflexivity.
  - change (String d w +:+ String " " rest) with (String d (w +:+ String " " rest)).
    pose proof Hw as [Hd%negb_true_iff _]%andb_true_iff. rewrite Hd.
    change (String d (w +:+ String " " rest)) with (String d w +:+ String " " rest).
    now rewrite IH.
Qed.

Lemma words_join ws : List.Forall is_word_of ws -> words (join " " ws) = ws.
Proof.
  induction 1 as [|w ws Hw Hws IH]; [reflexivity|].
  destruct ws as [|w2 ws]; [now apply words_word|].
  change (join " " (w :: w2 :: ws)) with (w +:+ String " " (join " " (w2 :: ws))).
  now rewrite words_word_space, IH.
Qed.

Lemma length_collapse b s : String.length (collapse b s) <= String.length s.
Proof.
  revert b. induction s as [|c s IH]; intros b; [reflexivity|]. simpl.
  pose proof (IH true). pose proof (IH false).
  destruct (is_space c); [destruct b|]; simpl; lia.
Qed.

Lemma length_trimStart s : String.length (trimStart s) <= String.length s.
Proof. induction s as [|c s IH]; [reflexivity|]. simpl. destruct (is_space c); simpl; lia. Qed.

Lemma length_trimEnd s : String.length (trimEnd s) <= String.length s.
Proof.
  induction s as [|c s IH]; [reflexivity|]. simpl.
  destruct (trimEnd s); [destruct (is_space c)|]; simpl in *; lia.
Qed.

End TextProcessorFacts.

(** X25.  [normalize] returns the words of the string, its maximal runs
    of characters that are not white space, joined by single spaces: the
    result has no white space but single spaces between words, none at
    either end, and it is no longer than the string. *)
Theorem normalize_joins_words (s : string) :
  TextProcessor.normalize s = join " " (TextProcessor.words s)
  /\ List.Forall TextProcessor.is_word_of (TextProcessor.words s)
  /\ String.length (TextProcessor.normalize s) <= String.length s.
Proof.
  split; [apply TextProcessorFacts.normalize_words|].
  split; [apply TextProcessorFacts.words_are_words|].
  unfold TextProcessor.normalize, trim.
  pose proof (TextProcessorFacts.length_trimEnd
                (trimStart (TextProcessor.collapse false s))).
  pose proof (TextProcessorFacts.length_trimStart (TextProcessor.collapse false s)).
  pose proof (TextProcessorFacts.length_collapse false s). lia.
Qed.

(** X26.  [normalize] is idempotent, and it keeps the words of the
    string: normalizing twice gives what normalizing once gives, with the
    same words in the same order. *)
Theorem normalize_idempotent (s : string) :
  TextProcessor.normalize (TextProcessor.normalize s) = TextProcessor.normalize s
  /\ TextProcessor.words (TextProcessor.normalize s) = TextProcessor.words s.
Proof.
  assert (E : TextProcessor.words (TextProcessor.normalize s) = TextProcessor.words s).
  { rewrite TextProcessorFacts.normalize_words.
    apply TextProcessorFacts.words_join, TextProcessorFacts.words_are_words. }
  split; [|exact E].
  rewrite (TextProcessorFacts.normalize_words (TextProcessor.normalize s)), E.
  symmetry. apply TextProcessorFacts.normalize_words.
Qed.

(** ** Title variants *)

Module TitleFacts.

Import TextProcessor.

Lemma normalize_normalize s : normalize (normalize s) = normalize s.
Proof.
  rewrite (TextProcessorFacts.normalize_words (normalize s)).
  rewrite (TextProcessorFacts.normalize_words s) at 1.
  rewrite TextProcessorFacts.words_join by apply TextProcessorFacts.words_are_words.
  symmetry. apply TextProcessorFacts.normalize_words.
Qed.

Section Variants.

Variable toUpperCase : string -> string.

Lemma variant_step_kept vs v : kept vs -> kept (variant_step vs v).
Proof.
  intros [Hf Hn]. unfold variant_step.
  destruct (is_empty (normalize v)) eqn:Ee; [split; assumption|]. cbn [negb andb].
  destruct (existsb _ vs) eqn:Ex; [split; assumption|]. cbn [negb]. split.
  - apply Forall_app. split; [assumption|]. constructor; [|constructor].
    split; [|apply normalize_normalize].
    intros E. rewrite E in Ee. discriminate.
  - rewrite fmap_app. apply NoDup_app. split; [assumption|]. split.
    + intros x Hx [->|[]%elem_of_nil]%elem_of_cons.
      apply list_elem_of_fmap in Hx as (y & Hy & Hin).
      assert (Ht : existsb (fun x => String.eqb (toLowerCase x) (toLowerCase (normalize v))) vs
                   = true).
      { apply existsb_exists. exists y. split; [now apply list_elem_of_In|].
        rewrite <- Hy. apply String.eqb_refl. }
      congruence.
    + apply NoDup_singleton.
Qed.

Lemma variant_steps_kept l : forall vs, kept vs -> kept (fold_left variant_step l vs).
Proof.
  induction l as [|v l IH]; intros vs H; [exact H|].
  apply IH. now apply variant_step_kept.
Qed.

Lemma variant_steps_length l :
  forall vs, length (fold_left variant_step l vs) <= length vs + length l.
Proof.
  induction l as [|v l IH]; intros vs; simpl; [lia|].
  specialize (IH (variant_step vs v)). unfold variant_step in *.
  destruct (_ && _); [rewrite length_app in IH; simpl in IH|]; lia.
Qed.

Lemma variant_steps_head l x :
  forall vs, head (fold_left variant_step l (x :: vs)) = Some x.
Proof.
  induction l as [|v l IH]; intros vs; [reflexivity|].
  cbn [fold_left]. unfold variant_step at 2.
  destruct (_ && _); [apply (IH (vs ++ [_])) | apply IH].
Qed.

End Variants.

End TitleFacts.

(** X27.  The variants that [indexTitleVariants] joins are at most
    three, each of them non-empty and normalized, and no two of them are
    equal when case is ignored; the first is the normalized display
    title, unless that is empty. *)
Theorem indexTitleVariants_keeps_distinct_variants
  (toUpperCase : string -> string) (displayTitle url : string) :
  let variants := TextProcessor.title_variants toUpperCase displayTitle url in
  TextProcessor.indexTitleVariants toUpperCase displayTitle url = join " " variants
  /\ length variants <= 3
  /\ List.Forall (fun v => v <> EmptyString /\ TextProcessor.normalize v = v) variants
  /\ NoDup (toLowerCase <$> variants)
  /\ (TextProcessor.normalize displayTitle <> EmptyString ->
      head variants = Some (TextProcessor.normalize displayTitle)).
Proof.
  intros variants. split; [reflexivity|].
  assert (Hk : TextProcessor.kept variants).
  { apply TitleFacts.variant_steps_kept. split; [constructor | apply NoDup_nil_2]. }
  split.
  { exact (TitleFacts.variant_steps_length
             [displayTitle; TextProcessor.two_to_word displayTitle;
              TextProcessor.titleFromUrl toUpperCase url] []). }
  split; [apply Hk|]. split; [apply Hk|].
  intros Hne. subst variants. unfold TextProcessor.title_variants.
  change (fold_left TextProcessor.variant_step
            [displayTitle; TextProcessor.two_to_word displayTitle;
             TextProcessor.titleFromUrl toUpperCase url] [])
    with (fold_left TextProcessor.variant_step
            [TextProcessor.two_to_word displayTitle;
             TextProcessor.titleFromUrl toUpperCase url]
            (TextProcessor.variant_step [] displayTitle)).
  unfold TextProcessor.variant_step at 2.
  destruct (TextProcessor.normalize displayTitle) as [|c t] eqn:E; [congruence|].
  cbn [is_empty negb existsb andb app].
  apply TitleFacts.variant_steps_head.
Qed.

(** ** The links of llms.txt *)

Module DocFetcherFacts.

Import DocFetcher.

Lemma parse_steps ms :
  forall links,
    fold_left parse_step ms links
    = links ++ flat_map (parse_step []) ms.
Proof.
  induction ms as [|m ms IH]; intros links; [cbn; now rewrite app_nil_r|].
  cbn [fold_left flat_map]. rewrite IH.
  assert (E : parse_step links m = links ++ parse_step [] m).
  { unfold parse_step.
    destruct (UrlValidator.validateUrl (trim (group2 m))) as [e|v];
      [now rewrite app_nil_r | reflexivity]. }
  now rewrite E, <- app_assoc.
Qed.

(** [MD_LINK_RE] matches where [MD_LINK_TEXT_RE] does, the same text
    with the same first group *)
Lemma MD_LINK_RE_agrees prev s :
  match_at MD_LINK_TEXT_RE prev s
  = (fun m => {| m0 := whole m; m1 := Some (group1 m) |}) <$> MD_LINK_RE s.
Proof.
  unfold MD_LINK_RE, MD_LINK_TEXT_RE. cbn [match_at].
  destruct s as [|c r]; [reflexivity|].
  destruct c as [[] [] [] [] [] [] [] []]; try reflexivity.
  destruct (span (fun c => negb (Ascii.eqb c "]")) r) as [g1 r2].
  destruct g1 as [|x g1]; [reflexivity|].
  destruct r2 as [|c2 r2]; [reflexivity|].
  destruct c2 as [[] [] [] [] [] [] [] []]; try reflexivity.
  destruct r2 as [|c3 r3]; [reflexivity|].
  destruct c3 as [[] [] [] [] [] [] [] []]; try reflexivity.
  destruct (span (fun c => negb (Ascii.eqb c ")")) r3) as [g2 r4].
  destruct g2 as [|y g2]; [reflexivity|].
  destruct r4 as [|c4 r4]; [reflexivity|].
  destruct c4 as [[] [] [] [] [] [] [] []]; reflexivity.
Qed.

End DocFetcherFacts.

(** X28.  [parseLlmsTxt] does not throw on any text, keeps the order of
    the links, and returns at most one link for each match: the link of a
    match is left out exactly when its target, trimmed, starts with
    [http://] or [https://] and not with the allowed prefix.  Every URL
    returned starts with the allowed prefix and passes [validateUrl]
    unchanged. *)
Theorem parseLlmsTxt_keeps_allowed_links (txt : string) :
  DocFetcher.parseLlmsTxt txt
  = flat_map (DocFetcher.parse_step []) (DocFetcher.exec_all txt 0)
  /\ (forall m,
        DocFetcher.parse_step [] m = []
        <-> UrlValidator.is_absolute (trim (DocFetcher.group2 m)) = true
            /\ starts_with "https://modelcontextprotocol.io/"
                 (trim (DocFetcher.group2 m)) = false)
  /\ List.Forall (fun l : string * string =>
                    starts_with "https://modelcontextprotocol.io/" l.2 = true
                    /\ UrlValidator.validateUrl l.2 = inr l.2)
       (DocFetcher.parseLlmsTxt txt).
Proof.
  assert (E : DocFetcher.parseLlmsTxt txt
              = flat_map (DocFetcher.parse_step []) (DocFetcher.exec_all txt 0))
    by apply (DocFetcherFacts.parse_steps _ []).
  split; [exact E|]. split.
  - intros m. unfold DocFetcher.parse_step.
    destruct (UrlValidatorFacts.validateUrl_cases (trim (DocFetcher.group2 m)))
      as [(Ha & ->)|[(Ha & Hp & ->)|(Ha & Hp & e & ->)]].
    + split; [discriminate | intros [? _]; congruence].
    + split; [discriminate | intros [_ ?]; congruence].
    + split; auto.
  - rewrite E. apply List.Forall_forall. intros l (m & _ & Hl)%in_flat_map.
    unfold DocFetcher.parse_step in Hl.
    destruct (UrlValidator.validateUrl (trim (DocFetcher.group2 m))) as [e|v] eqn:Ev;
      [destruct Hl|].
    destruct Hl as [<-|[]]. cbn [snd].
    assert (Hp : starts_with "https://modelcontextprotocol.io/" v = true
                 /\ UrlValidator.validateUrl v = inr v).
    { destruct (UrlValidatorFacts.validateUrl_cases (trim (DocFetcher.group2 m)))
        as [(_ & E1)|[(_ & Hp & E1)|(_ & _ & e & E1)]]; rewrite E1 in Ev.
      - injection Ev as <-.
        pose proof (UrlValidatorFacts.relative_allowed (trim (DocFetcher.group2 m))) as Hr.
        split; [exact Hr|]. now apply UrlValidatorFacts.allowed_fixed.
      - injection Ev as <-. split; [exact Hp|].
        now apply UrlValidatorFacts.allowed_fixed.
      - discriminate. }
    exact Hp.
Qed.

(** ** Loading the links *)

Module CacheFacts.

Import Cache.

Section LoadingFacts.

Variable stem : string -> string.
Variable toUpperCase : string -> string.

Lemma load_links_index links :
  forall st,
    index (fold_left (load_link stem toUpperCase) links st)
    = (fun ix => fold_left (after_add stem) (map (link_doc toUpperCase) links) ix) <$> index st.
Proof.
  induction links as [|l links IH]; intros st;
    [cbn [fold_left map]; destruct (index st); reflexivity|].
  cbn [fold_left map]. rewrite IH. cbn [load_link index].
  destruct (index st); reflexivity.
Qed.

Lemma load_links_flag links :
  forall st, linksLoaded (fold_left (load_link stem toUpperCase) links st) = linksLoaded st.
Proof.
  induction links as [|l links IH]; intros st; [reflexivity|].
  cbn [fold_left]. now rewrite IH.
Qed.

(** an entry of the page cache is never overwritten *)
Lemma load_links_cache_kept links :
  forall st u,
    is_Some (urlCache st !! u) ->
    urlCache (fold_left (load_link stem toUpperCase) links st) !! u = urlCache st !! u.
Proof.
  induction links as [|l links IH]; intros st u Hu; [reflexivity|].
  cbn [fold_left].
  assert (E : urlCache ((load_link stem toUpperCase) st l) !! u = urlCache st !! u).
  { cbn [load_link urlCache]. case_decide as Hl; [reflexivity|].
    destruct (decide (l.2 = u)) as [Heq|Hne]; [rewrite Heq in Hl; contradiction|].
    now rewrite lookup_insert_ne. }
  rewrite IH; [exact E | now rewrite E].
Qed.

Lemma load_links_cache_has links :
  forall st l, In l links -> is_Some (urlCache (fold_left (load_link stem toUpperCase) links st) !! l.2).
Proof.
  induction links as [|x links IH]; intros st l; [intros []|].
  cbn [fold_left]. intros [->|Hin]; [|now apply IH].
  assert (H : is_Some (urlCache ((load_link stem toUpperCase) st l) !! l.2)).
  { cbn [load_link urlCache]. case_decide as Hl; [exact Hl|].
    rewrite lookup_insert_eq. eauto. }
  now rewrite load_links_cache_kept.
Qed.

Lemma load_links_titles links :
  forall st u,
    urlTitles (fold_left (load_link stem toUpperCase) links st) !! u
    = match last (List.filter (fun l => String.eqb l.2 u) links) with
      | Some l => Some l.1
      | None => urlTitles st !! u
      end.
Proof.
  induction links as [|x links IH]; intros st u; [reflexivity|].
  cbn [fold_left List.filter]. rewrite IH. cbn [load_link urlTitles].
  destruct (String.eqb x.2 u) eqn:E.
  - apply String.eqb_eq in E as <-.
    destruct (List.filter _ links) as [|y ys] eqn:Ef.
    + cbn. now rewrite lookup_insert_eq.
    + change (last (x :: y :: ys)) with (last (y :: ys)).
      destruct (last (y :: ys)) eqn:El; [reflexivity|].
      apply last_None in El. discriminate.
  - assert (Hne : x.2 <> u) by (intros Heq; rewrite Heq, String.eqb_refl in E; discriminate).
    destruct (last _); [reflexivity | now rewrite lookup_insert_ne].
Qed.

Lemma fold_after_add_reachable ds :
  forall ix, reachable stem ix -> reachable stem (fold_left (after_add stem) ds ix).
Proof.
  induction ds as [|d ds IH]; intros ix H; [exact H|].
  cbn [fold_left]. apply IH. now apply after_add_reachable.
Qed.

Lemma link_docs_allowed txt :
  List.Forall (fun d => content d = EmptyString
                        /\ UrlValidator.isUrlAllowed (uri d) = true)
    (map (link_doc toUpperCase) (DocFetcher.parseLlmsTxt txt)).
Proof.
  apply List.Forall_forall. intros d (l & <- & Hl)%in_map_iff.
  destruct l as [title url]. split; [reflexivity|]. cbn [Cache.link_doc uri].
  rewrite UrlValidatorFacts.allowed_is_prefixed.
  unfold DocFetcher.parseLlmsTxt in Hl.
  rewrite (DocFetcherFacts.parse_steps _ []) in Hl. cbn [app] in Hl.
  apply in_flat_map in Hl as (m & _ & Hl).
  unfold DocFetcher.parse_step in Hl.
  destruct (UrlValidator.validateUrl (trim (DocFetcher.group2 m))) as [e|v] eqn:Ev;
    [destruct Hl|].
  destruct Hl as [[= _ <-]|[]].
  destruct (UrlValidatorFacts.validateUrl_cases (trim (DocFetcher.group2 m)))
    as [(_ & E1)|[(_ & Hp & E1)|(_ & _ & e & E1)]]; rewrite E1 in Ev.
  - injection Ev as <-. apply UrlValidatorFacts.relative_allowed.
  - now injection Ev as <-.
  - discriminate.
Qed.

End LoadingFacts.

End CacheFacts.

(** X29.  [loadLinksOnly], when the text of llms.txt arrives: it resolves
    with the flag set; the index, a new one if there was none, has got
    one document for each link that [parseLlmsTxt] returns, in their
    order and after the documents it had, each without content and with
    an allowed URL; a state of the index that [add] can reach stays one;
    no entry of the page cache is overwritten, every link has an entry,
    and the curated title of a URL is that of its last link. *)
Theorem loadLinksOnly_indexes_one_document_per_link
  (stem toUpperCase : string -> string) (txt : string) (st : Cache.State) :
  let links := DocFetcher.parseLlmsTxt txt in
  let before := default empty_index (Cache.index st) in
  let added := map (Cache.link_doc toUpperCase) links in
  exists st' ix',
    Cache.loadLinksOnly stem toUpperCase (Some txt) st = (Cache.Resolved, st')
    /\ Cache.linksLoaded st' = true
    /\ Cache.index st' = Some ix'
    /\ docs ix' = docs before ++ added
    /\ List.Forall (fun d => content d = EmptyString
                             /\ UrlValidator.isUrlAllowed (uri d) = true) added
    /\ (reachable stem before -> reachable stem ix')
    /\ (forall u, is_Some (Cache.urlCache st !! u) ->
                  Cache.urlCache st' !! u = Cache.urlCache st !! u)
    /\ (forall l, In l links ->
                  is_Some (Cache.urlCache st' !! l.2)
                  /\ exists t, Cache.urlTitles st' !! l.2 = Some t /\ In (t, l.2) links).
Proof.
  intros links before added.
  set (st1 := match Cache.index st with
              | None => {| Cache.index := Some empty_index;
                           Cache.urlCache := Cache.urlCache st;
                           Cache.urlTitles := Cache.urlTitles st;
                           Cache.linksLoaded := Cache.linksLoaded st |}
              | Some _ => st
              end).
  assert (H1 : Cache.index st1 = Some before
               /\ Cache.urlCache st1 = Cache.urlCache st
               /\ Cache.urlTitles st1 = Cache.urlTitles st).
  { subst st1 before. destruct (Cache.index st) eqn:E; cbn; rewrite ?E; auto. }
  destruct H1 as (Hi & Hc & Ht).
  set (st2 := fold_left (Cache.load_link stem toUpperCase) links st1).
  exists {| Cache.index := Cache.index st2; Cache.urlCache := Cache.urlCache st2;
            Cache.urlTitles := Cache.urlTitles st2; Cache.linksLoaded := true |},
    (fold_left (after_add stem) added before).
  split; [reflexivity|]. split; [reflexivity|]. cbn [Cache.index Cache.urlCache Cache.urlTitles].
  split; [subst st2; now rewrite CacheFacts.load_links_index, Hi|].
  split; [apply docs_fold_after_add|].
  split; [apply CacheFacts.link_docs_allowed|].
  split; [apply CacheFacts.fold_after_add_reachable|].
  split.
  - intros u Hu. subst st2. rewrite <- Hc in *.
    now apply CacheFacts.load_links_cache_kept.
  - intros l Hl. split; [now apply CacheFacts.load_links_cache_has|].
    subst st2. rewrite CacheFacts.load_links_titles.
    assert (Hf : In l (List.filter (fun x : string * string => String.eqb x.2 l.2) links)).
    { apply filter_In. split; [exact Hl | apply String.eqb_refl]. }
    destruct (last (List.filter _ links)) as [y|] eqn:El.
    + exists y.1. split; [reflexivity|].
      apply last_Some in El as (pre & El).
      assert (Hy : In y (List.filter (fun x : string * string => String.eqb x.2 l.2) links)).
      { rewrite El. apply in_or_app. right. now left. }
      apply filter_In in Hy as [Hy Hy2]. apply String.eqb_eq in Hy2. rewrite <- Hy2.
      now destruct y.
    + apply last_None in El. rewrite El in Hf. destruct Hf.
Qed.

